(** * smtp-server: the rate-limited e-mail dispatch queue and its HTTP handlers

    A shallow embedding of the three server variants of the repository:

    - [DirectServer]: [src/server.js], the Gmail relay that calls the
      transport straight from the handlers;
    - [QueueServer]: the self-hosted [server.js] with [queueEmail] and
      [processEmailQueue] (promise-returning queue, 421/rate requeue);
    - [RetryServer]: the [server.js] written out by the quick-setup script
      (retry counter, [60000 / RATE_LIMIT] interval).

    JavaScript runs the handlers and the drain loop on one thread: code runs
    without interruption from one [await] to the next.  The embedding follows
    that: every synchronous stretch is a function on the server state, a
    suspended drain loop is a continuation stored in the state, and the
    environment (clock, timers, transport, HTTP clients) drives the machine
    through events.  [Date.now()] never goes back.  Timers come twice:
    [QueueServer.step] and [RetryServer.step] have ideal timers, which
    never fire before the delay asked for has passed; [QueueServerNode]
    and [RetryServerNode] run the same code on Node's timers, which cut
    the fraction of a delay off, replace a delay outside 1 .. 2^31 - 1 by
    1 ms, and can run a callback early.  The bounds on the time between
    a successful send and the next one are proved on Node's timers.  A
    request body is a JSON object; a field it does not have reads as
    [undefined]. *)

From Stdlib Require Import ZArith NArith QArith Qround List String Ascii Bool Lia Lqa Permutation DecimalString.
Import ListNotations.
Local Open Scope string_scope.
Local Open Scope list_scope.
Local Open Scope Z_scope.
Set Warnings "-register-all".

(** ** JavaScript values of a JSON request body *)

Inductive JsVal : Type :=
| JUndefined
| JNull
| JBool (b : bool)
| JNum (n : Z)
| JStr (s : string)
| JArr (l : list JsVal)
| JObj (fields : list (string * JsVal)).

(** [!v] is [negb (truthy v)]. *)
Definition truthy (v : JsVal) : bool :=
  match v with
  | JUndefined | JNull => false
  | JBool b => b
  | JNum n => negb (n =? 0)
  | JStr s => negb (String.eqb s "")
  | JArr _ | JObj _ => true
  end.

(** [a || b] on values. *)
Definition js_or (a b : JsVal) : JsVal := if truthy a then a else b.

Definition string_of_Z (n : Z) : string :=
  DecimalString.NilZero.string_of_int (Z.to_int n).

(** [String(v)] for the elements [Array.prototype.join] meets; a nested
    array is joined with a comma. *)
Fixpoint js_toString (v : JsVal) : string :=
  match v with
  | JUndefined => "undefined"
  | JNull => "null"
  | JBool true => "true"
  | JBool false => "false"
  | JNum n => string_of_Z n
  | JStr s => s
  | JArr l =>
      String.concat ","
        (map (fun x => match x with
                       | JUndefined | JNull => ""
                       | _ => js_toString x
                       end) l)
  | JObj _ => "[object Object]"
  end.

(** [l.join(sep)]: [undefined] and [null] elements print as the empty string. *)
Definition js_join (l : list JsVal) (sep : string) : string :=
  String.concat sep
    (map (fun x => match x with
                   | JUndefined | JNull => ""
                   | _ => js_toString x
                   end) l).

(** [s.includes(sub)] *)
Fixpoint includes (s sub : string) : bool :=
  if String.prefix sub s then true
  else match s with
       | EmptyString => false
       | String _ s' => includes s' sub
       end.

(** ** Messages, transport results, HTTP replies *)

Record MailOptions : Type := mkMailOptions {
  mo_from : JsVal;
  mo_to : JsVal;
  mo_subject : JsVal;
  mo_text : JsVal;
  mo_html : JsVal
}.

(** The error nodemailer throws: [error.message] and, for an SMTP reply,
    [error.responseCode]. *)
Record SmtpError : Type := mkSmtpError {
  responseCode : option Z;
  message : string
}.

(** How [await transporter.sendMail(...)] ends: [info.messageId] or a throw. *)
Inductive SendResult : Type :=
| SendOk (messageId : string)
| SendErr (e : SmtpError).

Record RequestBody : Type := mkBody {
  b_to : JsVal;
  b_subject : JsVal;
  b_text : JsVal;
  b_html : JsVal;
  b_from : JsVal
}.

(** One entry of the bulk handler's [results] / [errors] arrays. *)
Record BulkEntry : Type := mkBulkEntry {
  be_index : nat;
  be_recipient : JsVal;
  be_success : bool;
  be_messageId : option string;
  be_error : option string
}.

Inductive Payload : Type :=
| PSent (messageId : string) (msg : string)
| PError (error : string) (details : option string) (code : option Z)
| PFail (msg : string)
| PBulk (totalSent totalErrors : nat) (results errors : list BulkEntry).

Record Response : Type := mkResponse {
  status : Z;
  payload : Payload
}.

(** [if (!to || !subject || (!text && !html))] *)
Definition missing_fields (b : RequestBody) : bool :=
  negb (truthy (b_to b)) || negb (truthy (b_subject b))
  || (negb (truthy (b_text b)) && negb (truthy (b_html b))).

(** [Array.isArray(to) ? to.join(", ") : to] *)
Definition to_field (to : JsVal) : JsVal :=
  match to with
  | JArr l => JStr (js_join l ", ")
  | _ => to
  end.

(** ** [POST /send-bulk-email]

    The handler is the same text in [src/server.js] and in the self-hosted
    server, up to the default sender; [default_from] stands for
    [process.env.GMAIL_USER], or [process.env.SMTP_FROM || process.env.SMTP_USER]. *)

Record BulkBody : Type := mkBulkBody {
  bb_recipients : JsVal;
  bb_subject : JsVal;
  bb_text : JsVal;
  bb_html : JsVal;
  bb_from : JsVal
}.

(** An element of the array [Promise.allSettled] resolves to. *)
Inductive PromiseResult (A : Type) : Type :=
| Fulfilled (value : A)
| Refused (reason_message : string).
Arguments Fulfilled {A} value.
Arguments Refused {A} reason_message.

Definition bulk_mailOptions (default_from : JsVal) (body : BulkBody)
  (recipient : JsVal) : MailOptions :=
  mkMailOptions (js_or (bb_from body) default_from) recipient
                (bb_subject body) (bb_text body) (bb_html body).

(** The [async (recipient, index) => { try .. catch .. }] callback: it
    returns in both branches. [sendMail index] is how the transport answers
    the call made for position [index]. *)
Definition bulk_task (default_from : JsVal)
  (sendMail : nat -> MailOptions -> SendResult) (body : BulkBody)
  (recipient : JsVal) (index : nat) : PromiseResult BulkEntry :=
  match sendMail index (bulk_mailOptions default_from body recipient) with
  | SendOk messageId =>
      Fulfilled (mkBulkEntry index recipient true (Some messageId) None)
  | SendErr error =>
      Fulfilled (mkBulkEntry index recipient false None (Some (message error)))
  end.

(** [l.map((x, index) => f(x, index))], counting from [index]. *)
Fixpoint map_indexed {A B : Type} (f : A -> nat -> B) (l : list A)
  (index : nat) : list B :=
  match l with
  | [] => []
  | x :: tl => f x index :: map_indexed f tl (S index)
  end.

(** [emailResults.forEach((result, index) => ...)], pushing on [results]
    and [errors]. *)
Fixpoint collect (recipients : list JsVal)
  (emailResults : list (PromiseResult BulkEntry)) (index : nat)
  (results errors : list BulkEntry) : list BulkEntry * list BulkEntry :=
  match emailResults with
  | [] => (results, errors)
  | result :: tl =>
      match result with
      | Fulfilled value =>
          if be_success value
          then collect recipients tl (S index) (results ++ [value]) errors
          else collect recipients tl (S index) results (errors ++ [value])
      | Refused reason_message =>
          collect recipients tl (S index) results
            (errors ++ [mkBulkEntry index (nth index recipients JUndefined)
                                    false None (Some reason_message)])
      end
  end.

(** The reply, and the [sendMail] calls made, in the order they were made:
    all of them are made before any is awaited. *)
Definition send_bulk_email (default_from : JsVal)
  (sendMail : nat -> MailOptions -> SendResult) (body : BulkBody)
  : Response * list MailOptions :=
  match bb_recipients body with
  | JArr recipients =>
      if (List.length recipients =? 0)%nat then
        (mkResponse 400
           (PError "Recipients array is required and cannot be empty" None None),
         [])
      else if negb (truthy (bb_subject body))
              || (negb (truthy (bb_text body)) && negb (truthy (bb_html body)))
      then
        (mkResponse 400
           (PError "Missing required fields: subject, and either text or html"
                   None None), [])
      else
        let emailResults :=
          map_indexed (bulk_task default_from sendMail body) recipients 0 in
        let (results, errors) := collect recipients emailResults 0 [] [] in
        (mkResponse 200
           (PBulk (List.length results) (List.length errors) results errors),
         map (bulk_mailOptions default_from body) recipients)
  | _ =>
      (mkResponse 400
         (PError "Recipients array is required and cannot be empty" None None),
       [])
  end.

(** ** [src/server.js]: the Gmail relay without a queue *)

Module DirectServer.

Record Config : Type := mkConfig {
  GMAIL_USER : JsVal
}.

(** [POST /send-email]: the reply and the [sendMail] calls made. *)
Definition post_send_email (cfg : Config) (sendMail : MailOptions -> SendResult)
  (body : RequestBody) : Response * list MailOptions :=
  if missing_fields body then
    (mkResponse 400
       (PError "Missing required fields: to, subject, and either text or html"
               None None), [])
  else
    let mailOptions :=
      mkMailOptions (js_or (b_from body) (GMAIL_USER cfg))
                    (to_field (b_to body)) (b_subject body)
                    (b_text body) (b_html body) in
    match sendMail mailOptions with
    | SendOk messageId =>
        (mkResponse 200 (PSent messageId "Email sent successfully"),
         [mailOptions])
    | SendErr error =>
        (mkResponse 500
           (PError "Failed to send email" (Some (message error)) None),
         [mailOptions])
    end.

Definition post_send_bulk_email (cfg : Config)
  (sendMail : nat -> MailOptions -> SendResult) (body : BulkBody)
  : Response * list MailOptions :=
  send_bulk_email (GMAIL_USER cfg) sendMail body.

End DirectServer.

(** ** The self-hosted server with the promise-returning queue

    [emailQueue], [isProcessingQueue], [lastEmailTime], [processEmailQueue],
    [queueEmail] and the handlers of the self-hosted [server.js]. *)

Module QueueServer.

(** [process.env] as the code reads it: [SMTP_RATE_LIMIT] (milliseconds
    between e-mails), [RETRY_DELAY], and the sender defaults. *)
Record Config : Type := mkConfig {
  SMTP_RATE_LIMIT : Z;
  RETRY_DELAY : Z;
  SMTP_FROM : JsVal;
  SMTP_USER : JsVal
}.

(** [emailJob]: the [resolve]/[reject] pair of the promise made by
    [queueEmail] is the index [handle] of that promise. *)
Record EmailJob : Type := mkJob {
  id : Q;
  mailOptions : MailOptions;
  handle : nat;
  timestamp : Z
}.

(** The argument of [emailJob.resolve] or [emailJob.reject]. *)
Inductive Settlement : Type :=
| Resolved (messageId : string) (msg : string)
| Rejected (error : string) (details : string) (code : option Z).

(** What the drain loop did with the transport, newest first. *)
Inductive TransportEvent : Type :=
| Invoked (job : EmailJob) (time : Z)
| Returned (job : EmailJob) (time : Z) (r : SendResult).

(** A drain loop suspended at one of its three [await]s. *)
Inductive Cont : Type :=
| AwaitRateLimit (emailJob : EmailJob) (due : Z)
| AwaitSendMail (emailJob : EmailJob)
| AwaitRetryDelay (due : Z).

Record State : Type := mkState {
  emailQueue : list EmailJob;
  isProcessingQueue : bool;
  lastEmailTime : Z;
  clock : Z;                            (* Date.now() *)
  loops : list Cont;                    (* running processEmailQueue calls *)
  nextHandle : nat;                     (* promises made so far *)
  settled : list (nat * Settlement);    (* resolve/reject calls, newest first *)
  trace : list TransportEvent
}.

Definition init (now : Z) : State :=
  mkState [] false 0 now [] 0 [] [].

Definition set_emailQueue (q : list EmailJob) (s : State) : State :=
  mkState q (isProcessingQueue s) (lastEmailTime s) (clock s) (loops s)
          (nextHandle s) (settled s) (trace s).

Definition set_isProcessingQueue (b : bool) (s : State) : State :=
  mkState (emailQueue s) b (lastEmailTime s) (clock s) (loops s)
          (nextHandle s) (settled s) (trace s).

Definition set_lastEmailTime (t : Z) (s : State) : State :=
  mkState (emailQueue s) (isProcessingQueue s) t (clock s) (loops s)
          (nextHandle s) (settled s) (trace s).

Definition set_clock (t : Z) (s : State) : State :=
  mkState (emailQueue s) (isProcessingQueue s) (lastEmailTime s) t (loops s)
          (nextHandle s) (settled s) (trace s).

Definition set_loops (l : list Cont) (s : State) : State :=
  mkState (emailQueue s) (isProcessingQueue s) (lastEmailTime s) (clock s) l
          (nextHandle s) (settled s) (trace s).

Definition set_nextHandle (n : nat) (s : State) : State :=
  mkState (emailQueue s) (isProcessingQueue s) (lastEmailTime s) (clock s)
          (loops s) n (settled s) (trace s).

Definition settle (h : nat) (o : Settlement) (s : State) : State :=
  mkState (emailQueue s) (isProcessingQueue s) (lastEmailTime s) (clock s)
          (loops s) (nextHandle s) ((h, o) :: settled s) (trace s).

Definition record (e : TransportEvent) (s : State) : State :=
  mkState (emailQueue s) (isProcessingQueue s) (lastEmailTime s) (clock s)
          (loops s) (nextHandle s) (settled s) (e :: trace s).

(** The loop at position [i] goes on as [k], or is over ([None]). *)
Fixpoint resume (i : nat) (k : option Cont) (l : list Cont) : list Cont :=
  match l, i with
  | [], _ => []
  | _ :: tl, O => match k with Some c => c :: tl | None => tl end
  | c :: tl, S i' => c :: resume i' k tl
  end.

(** [error.responseCode === 421 || error.message.includes("421") ||
    error.message.includes("rate")] *)
Definition is_rate_limit_error (error : SmtpError) : bool :=
  match responseCode error with Some c => c =? 421 | None => false end
  || includes (message error) "421"
  || includes (message error) "rate".

(** [await transporter.sendMail(emailJob.mailOptions)] is called. *)
Definition call_sendMail (emailJob : EmailJob) (s : State) : Cont * State :=
  (AwaitSendMail emailJob, record (Invoked emailJob (clock s)) s).

(** From the test of [while (emailQueue.length > 0)] to the next [await],
    or to the end of [processEmailQueue] when the queue is empty. *)
Definition loop_test (cfg : Config) (s : State) : option Cont * State :=
  match emailQueue s with
  | [] => (None, set_isProcessingQueue false s)
  | emailJob :: rest =>
      let s := set_emailQueue rest s in
      let now := clock s in
      let timeSinceLastEmail := now - lastEmailTime s in
      if timeSinceLastEmail <? SMTP_RATE_LIMIT cfg then
        let waitTime := SMTP_RATE_LIMIT cfg - timeSinceLastEmail in
        (Some (AwaitRateLimit emailJob (now + waitTime)), s)
      else
        let (k, s) := call_sendMail emailJob s in (Some k, s)
  end.

(** A call of [processEmailQueue()], up to its first [await]. *)
Definition processEmailQueue (cfg : Config) (s : State) : State :=
  if isProcessingQueue s || (List.length (emailQueue s) =? 0)%nat then s
  else
    let s := set_isProcessingQueue true s in
    let (k, s) := loop_test cfg s in
    match k with
    | Some c => set_loops (loops s ++ [c]) s
    | None => s
    end.

(** [queueEmail(mailOptions)]: the executor of the new promise; the result
    is the promise. [rnd] is [Math.random()]. *)
Definition queueEmail (cfg : Config) (mailOptions : MailOptions) (rnd : Q)
  (s : State) : nat * State :=
  let emailJob :=
    mkJob (inject_Z (clock s) + rnd)%Q mailOptions (nextHandle s) (clock s) in
  let s := set_nextHandle (S (nextHandle s)) s in
  let s := set_emailQueue (emailQueue s ++ [emailJob]) s in
  (handle emailJob,
   if negb (isProcessingQueue s) then processEmailQueue cfg s else s).

(** The [try] block after [sendMail] returned [info]. *)
Definition on_sent (cfg : Config) (emailJob : EmailJob) (messageId : string)
  (s : State) : option Cont * State :=
  let s := set_lastEmailTime (clock s) s in
  let s := settle (handle emailJob)
             (Resolved messageId "Email sent successfully") s in
  loop_test cfg s.

(** The [catch] block. *)
Definition on_error (cfg : Config) (emailJob : EmailJob) (error : SmtpError)
  (s : State) : option Cont * State :=
  if is_rate_limit_error error then
    let s := set_emailQueue (emailJob :: emailQueue s) s in
    (Some (AwaitRetryDelay (clock s + RETRY_DELAY cfg)), s)
  else
    let s := settle (handle emailJob)
               (Rejected "Failed to send email" (message error)
                         (responseCode error)) s in
    loop_test cfg s.

(** [GET /queue-status] *)
Record QueueStatus : Type := mkQueueStatus {
  queueLength : nat;
  isProcessing : bool;
  qs_lastEmailTime : Z;
  rateLimitMs : Z
}.

Definition queue_status (cfg : Config) (s : State) : QueueStatus :=
  mkQueueStatus (List.length (emailQueue s)) (isProcessingQueue s)
                (lastEmailTime s) (SMTP_RATE_LIMIT cfg).

(** [POST /send-email], up to [await queueEmail(mailOptions)]: the 400 reply,
    or the promise the handler waits for. *)
Definition post_send_email (cfg : Config) (body : RequestBody) (rnd : Q)
  (s : State) : (Response + nat) * State :=
  if missing_fields body then
    (inl (mkResponse 400
            (PError "Missing required fields: to, subject, and either text or html"
                    None None)), s)
  else
    let mailOptions :=
      mkMailOptions (js_or (b_from body) (js_or (SMTP_FROM cfg) (SMTP_USER cfg)))
                    (to_field (b_to body)) (b_subject body)
                    (b_text body) (b_html body) in
    let (h, s) := queueEmail cfg mailOptions rnd s in
    (inr h, s).

(** [POST /send-email] once the promise is settled: [return result], or the
    [catch] with [details: error.message || error.details, code: error.code]. *)
Definition send_email_reply (o : Settlement) : Response :=
  match o with
  | Resolved messageId msg => mkResponse 200 (PSent messageId msg)
  | Rejected _ details code =>
      mkResponse 500 (PError "Failed to queue email" (Some details) code)
  end.

(** What the promise [h] was settled with: the first call of its [resolve]
    or [reject] counts, and [settled] has the newest call first. *)
Fixpoint settlement_of (h : nat) (calls : list (nat * Settlement))
  : option Settlement :=
  match calls with
  | [] => None
  | (h', o) :: older =>
      match settlement_of h older with
      | Some first => Some first
      | None => if Nat.eqb h' h then Some o else None
      end
  end.

(** The reply of the [POST /send-email] handler that awaits promise [h]:
    none while the promise is pending. *)
Definition awaited_reply (h : nat) (s : State) : option Response :=
  option_map send_email_reply (settlement_of h (settled s)).

(** [POST /send-bulk-email]: it calls the transport itself; the queue, the
    flag and [lastEmailTime] are not mentioned in it. *)
Definition post_send_bulk_email (cfg : Config)
  (sendMail : nat -> MailOptions -> SendResult) (body : BulkBody) (s : State)
  : (Response * list MailOptions) * State :=
  (send_bulk_email (js_or (SMTP_FROM cfg) (SMTP_USER cfg)) sendMail body, s).

(** What the environment does to the server. *)
Inductive Event : Type :=
| Tick (dt : N)                                   (* time passes *)
| PostSendEmail (body : RequestBody) (rnd : Q)    (* a request arrives *)
| TimerFires (i : nat)                            (* setTimeout callback of loop i *)
| SendMailReturns (i : nat) (r : SendResult).     (* sendMail of loop i settles *)

Definition continue_with (i : nat) (ks : option Cont * State) : State :=
  let (k, s) := ks in set_loops (resume i k (loops s)) s.

(** One event; [None] when the event cannot happen in [s] (no such loop, a
    timer before it is due, a transport reply nobody waits for).  The timers
    are ideal here: one set with [setTimeout(f, d)] fires [d] ms later or
    after that, never before.  [QueueServerNode.step] has Node's timers. *)
Definition step (cfg : Config) (s : State) (e : Event) : option State :=
  match e with
  | Tick dt => Some (set_clock (clock s + Z.of_N dt) s)
  | PostSendEmail body rnd => Some (snd (post_send_email cfg body rnd s))
  | TimerFires i =>
      match nth_error (loops s) i with
      | Some (AwaitRateLimit emailJob due) =>
          if due <=? clock s then
            let (k, s) := call_sendMail emailJob s in
            Some (continue_with i (Some k, s))
          else None
      | Some (AwaitRetryDelay due) =>
          if due <=? clock s then Some (continue_with i (loop_test cfg s))
          else None
      | _ => None
      end
  | SendMailReturns i r =>
      match nth_error (loops s) i with
      | Some (AwaitSendMail emailJob) =>
          let s := record (Returned emailJob (clock s) r) s in
          match r with
          | SendOk messageId =>
              Some (continue_with i (on_sent cfg emailJob messageId s))
          | SendErr error =>
              Some (continue_with i (on_error cfg emailJob error s))
          end
      | _ => None
      end
  end.

(** A run: events from left to right; an event that cannot happen is skipped. *)
Fixpoint run (cfg : Config) (s : State) (es : list Event) : State :=
  match es with
  | [] => s
  | e :: es' =>
      run cfg (match step cfg s e with Some s' => s' | None => s end) es'
  end.

Inductive reachable (cfg : Config) (now : Z) : State -> Prop :=
| reach_init : reachable cfg now (init now)
| reach_step s e s' :
    reachable cfg now s -> step cfg s e = Some s' -> reachable cfg now s'.

End QueueServer.

(** ** The server written out by the quick-setup script

    [emailQueue], [isProcessing], [lastEmailTime], [RATE_LIMIT] (e-mails per
    minute), [RETRY_DELAY], [processEmailQueue] and the [/send-email]
    handler.  The requests are those the IP allow-list hook let through.
    [60000 / RATE_LIMIT] is a rational number here; against a whole number
    of milliseconds it compares as the JavaScript number does. *)

Module RetryServer.

Record Config : Type := mkConfig {
  RATE_LIMIT : Z;          (* parseInt(process.env.SMTP_RATE_LIMIT) || 100 *)
  RETRY_DELAY : Z;         (* parseInt(process.env.RETRY_DELAY) || 1000 *)
  DOMAIN : string          (* what the script puts for DOMAIN_PLACEHOLDER *)
}.

Record EmailData : Type := mkEmailData {
  id : string;
  to : JsVal;
  subject : JsVal;
  text : JsVal;
  html : JsVal;
  from : JsVal;
  messageId : string;
  retries : Z;
  timestamp : Z
}.

(** [emailData.retries++] *)
Definition incr_retries (d : EmailData) : EmailData :=
  mkEmailData (id d) (to d) (subject d) (text d) (html d) (from d)
              (messageId d) (retries d + 1) (timestamp d).

Inductive TransportEvent : Type :=
| Invoked (emailData : EmailData) (time : Z)
| Returned (emailData : EmailData) (time : Z) (r : SendResult).

Inductive Cont : Type :=
| AwaitRateLimit (emailData : EmailData) (due : Q)
| AwaitSendMail (emailData : EmailData)
| AwaitRetryDelay (due : Z).

Record State : Type := mkState {
  emailQueue : list EmailData;
  isProcessing : bool;
  lastEmailTime : Z;
  clock : Z;
  loops : list Cont;
  trace : list TransportEvent
}.

Definition init (now : Z) : State := mkState [] false 0 now [] [].

Definition set_emailQueue (q : list EmailData) (s : State) : State :=
  mkState q (isProcessing s) (lastEmailTime s) (clock s) (loops s) (trace s).

Definition set_isProcessing (b : bool) (s : State) : State :=
  mkState (emailQueue s) b (lastEmailTime s) (clock s) (loops s) (trace s).

Definition set_lastEmailTime (t : Z) (s : State) : State :=
  mkState (emailQueue s) (isProcessing s) t (clock s) (loops s) (trace s).

Definition set_clock (t : Z) (s : State) : State :=
  mkState (emailQueue s) (isProcessing s) (lastEmailTime s) t (loops s) (trace s).

Definition set_loops (l : list Cont) (s : State) : State :=
  mkState (emailQueue s) (isProcessing s) (lastEmailTime s) (clock s) l (trace s).

Definition record (e : TransportEvent) (s : State) : State :=
  mkState (emailQueue s) (isProcessing s) (lastEmailTime s) (clock s) (loops s)
          (e :: trace s).

Fixpoint resume (i : nat) (k : option Cont) (l : list Cont) : list Cont :=
  match l, i with
  | [], _ => []
  | _ :: tl, O => match k with Some c => c :: tl | None => tl end
  | c :: tl, S i' => c :: resume i' k tl
  end.

(** [const minInterval = 60000 / RATE_LIMIT] *)
Definition minInterval (cfg : Config) : Q := (60000 / inject_Z (RATE_LIMIT cfg))%Q.

Definition Qlt_bool (a b : Q) : bool := negb (Qle_bool b a).

Definition call_sendMail (emailData : EmailData) (s : State) : Cont * State :=
  (AwaitSendMail emailData, record (Invoked emailData (clock s)) s).

(** From the [while] test to the next [await] or the end of the function. *)
Definition loop_test (cfg : Config) (s : State) : option Cont * State :=
  match emailQueue s with
  | [] => (None, set_isProcessing false s)
  | emailData :: rest =>
      let s := set_emailQueue rest s in
      let now := clock s in
      let timeSinceLastEmail := now - lastEmailTime s in
      if Qlt_bool (inject_Z timeSinceLastEmail) (minInterval cfg) then
        (Some (AwaitRateLimit emailData
                 (inject_Z now + (minInterval cfg - inject_Z timeSinceLastEmail))%Q),
         s)
      else
        let (k, s) := call_sendMail emailData s in (Some k, s)
  end.

Definition processEmailQueue (cfg : Config) (s : State) : State :=
  if isProcessing s || (List.length (emailQueue s) =? 0)%nat then s
  else
    let s := set_isProcessing true s in
    let (k, s) := loop_test cfg s in
    match k with
    | Some c => set_loops (loops s ++ [c]) s
    | None => s
    end.

(** After [sendMail] returned: [lastEmailTime = Date.now()], then the
    [await] of [RETRY_DELAY] that ends every iteration. *)
Definition on_sent (cfg : Config) (s : State) : option Cont * State :=
  let s := set_lastEmailTime (clock s) s in
  (Some (AwaitRetryDelay (clock s + RETRY_DELAY cfg)), s).

(** The [catch] block, then the same [await]. *)
Definition on_error (cfg : Config) (emailData : EmailData) (s : State)
  : option Cont * State :=
  let s :=
    if retries emailData <? 3 then
      set_emailQueue (emailQueue s ++ [incr_retries emailData]) s
    else s in
  (Some (AwaitRetryDelay (clock s + RETRY_DELAY cfg)), s).

(** [POST /send-email]: it answers at once, before anything is sent.
    [rnd4] and [rnd9] are the two [Math.random().toString(36).substr(..)]. *)
Definition post_send_email (cfg : Config) (body : RequestBody)
  (rnd4 rnd9 : string) (s : State) : Response * State :=
  if missing_fields body then
    (mkResponse 400
       (PFail "Missing required fields: to, subject, and (text or html)"), s)
  else
    let now := string_of_Z (clock s) in
    let messageId := ("<" ++ now ++ "." ++ rnd9 ++ "@" ++ DOMAIN cfg ++ ">")%string in
    let emailData :=
      mkEmailData (now ++ "." ++ rnd4)%string (b_to body) (b_subject body)
                  (b_text body) (b_html body) (b_from body) messageId 0
                  (clock s) in
    let s := set_emailQueue (emailQueue s ++ [emailData]) s in
    let s := processEmailQueue cfg s in
    (mkResponse 200 (PSent messageId "Email sent successfully"), s).

Inductive Event : Type :=
| Tick (dt : N)
| PostSendEmail (body : RequestBody) (rnd4 rnd9 : string)
| TimerFires (i : nat)
| SendMailReturns (i : nat) (r : SendResult).

Definition continue_with (i : nat) (ks : option Cont * State) : State :=
  let (k, s) := ks in set_loops (resume i k (loops s)) s.

(** One event, with ideal timers as in [QueueServer.step];
    [RetryServerNode.step] has Node's timers. *)
Definition step (cfg : Config) (s : State) (e : Event) : option State :=
  match e with
  | Tick dt => Some (set_clock (clock s + Z.of_N dt) s)
  | PostSendEmail body rnd4 rnd9 =>
      Some (snd (post_send_email cfg body rnd4 rnd9 s))
  | TimerFires i =>
      match nth_error (loops s) i with
      | Some (AwaitRateLimit emailData due) =>
          if Qle_bool due (inject_Z (clock s)) then
            let (k, s) := call_sendMail emailData s in
            Some (continue_with i (Some k, s))
          else None
      | Some (AwaitRetryDelay due) =>
          if due <=? clock s then Some (continue_with i (loop_test cfg s))
          else None
      | _ => None
      end
  | SendMailReturns i r =>
      match nth_error (loops s) i with
      | Some (AwaitSendMail emailData) =>
          let s := record (Returned emailData (clock s) r) s in
          match r with
          | SendOk _ => Some (continue_with i (on_sent cfg s))
          | SendErr _ => Some (continue_with i (on_error cfg emailData s))
          end
      | _ => None
      end
  end.

Fixpoint run (cfg : Config) (s : State) (es : list Event) : State :=
  match es with
  | [] => s
  | e :: es' =>
      run cfg (match step cfg s e with Some s' => s' | None => s end) es'
  end.

Inductive reachable (cfg : Config) (now : Z) : State -> Prop :=
| reach_init : reachable cfg now (init now)
| reach_step s e s' :
    reachable cfg now s -> step cfg s e = Some s' -> reachable cfg now s'.

End RetryServer.

(** ** The drain loops on Node's timers

    [setTimeout(callback, after)] as Node has it: "When delay is larger than
    2147483647 or less than 1 or NaN, the delay will be set to 1.
    Non-integer delays are truncated to an integer", and the callback is
    called "as close as possible to the time specified": Node measures the
    delay on its own clock, which can be behind [Date.now()], so that by
    [Date.now()] a callback can run before the delay is over.  [early] is
    by how many milliseconds at most. *)

Module NodeTimers.

Definition TIMEOUT_MAX : Z := 2147483647.      (* 2 ** 31 - 1 *)

(** The delay a timer gets. *)
Definition node_delay (after : Q) : Z :=
  if Qle_bool 1 after && Qle_bool after (inject_Z TIMEOUT_MAX)
  then Qfloor after
  else 1.

(** A pending [setTimeout(callback, after)], called when [Date.now()] was
    [set_at]. *)
Record Timer : Type := mkTimer {
  set_at : Z;
  after : Q
}.

(** Whether the callback can run when [Date.now()] is [now]. *)
Definition may_run (early : Z) (t : Timer) (now : Z) : bool :=
  set_at t + node_delay (after t) - early <=? now.

End NodeTimers.

(** The self-hosted server, its two [setTimeout] calls kept with their
    arguments: [waitTime] at the rate-limit gate, [RETRY_DELAY] after a
    rate-limit error. *)

Module QueueServerNode.
Import QueueServer NodeTimers.

Record NodeState : Type := mkNodeState {
  server : State;
  timer : option Timer           (* the timer the drain loop awaits *)
}.

Definition init (now : Z) : NodeState :=
  mkNodeState (QueueServer.init now) None.

(** The timer of a loop that has just been suspended: set now, for
    [waitTime = SMTP_RATE_LIMIT - timeSinceLastEmail], or for [RETRY_DELAY]. *)
Definition timer_of (cfg : Config) (s : State) : option Timer :=
  match loops s with
  | [AwaitRateLimit _ _] =>
      Some (mkTimer (clock s)
              (inject_Z (SMTP_RATE_LIMIT cfg - (clock s - lastEmailTime s))))
  | [AwaitRetryDelay _] =>
      Some (mkTimer (clock s) (inject_Z (RETRY_DELAY cfg)))
  | _ => None
  end.

(** One event.  The code run at each event is that of [QueueServer.step];
    a timer callback runs when Node allows it, whatever [Date.now()] is then. *)
Definition step (cfg : Config) (early : Z) (ns : NodeState) (e : Event)
  : option NodeState :=
  let s := server ns in
  match e with
  | Tick _ =>
      option_map (fun s' => mkNodeState s' (timer ns)) (QueueServer.step cfg s e)
  | PostSendEmail _ _ =>
      option_map
        (fun s' => mkNodeState s'
                     (if isProcessingQueue s then timer ns else timer_of cfg s'))
        (QueueServer.step cfg s e)
  | SendMailReturns _ _ =>
      option_map (fun s' => mkNodeState s' (timer_of cfg s'))
                 (QueueServer.step cfg s e)
  | TimerFires i =>
      match timer ns with
      | Some t =>
          if may_run early t (clock s) then
            match nth_error (loops s) i with
            | Some (AwaitRateLimit emailJob _) =>
                let (k, s1) := call_sendMail emailJob s in
                let s' := continue_with i (Some k, s1) in
                Some (mkNodeState s' (timer_of cfg s'))
            | Some (AwaitRetryDelay _) =>
                let s' := continue_with i (loop_test cfg s) in
                Some (mkNodeState s' (timer_of cfg s'))
            | _ => None
            end
          else None
      | None => None
      end
  end.

Fixpoint run (cfg : Config) (early : Z) (ns : NodeState) (es : list Event)
  : NodeState :=
  match es with
  | [] => ns
  | e :: es' =>
      run cfg early
        (match step cfg early ns e with Some ns' => ns' | None => ns end) es'
  end.

Inductive reachable (cfg : Config) (early now : Z) : NodeState -> Prop :=
| reach_init : reachable cfg early now (init now)
| reach_step ns e ns' :
    reachable cfg early now ns -> step cfg early ns e = Some ns' ->
    reachable cfg early now ns'.

End QueueServerNode.

(** The quick-setup server, likewise: [minInterval - timeSinceLastEmail] at
    the gate, [RETRY_DELAY] at the end of every iteration. *)

Module RetryServerNode.
Import RetryServer NodeTimers.

Record NodeState : Type := mkNodeState {
  server : State;
  timer : option Timer
}.

Definition init (now : Z) : NodeState :=
  mkNodeState (RetryServer.init now) None.

Definition timer_of (cfg : Config) (s : State) : option Timer :=
  match loops s with
  | [AwaitRateLimit _ _] =>
      Some (mkTimer (clock s)
              (minInterval cfg - inject_Z (clock s - lastEmailTime s))%Q)
  | [AwaitRetryDelay _] =>
      Some (mkTimer (clock s) (inject_Z (RETRY_DELAY cfg)))
  | _ => None
  end.

Definition step (cfg : Config) (early : Z) (ns : NodeState) (e : Event)
  : option NodeState :=
  let s := server ns in
  match e with
  | Tick _ =>
      option_map (fun s' => mkNodeState s' (timer ns)) (RetryServer.step cfg s e)
  | PostSendEmail _ _ _ =>
      option_map
        (fun s' => mkNodeState s'
                     (if isProcessing s then timer ns else timer_of cfg s'))
        (RetryServer.step cfg s e)
  | SendMailReturns _ _ =>
      option_map (fun s' => mkNodeState s' (timer_of cfg s'))
                 (RetryServer.step cfg s e)
  | TimerFires i =>
      match timer ns with
      | Some t =>
          if may_run early t (clock s) then
            match nth_error (loops s) i with
            | Some (AwaitRateLimit emailData _) =>
                let (k, s1) := call_sendMail emailData s in
                let s' := continue_with i (Some k, s1) in
                Some (mkNodeState s' (timer_of cfg s'))
            | Some (AwaitRetryDelay _) =>
                let s' := continue_with i (loop_test cfg s) in
                Some (mkNodeState s' (timer_of cfg s'))
            | _ => None
            end
          else None
      | None => None
      end
  end.

Fixpoint run (cfg : Config) (early : Z) (ns : NodeState) (es : list Event)
  : NodeState :=
  match es with
  | [] => ns
  | e :: es' =>
      run cfg early
        (match step cfg early ns e with Some ns' => ns' | None => ns end) es'
  end.

Inductive reachable (cfg : Config) (early now : Z) : NodeState -> Prop :=
| reach_init : reachable cfg early now (init now)
| reach_step ns e ns' :
    reachable cfg early now ns -> step cfg early ns e = Some ns' ->
    reachable cfg early now ns'.

End RetryServerNode.

(** ** [POST /send-email-with-attachments]

    The handler is the same text in [src/server.js] and in the self-hosted
    server, up to the default sender.  In both it calls the transport
    itself; the self-hosted server does not put these mails on its queue. *)

Module AttachmentHandler.

Record Attachment : Type := mkAttachment {
  filename : JsVal;
  content : JsVal;
  encoding : JsVal;
  contentType : JsVal
}.

(** [mailOptions], with [mailOptions.attachments] when it was set. *)
Record AttachmentMail : Type := mkAttachmentMail {
  am_mail : MailOptions;
  am_attachments : option (list Attachment)
}.

Fixpoint lookup_field (key : string) (fields : list (string * JsVal)) : JsVal :=
  match fields with
  | [] => JUndefined
  | (k, v) :: tl => if String.eqb k key then v else lookup_field key tl
  end.

(** [attachment.key] for the four keys the handler reads, none of which a
    string, number, boolean or array has: [None] when reading it throws a
    [TypeError], which is when [attachment] is [undefined] or [null]. *)
Definition read_property (attachment : JsVal) (key : string) : option JsVal :=
  match attachment with
  | JUndefined | JNull => None
  | JObj fields => Some (lookup_field key fields)
  | _ => Some JUndefined
  end.

(** [error.message] of that [TypeError], as Node words it. *)
Definition type_error_message (attachment : JsVal) (key : string) : string :=
  ("Cannot read properties of "
   ++ match attachment with JNull => "null" | _ => "undefined" end
   ++ " (reading '" ++ key ++ "')")%string.

(** The callback of [attachments.map]; [filename] is read first. *)
Definition map_attachment (attachment : JsVal) : string + Attachment :=
  match read_property attachment "filename",
        read_property attachment "content",
        read_property attachment "encoding",
        read_property attachment "contentType" with
  | Some f, Some c, Some e, Some t =>
      inr (mkAttachment f c (js_or e (JStr "base64")) t)
  | _, _, _, _ => inl (type_error_message attachment "filename")
  end.

(** [attachments.map(...)]: the first throw ends it. *)
Fixpoint map_attachments (attachments : list JsVal) : string + list Attachment :=
  match attachments with
  | [] => inr []
  | attachment :: tl =>
      match map_attachment attachment with
      | inl thrown => inl thrown
      | inr a =>
          match map_attachments tl with
          | inl thrown => inl thrown
          | inr rest => inr (a :: rest)
          end
      end
  end.

(** The reply and the [sendMail] calls made. [attachments] is
    [request.body.attachments]. *)
Definition send_email_with_attachments (default_from : JsVal)
  (sendMail : AttachmentMail -> SendResult) (body : RequestBody)
  (attachments : JsVal) : Response * list AttachmentMail :=
  if missing_fields body then
    (mkResponse 400
       (PError "Missing required fields: to, subject, and either text or html"
               None None), [])
  else
    let mailOptions :=
      mkMailOptions (js_or (b_from body) default_from) (to_field (b_to body))
                    (b_subject body) (b_text body) (b_html body) in
    let built :=
      match attachments with
      | JArr l =>
          match map_attachments l with
          | inl thrown => inl thrown
          | inr mapped => inr (mkAttachmentMail mailOptions (Some mapped))
          end
      | _ => inr (mkAttachmentMail mailOptions None)
      end in
    match built with
    | inl thrown =>
        (mkResponse 500
           (PError "Failed to send email with attachments" (Some thrown) None),
         [])
    | inr mail =>
        match sendMail mail with
        | SendOk messageId =>
            (mkResponse 200
               (PSent messageId "Email with attachments sent successfully"),
             [mail])
        | SendErr error =>
            (mkResponse 500
               (PError "Failed to send email with attachments"
                       (Some (message error)) None),
             [mail])
        end
    end.

(** [src/server.js] *)
Definition direct_handler (cfg : DirectServer.Config)
  (sendMail : AttachmentMail -> SendResult) (body : RequestBody)
  (attachments : JsVal) : Response * list AttachmentMail :=
  send_email_with_attachments (DirectServer.GMAIL_USER cfg) sendMail body
                              attachments.

(** The self-hosted server: the state is not mentioned in the handler. *)
Definition queue_server_handler (cfg : QueueServer.Config)
  (sendMail : AttachmentMail -> SendResult) (body : RequestBody)
  (attachments : JsVal) (s : QueueServer.State)
  : (Response * list AttachmentMail) * QueueServer.State :=
  (send_email_with_attachments
     (js_or (QueueServer.SMTP_FROM cfg) (QueueServer.SMTP_USER cfg))
     sendMail body attachments, s).

End AttachmentHandler.

(** ** The IP allow-list of the quick-setup server

    [allowedIPs], [isIPAllowed] and the [preHandler] hook that runs before
    every route. *)

Module AccessControl.

(** What the setup script puts for [SERVER_IP_PLACEHOLDER] and
    [CLIENT_IP_PLACEHOLDER]. *)
Record Config : Type := mkConfig {
  SERVER_IP : string;
  CLIENT_IP : string
}.

Definition allowedIPs (cfg : Config) : list string :=
  ["127.0.0.1"; "::1"; SERVER_IP cfg; CLIENT_IP cfg].

(** [ip.replace(/^::ffff:/, '')] *)
Definition strip_mapped (ip : string) : string :=
  if String.prefix "::ffff:" ip
  then String.substring 7 (String.length ip - 7) ip
  else ip.

(** [allowedIPs.includes(cleanIP)] *)
Definition array_includes (l : list string) (x : string) : bool :=
  existsb (String.eqb x) l.

(** [isIPAllowed(ip)]; [None] is [undefined]. *)
Definition isIPAllowed (cfg : Config) (ip : option string) : bool :=
  match ip with
  | None => false
  | Some ip =>
      if String.eqb ip "" then false
      else array_includes (allowedIPs cfg) (strip_mapped ip)
  end.

(** What the hook reads of a request. *)
Record Request : Type := mkRequest {
  req_ip : option string;               (* request.ip *)
  x_forwarded_for : option string;      (* request.headers['x-forwarded-for'] *)
  x_real_ip : option string;            (* request.headers['x-real-ip'] *)
  remoteAddress : option string         (* request.socket.remoteAddress *)
}.

(** [a || b] on strings that may be [undefined]. *)
Definition or_string (a b : option string) : option string :=
  match a with
  | Some s => if String.eqb s "" then b else a
  | None => b
  end.

(** [s.split(',')[0]] *)
Fixpoint first_segment (s : string) : string :=
  match s with
  | EmptyString => EmptyString
  | String c s' =>
      if Ascii.eqb c "," then EmptyString else String c (first_segment s')
  end.

Definition clientIP (request : Request) : option string :=
  or_string
    (or_string
       (or_string (req_ip request)
                  (option_map first_segment (x_forwarded_for request)))
       (x_real_ip request))
    (remoteAddress request).

(** The hook lets the request through to its route, or answers 403 with
    the [ip] it reports. *)
Inductive HookResult : Type :=
| Pass
| Denied (status : Z) (ip : string).

Definition preHandler (cfg : Config) (request : Request) : HookResult :=
  let ip := clientIP request in
  if negb (isIPAllowed cfg ip) then
    Denied 403
      (match ip with
       | Some s => if String.eqb s "" then "unknown" else strip_mapped s
       | None => "unknown"
       end)
  else Pass.

End AccessControl.

(** * Invariants, closed forms of the steps, and example servers

    What the proofs below are stated with: the shape of a step of a server
    with one drain loop, the invariants of the reachable states, and the
    concrete servers and schedules of the examples. *)

Module QueueServerInvariants.
Import QueueServer.

(** The three ways the code between the [while] test and the next [await]
    can go, with the loop list rewritten to the one loop that runs. *)
Inductive Next (cfg : Config) (s : State) : State -> Prop :=
| NextDone :
    emailQueue s = [] ->
    Next cfg s (set_loops [] (set_isProcessingQueue false s))
| NextWait emailJob rest :
    emailQueue s = emailJob :: rest ->
    clock s - lastEmailTime s < SMTP_RATE_LIMIT cfg ->
    Next cfg s
      (set_loops [AwaitRateLimit emailJob (lastEmailTime s + SMTP_RATE_LIMIT cfg)]
                 (set_emailQueue rest s))
| NextSend emailJob rest :
    emailQueue s = emailJob :: rest ->
    SMTP_RATE_LIMIT cfg <= clock s - lastEmailTime s ->
    Next cfg s
      (set_loops [AwaitSendMail emailJob]
                 (record (Invoked emailJob (clock s)) (set_emailQueue rest s))).

(** At most one drain loop, the flag says whether there is one, and an idle
    server has an empty queue. *)
Definition Single (s : State) : Prop :=
  (loops s = [] /\ isProcessingQueue s = false /\ emailQueue s = []) \/
  (exists k, loops s = [k] /\ isProcessingQueue s = true).

Definition new_job (mailOptions : MailOptions) (rnd : Q) (s : State) : EmailJob :=
  mkJob (inject_Z (clock s) + rnd)%Q mailOptions (nextHandle s) (clock s).

Definition mail_of (cfg : Config) (body : RequestBody) : MailOptions :=
  mkMailOptions (js_or (b_from body) (js_or (SMTP_FROM cfg) (SMTP_USER cfg)))
                (to_field (b_to body)) (b_subject body)
                (b_text body) (b_html body).

(** Every step of a server with a single loop, in closed form. *)
Inductive Canon (cfg : Config) (s : State) : Event -> State -> Prop :=
| CTick dt :
    Canon cfg s (Tick dt) (set_clock (clock s + Z.of_N dt) s)
| CPostInvalid body rnd :
    missing_fields body = true ->
    Canon cfg s (PostSendEmail body rnd) s
| CPostBusy body rnd k :
    missing_fields body = false ->
    loops s = [k] -> isProcessingQueue s = true ->
    Canon cfg s (PostSendEmail body rnd)
      (set_emailQueue (emailQueue s ++ [new_job (mail_of cfg body) rnd s])
                      (set_nextHandle (S (nextHandle s)) s))
| CPostIdle body rnd s' :
    missing_fields body = false ->
    loops s = [] -> isProcessingQueue s = false -> emailQueue s = [] ->
    Next cfg (set_isProcessingQueue true
                (set_emailQueue [new_job (mail_of cfg body) rnd s]
                                (set_nextHandle (S (nextHandle s)) s))) s' ->
    Canon cfg s (PostSendEmail body rnd) s'
| CRateTimer emailJob due :
    loops s = [AwaitRateLimit emailJob due] -> isProcessingQueue s = true ->
    due <= clock s ->
    Canon cfg s (TimerFires 0)
      (set_loops [AwaitSendMail emailJob] (record (Invoked emailJob (clock s)) s))
| CRetryTimer due s' :
    loops s = [AwaitRetryDelay due] -> isProcessingQueue s = true ->
    due <= clock s ->
    Next cfg s s' ->
    Canon cfg s (TimerFires 0) s'
| CSent emailJob messageId s' :
    loops s = [AwaitSendMail emailJob] -> isProcessingQueue s = true ->
    Next cfg
      (settle (handle emailJob) (Resolved messageId "Email sent successfully")
         (set_lastEmailTime (clock s)
            (record (Returned emailJob (clock s) (SendOk messageId)) s))) s' ->
    Canon cfg s (SendMailReturns 0 (SendOk messageId)) s'
| CRateLimited emailJob error :
    loops s = [AwaitSendMail emailJob] -> isProcessingQueue s = true ->
    is_rate_limit_error error = true ->
    Canon cfg s (SendMailReturns 0 (SendErr error))
      (set_loops [AwaitRetryDelay (clock s + RETRY_DELAY cfg)]
         (set_emailQueue (emailJob :: emailQueue s)
            (record (Returned emailJob (clock s) (SendErr error)) s)))
| CFailed emailJob error s' :
    loops s = [AwaitSendMail emailJob] -> isProcessingQueue s = true ->
    is_rate_limit_error error = false ->
    Next cfg
      (settle (handle emailJob)
         (Rejected "Failed to send email" (message error) (responseCode error))
         (record (Returned emailJob (clock s) (SendErr error)) s)) s' ->
    Canon cfg s (SendMailReturns 0 (SendErr error)) s'.

(** The job a suspended loop holds (in flight). *)
Definition held (k : Cont) : list EmailJob :=
  match k with
  | AwaitRateLimit emailJob _ | AwaitSendMail emailJob => [emailJob]
  | AwaitRetryDelay _ => []
  end.

(** The handles of the jobs the server still has: in flight or queued. *)
Definition live (s : State) : list nat :=
  map handle (flat_map held (loops s) ++ emailQueue s).

Definition settled_handles (s : State) : list nat := map fst (settled s).

Record Handles (s : State) : Prop := mkHandles {
  live_nodup : NoDup (live s);
  live_fresh : forall h, In h (live s) -> (h < nextHandle s)%nat;
  settled_fresh : forall h, In h (settled_handles s) -> (h < nextHandle s)%nat;
  settled_nodup : NoDup (settled_handles s);
  live_pending : forall h, In h (live s) -> ~ In h (settled_handles s)
}.

Definition time_of (e : TransportEvent) : Z :=
  match e with Invoked _ t | Returned _ t _ => t end.

(** When the newest successful send of a trace returned; [0], the initial
    [lastEmailTime], when there is none. *)
Fixpoint last_success_time (tr : list TransportEvent) : Z :=
  match tr with
  | [] => 0
  | Returned _ t (SendOk _) :: _ => t
  | _ :: older => last_success_time older
  end.

Fixpoint ordered (tr : list TransportEvent) : Prop :=
  match tr with
  | [] => True
  | e :: older =>
      (forall e', In e' older -> time_of e' <= time_of e) /\ ordered older
  end.

(** Every call of the transport comes at least [rate] ms after the newest
    successful send before it. *)
Fixpoint spaced (rate : Z) (tr : list TransportEvent) : Prop :=
  match tr with
  | [] => True
  | Invoked _ t :: older => last_success_time older + rate <= t /\ spaced rate older
  | _ :: older => spaced rate older
  end.

Record Timing0 (cfg : Config) (s : State) : Prop := mkTiming0 {
  trace_past : forall e, In e (trace s) -> time_of e <= clock s;
  trace_ordered : ordered (trace s);
  last_is_success : lastEmailTime s = last_success_time (trace s);
  trace_spaced : spaced (SMTP_RATE_LIMIT cfg) (trace s)
}.

Definition Timing (cfg : Config) (s : State) : Prop :=
  Timing0 cfg s /\
  forall emailJob due, In (AwaitRateLimit emailJob due) (loops s) ->
                       lastEmailTime s + SMTP_RATE_LIMIT cfg <= due.

(** A concrete server for the examples: one second between e-mails. *)
Definition cfg1 : Config := mkConfig 1000 30000 (JStr "noreply@example.org") JUndefined.
Definition body1 : RequestBody :=
  mkBody (JStr "ann@example.org") (JStr "hello") (JStr "text") JUndefined JUndefined.
Definition mailbox_unavailable : SmtpError := mkSmtpError (Some 550) "mailbox unavailable".
Definition too_many : SmtpError := mkSmtpError (Some 421) "try again later".

(** One round: the send fails with [error], [RETRY_DELAY] passes, the
    retry timer fires. *)
Definition retry_round (cfg : Config) (error : SmtpError) : list Event :=
  [SendMailReturns 0 (SendErr error); Tick (Z.to_N (RETRY_DELAY cfg)); TimerFires 0].

Fixpoint retry_rounds (cfg : Config) (error : SmtpError) (n : nat) : list Event :=
  match n with
  | O => []
  | S n' => retry_round cfg error ++ retry_rounds cfg error n'
  end.

(** How many times the transport was called for the job with handle [h]. *)
Fixpoint invocations_of (h : nat) (tr : list TransportEvent) : nat :=
  match tr with
  | [] => 0
  | Invoked emailJob _ :: older =>
      (if Nat.eqb (handle emailJob) h then 1 else 0) + invocations_of h older
  | Returned _ _ _ :: older => invocations_of h older
  end.

(** The loop is sending [emailJob] for the [n]th time, nothing else is queued
    and nothing is settled. *)
Record Retrying (cfg : Config) (emailJob : EmailJob) (n : nat) (s : State) : Prop :=
  mkRetrying {
  rt_loops : loops s = [AwaitSendMail emailJob];
  rt_queue : emailQueue s = [];
  rt_flag : isProcessingQueue s = true;
  rt_gate : lastEmailTime s + SMTP_RATE_LIMIT cfg <= clock s;
  rt_settled : settled s = [];
  rt_count : invocations_of (handle emailJob) (trace s) = n
}.

End QueueServerInvariants.

Module RetryServerInvariants.
Import RetryServer.
Local Open Scope Z_scope.

(** The code from the [while] test to the next [await], for the one loop. *)
Inductive Next (cfg : Config) (s : State) : State -> Prop :=
| NextDone :
    emailQueue s = [] ->
    Next cfg s (set_loops [] (set_isProcessing false s))
| NextWait emailData rest :
    emailQueue s = emailData :: rest ->
    (inject_Z (clock s - lastEmailTime s) < minInterval cfg)%Q ->
    Next cfg s
      (set_loops
         [AwaitRateLimit emailData
            (inject_Z (clock s)
             + (minInterval cfg - inject_Z (clock s - lastEmailTime s)))%Q]
         (set_emailQueue rest s))
| NextSend emailData rest :
    emailQueue s = emailData :: rest ->
    (minInterval cfg <= inject_Z (clock s - lastEmailTime s))%Q ->
    Next cfg s
      (set_loops [AwaitSendMail emailData]
         (record (Invoked emailData (clock s)) (set_emailQueue rest s))).

Definition RSingle (s : State) : Prop :=
  (loops s = [] /\ isProcessing s = false /\ emailQueue s = []) \/
  (exists k, loops s = [k] /\ isProcessing s = true).

(** The job [POST /send-email] queues. *)
Definition new_emailData (cfg : Config) (body : RequestBody)
  (rnd4 rnd9 : string) (s : State) : EmailData :=
  mkEmailData (string_of_Z (clock s) ++ "." ++ rnd4)%string
    (b_to body) (b_subject body) (b_text body) (b_html body) (b_from body)
    ("<" ++ string_of_Z (clock s) ++ "." ++ rnd9 ++ "@" ++ DOMAIN cfg ++ ">")%string
    0 (clock s).

Inductive RCanon (cfg : Config) (s : State) : Event -> State -> Prop :=
| RTick dt :
    RCanon cfg s (Tick dt) (set_clock (clock s + Z.of_N dt) s)
| RPostInvalid body rnd4 rnd9 :
    missing_fields body = true ->
    RCanon cfg s (PostSendEmail body rnd4 rnd9) s
| RPostBusy body rnd4 rnd9 k :
    missing_fields body = false ->
    loops s = [k] -> isProcessing s = true ->
    RCanon cfg s (PostSendEmail body rnd4 rnd9)
      (set_emailQueue (emailQueue s ++ [new_emailData cfg body rnd4 rnd9 s]) s)
| RPostIdle body rnd4 rnd9 s' :
    missing_fields body = false ->
    loops s = [] -> isProcessing s = false -> emailQueue s = [] ->
    Next cfg (set_isProcessing true
                (set_emailQueue [new_emailData cfg body rnd4 rnd9 s] s)) s' ->
    RCanon cfg s (PostSendEmail body rnd4 rnd9) s'
| RRateTimer emailData due :
    loops s = [AwaitRateLimit emailData due] -> isProcessing s = true ->
    (due <= inject_Z (clock s))%Q ->
    RCanon cfg s (TimerFires 0)
      (set_loops [AwaitSendMail emailData]
         (record (Invoked emailData (clock s)) s))
| RRetryTimer due s' :
    loops s = [AwaitRetryDelay due] -> isProcessing s = true ->
    due <= clock s ->
    Next cfg s s' ->
    RCanon cfg s (TimerFires 0) s'
| RSent emailData messageId :
    loops s = [AwaitSendMail emailData] -> isProcessing s = true ->
    RCanon cfg s (SendMailReturns 0 (SendOk messageId))
      (set_loops [AwaitRetryDelay (clock s + RETRY_DELAY cfg)]
         (set_lastEmailTime (clock s)
            (record (Returned emailData (clock s) (SendOk messageId)) s)))
| RFailedRetry emailData error :
    loops s = [AwaitSendMail emailData] -> isProcessing s = true ->
    retries emailData < 3 ->
    RCanon cfg s (SendMailReturns 0 (SendErr error))
      (set_loops [AwaitRetryDelay (clock s + RETRY_DELAY cfg)]
         (set_emailQueue (emailQueue s ++ [incr_retries emailData])
            (record (Returned emailData (clock s) (SendErr error)) s)))
| RFailedDrop emailData error :
    loops s = [AwaitSendMail emailData] -> isProcessing s = true ->
    3 <= retries emailData ->
    RCanon cfg s (SendMailReturns 0 (SendErr error))
      (set_loops [AwaitRetryDelay (clock s + RETRY_DELAY cfg)]
         (record (Returned emailData (clock s) (SendErr error)) s)).

Definition time_of (e : TransportEvent) : Z :=
  match e with Invoked _ t | Returned _ t _ => t end.

Fixpoint last_success_time (tr : list TransportEvent) : Z :=
  match tr with
  | [] => 0
  | Returned _ t (SendOk _) :: _ => t
  | _ :: older => last_success_time older
  end.

Fixpoint ordered (tr : list TransportEvent) : Prop :=
  match tr with
  | [] => True
  | e :: older =>
      (forall e', In e' older -> time_of e' <= time_of e) /\ ordered older
  end.

(** Every call of the transport comes at least [gap] ms after the newest
    successful send before it. *)
Fixpoint spaced (gap : Q) (tr : list TransportEvent) : Prop :=
  match tr with
  | [] => True
  | Invoked _ t :: older =>
      (inject_Z (last_success_time older) + gap <= inject_Z t)%Q
      /\ spaced gap older
  | _ :: older => spaced gap older
  end.

Definition rheld (k : Cont) : list EmailData :=
  match k with
  | AwaitRateLimit emailData _ | AwaitSendMail emailData => [emailData]
  | AwaitRetryDelay _ => []
  end.

(** The jobs the server still has. *)
Definition jobs (s : State) : list EmailData :=
  flat_map rheld (loops s) ++ emailQueue s.

Definition Bounded (s : State) : Prop :=
  forall emailData, In emailData (jobs s) -> 0 <= retries emailData <= 3.

(** A concrete server for the examples: ten e-mails a minute, one second
    after every attempt. *)
Definition rcfg1 : Config := mkConfig 10 1000 "example.org".
Definition rbody1 : RequestBody :=
  mkBody (JStr "ann@example.org") (JStr "hello") (JStr "text") JUndefined JUndefined.
Definition rejected_550 : SmtpError := mkSmtpError (Some 550) "mailbox unavailable".

End RetryServerInvariants.

(** Order of the promises and shape of the transport trace of the
    promise-returning queue. *)

Module QueueServerTrace.
Import QueueServer QueueServerInvariants.

(** Every promise made so far, oldest first: the settled ones in the order
    they were settled, then the ones still held. *)
Definition ledger (s : State) : list nat :=
  rev (settled_handles s) ++ live s.

(** A trace of finished sends, newest first: each return sits on the call
    it answers, for the same job, no earlier than the call. *)
Inductive Completed : list TransportEvent -> Prop :=
| Completed_nil : Completed []
| Completed_pair emailJob called returned r older :
    called <= returned ->
    Completed older ->
    Completed (Returned emailJob returned r :: Invoked emailJob called :: older).

(** One call is outstanding exactly when the loop awaits [sendMail]. *)
Definition Serialized (s : State) : Prop :=
  match loops s with
  | [AwaitSendMail emailJob] =>
      exists called older,
        trace s = Invoked emailJob called :: older
        /\ called <= clock s /\ Completed older
  | _ => Completed (trace s)
  end.



(** A schedule in which no request arrives and the transport never fails. *)
Definition quiet (es : list Event) : bool :=
  forallb (fun e => match e with
                    | Tick _ | TimerFires _ | SendMailReturns _ (SendOk _) => true
                    | PostSendEmail _ _ | SendMailReturns _ (SendErr _) => false
                    end) es.

(** How far the loop is from the end: two steps per queued job, and what
    is left of the current iteration. *)
Definition work (s : State) : nat :=
  2 * List.length (emailQueue s)
  + match loops s with
    | [] => 0
    | AwaitRateLimit _ _ :: _ => 2
    | _ :: _ => 1
    end.

End QueueServerTrace.

(** Counting the attempts of the quick-setup server. *)

Module RetryServerBudget.
Import RetryServer RetryServerInvariants.
Local Open Scope Z_scope.

(** The sends a job can still get: the next one, and one per retry left. *)
Definition attempts_left (emailData : EmailData) : Z := 4 - retries emailData.

Definition budget_of (l : list EmailData) : Z :=
  fold_right (fun emailData acc => acc + attempts_left emailData) 0 l.

Definition budget (s : State) : Z := budget_of (jobs s).

(** Calls of the transport, and answers to them, in a trace. *)
Fixpoint calls (tr : list TransportEvent) : Z :=
  match tr with
  | [] => 0
  | Invoked _ _ :: older => calls older + 1
  | Returned _ _ _ :: older => calls older
  end.

Fixpoint answers (tr : list TransportEvent) : Z :=
  match tr with
  | [] => 0
  | Invoked _ _ :: older => answers older
  | Returned _ _ _ :: older => answers older + 1
  end.

(** The successful answers in a trace, with their times, newest first. *)
Fixpoint deliveries_of (tr : list TransportEvent) : list (EmailData * Z) :=
  match tr with
  | [] => []
  | Returned emailData t (SendOk _) :: older => (emailData, t) :: deliveries_of older
  | _ :: older => deliveries_of older
  end.

(** 1 while the loop awaits [sendMail]. *)
Definition outstanding (s : State) : Z :=
  match loops s with
  | [AwaitSendMail _] => 1
  | _ => 0
  end.

(** The requests of a schedule that pass the validation and are queued. *)
Fixpoint accepted (es : list Event) : Z :=
  match es with
  | [] => 0
  | PostSendEmail body _ _ :: es' =>
      accepted es' + (if missing_fields body then 0 else 1)
  | _ :: es' => accepted es'
  end.

Record Accounted (spent : Z) (s : State) : Prop := mkAccounted {
  acc_calls : calls (trace s) = answers (trace s) + outstanding s;
  acc_budget : answers (trace s) + budget s <= spent
}.

(** How far the loop is from its end: three steps per send a held or
    queued job can still get, and what is left of the current iteration. *)
Definition remaining (s : State) : Z :=
  3 * budget s
  + match loops s with
    | [] => 0
    | AwaitSendMail _ :: _ => 1
    | AwaitRateLimit _ _ :: _ => 2
    | AwaitRetryDelay _ :: _ => 3
    end.

(** One failed attempt: the send fails with [error], [RETRY_DELAY] passes,
    the timer that ends the iteration fires. *)
Definition failed_attempt (cfg : Config) (error : SmtpError) : list Event :=
  [SendMailReturns 0 (SendErr error); Tick (Z.to_N (RETRY_DELAY cfg)); TimerFires 0].

(** The loop is sending [emailData], the only job, nothing has been
    delivered, and the rate-limit gate is open. *)
Record Attempting (cfg : Config) (emailData : EmailData) (n : Z) (s : State)
  : Prop := mkAttempting {
  at_loops : loops s = [AwaitSendMail emailData];
  at_queue : emailQueue s = [];
  at_flag : isProcessing s = true;
  at_last : lastEmailTime s = 0;
  at_gate : (minInterval cfg <= inject_Z (clock s))%Q;
  at_none : deliveries_of (trace s) = [];
  at_calls : calls (trace s) = n
}.

End RetryServerBudget.

(** Attachments as the handler passes them on, and examples. *)

Module AttachmentShapes.
Import AttachmentHandler.

(** What the handler makes of one attachment object. *)
Definition mapped (attachment : JsVal) : Attachment :=
  match attachment with
  | JObj fields =>
      mkAttachment (lookup_field "filename" fields) (lookup_field "content" fields)
                   (js_or (lookup_field "encoding" fields) (JStr "base64"))
                   (lookup_field "contentType" fields)
  | _ => mkAttachment JUndefined JUndefined (JStr "base64") JUndefined
  end.

Definition nullish (v : JsVal) : bool :=
  match v with JUndefined | JNull => true | _ => false end.

Definition invoice : JsVal :=
  JObj [("filename", JStr "invoice.pdf"); ("content", JStr "JVBERi0=");
        ("contentType", JStr "application/pdf")].

Definition valid_body : RequestBody :=
  mkBody (JStr "ann@example.org") (JStr "hello") (JStr "text") JUndefined JUndefined.

End AttachmentShapes.

(** The invariants of the loops on Node's timers. *)

Module QueueServerNodeInvariants.
Import QueueServer QueueServerInvariants QueueServerTrace NodeTimers QueueServerNode.




(** Two requests; the first send succeeds after 10 ms, and the timer of
    the second, set for the 1000 ms that are missing, runs 1 ms early. *)
Definition node_state_second_send : NodeState :=
  run cfg1 1 (init 5000)
    [PostSendEmail body1 0; PostSendEmail body1 0; Tick 10;
     SendMailReturns 0 (SendOk "<m0@example.org>"); Tick 999; TimerFires 0].

End QueueServerNodeInvariants.

Module RetryServerNodeInvariants.
Import RetryServer RetryServerInvariants NodeTimers RetryServerNode.
Local Open Scope Z_scope.







End RetryServerNodeInvariants.

(** Counting the attempts of the quick-setup server job by job: a job is
    known by its [id], which a retry keeps. *)

Module RetryServerPerJob.
Import RetryServer RetryServerInvariants RetryServerBudget.
Local Open Scope Z_scope.

Definition has_id (x : string) (emailData : EmailData) : bool :=
  String.eqb (id emailData) x.

(** The sends the held and queued jobs with id [x] can still get. *)
Definition budget_for (x : string) (s : State) : Z :=
  budget_of (filter (has_id x) (jobs s)).

Fixpoint calls_for (x : string) (tr : list TransportEvent) : Z :=
  match tr with
  | [] => 0
  | Invoked emailData _ :: older =>
      calls_for x older + (if has_id x emailData then 1 else 0)
  | Returned _ _ _ :: older => calls_for x older
  end.

Fixpoint answers_for (x : string) (tr : list TransportEvent) : Z :=
  match tr with
  | [] => 0
  | Invoked _ _ :: older => answers_for x older
  | Returned emailData _ _ :: older =>
      answers_for x older + (if has_id x emailData then 1 else 0)
  end.

Definition outstanding_for (x : string) (s : State) : Z :=
  match loops s with
  | [AwaitSendMail emailData] => if has_id x emailData then 1 else 0
  | _ => 0
  end.

(** 1 when the event is a request that is accepted and whose job gets
    the id [x]. *)
Definition accepted_as (cfg : Config) (x : string) (s : State) (e : Event) : Z :=
  match e with
  | PostSendEmail body rnd4 rnd9 =>
      if missing_fields body then 0
      else if has_id x (new_emailData cfg body rnd4 rnd9 s) then 1 else 0
  | _ => 0
  end.

(** How many requests of a schedule are accepted with the id [x]. *)
Fixpoint accepted_for (cfg : Config) (x : string) (s : State) (es : list Event)
  : Z :=
  match es with
  | [] => 0
  | e :: es' =>
      accepted_for cfg x (match step cfg s e with Some s' => s' | None => s end) es'
      + accepted_as cfg x s e
  end.

Record AccountedFor (x : string) (spent : Z) (s : State) : Prop := mkAccountedFor {
  accf_calls : calls_for x (trace s) = answers_for x (trace s) + outstanding_for x s;
  accf_budget : answers_for x (trace s) + budget_for x s <= spent
}.

End RetryServerPerJob.

(** The quick-setup server with a job that has failed twice already, and the
    promise-returning queue with a fresh job: both are sending. *)
Definition retry_state_two_failures : RetryServer.State :=
  RetryServer.run RetryServerInvariants.rcfg1 (RetryServer.init 100000)
    [RetryServer.PostSendEmail RetryServerInvariants.rbody1 "ab12" "abcdefghi";
     RetryServer.SendMailReturns 0 (SendErr RetryServerInvariants.rejected_550);
     RetryServer.Tick 1000; RetryServer.TimerFires 0;
     RetryServer.SendMailReturns 0 (SendErr RetryServerInvariants.rejected_550);
     RetryServer.Tick 1000; RetryServer.TimerFires 0].

Definition queue_state_first_send : QueueServer.State :=
  QueueServer.run QueueServerInvariants.cfg1 (QueueServer.init 5000)
    [QueueServer.PostSendEmail QueueServerInvariants.body1 0].

Definition bad_request_send_email : Response :=
  mkResponse 400
    (PError "Missing required fields: to, subject, and either text or html"
            None None).

(** The entry [forEach] pushes for a settled promise at position [index]. *)
Definition entry_of (recipients : list JsVal) (result : PromiseResult BulkEntry)
  (index : nat) : BulkEntry :=
  match result with
  | Fulfilled value => value
  | Refused reason_message =>
      mkBulkEntry index (nth index recipients JUndefined) false None
                  (Some reason_message)
  end.

(** The entries the handler builds, in the order of [recipients]. *)
Definition bulk_entries (default_from : JsVal)
  (sendMail : nat -> MailOptions -> SendResult) (body : BulkBody)
  (recipients : list JsVal) : list BulkEntry :=
  map_indexed
    (fun recipient index =>
       entry_of recipients
         (bulk_task default_from sendMail body recipient index) index)
    recipients 0.

Definition bulk_body1 : BulkBody :=
  mkBulkBody (JArr [JStr "ann@example.org"; JStr "bob@example.org";
                    JStr "cy@example.org"])
             (JStr "hello") (JStr "text") JUndefined JUndefined.

(** The transport refuses the second recipient. *)
Definition sendMail1 (index : nat) (_ : MailOptions) : SendResult :=
  if Nat.eqb index 1 then SendErr QueueServerInvariants.mailbox_unavailable
  else SendOk "<ok@example.org>".

(** * Properties of the promise-returning queue *)

Module QueueServerFacts.
Import QueueServer QueueServerInvariants.

Lemma loop_test_Next cfg s k0 :
  loops s = [k0] -> Next cfg s (continue_with 0 (loop_test cfg s)).
Proof.
  intros Hl. unfold loop_test.
  destruct (emailQueue s) as [|j rest] eqn:Hq.
  - simpl. rewrite Hl. simpl. now apply NextDone.
  - simpl. destruct (Z.ltb_spec (clock s - lastEmailTime s) (SMTP_RATE_LIMIT cfg)).
    + simpl. rewrite Hl. simpl.
      replace (clock s + (SMTP_RATE_LIMIT cfg - (clock s - lastEmailTime s)))
        with (lastEmailTime s + SMTP_RATE_LIMIT cfg) by ring.
      now apply NextWait.
    + simpl. rewrite Hl. simpl. now apply NextSend.
Qed.

Lemma processEmailQueue_Next cfg s :
  loops s = [] -> isProcessingQueue s = false -> emailQueue s <> [] ->
  Next cfg (set_isProcessingQueue true s) (processEmailQueue cfg s).
Proof.
  intros Hl Hf Hq. unfold processEmailQueue, loop_test. rewrite Hf.
  destruct (emailQueue s) as [|j rest] eqn:Hq'; [congruence|]. simpl.
  rewrite Hq'.
  destruct (Z.ltb_spec (clock s - lastEmailTime s) (SMTP_RATE_LIMIT cfg)).
  - simpl. rewrite Hl. simpl.
    replace (clock s + (SMTP_RATE_LIMIT cfg - (clock s - lastEmailTime s)))
      with (lastEmailTime s + SMTP_RATE_LIMIT cfg) by ring.
    now apply (NextWait cfg (set_isProcessingQueue true s) j rest).
  - simpl. rewrite Hl. simpl.
    now apply (NextSend cfg (set_isProcessingQueue true s) j rest).
Qed.

Lemma nth_error_single {A} (k : A) i x :
  nth_error [k] i = Some x -> i = 0%nat /\ x = k.
Proof.
  destruct i as [|[|i]]; simpl; intros H; try discriminate.
  inversion H; auto.
Qed.

Lemma step_Canon cfg s e s' :
  Single s -> step cfg s e = Some s' -> Canon cfg s e s'.
Proof.
  intros HS Hstep. destruct e as [dt | body rnd | i | i r]; simpl in Hstep.
  - inversion Hstep; subst. constructor.
  - inversion Hstep; subst; clear Hstep. unfold post_send_email.
    destruct (missing_fields body) eqn:Hm; simpl; [now constructor|].
    fold (mail_of cfg body). fold (new_job (mail_of cfg body) rnd s).
    destruct HS as [(Hl&Hf&Hq)|(k&Hl&Hf)]; rewrite Hf; simpl.
    + apply CPostIdle; auto. rewrite Hq. simpl.
      eapply (processEmailQueue_Next cfg
               (set_emailQueue [new_job (mail_of cfg body) rnd s]
                               (set_nextHandle (S (nextHandle s)) s)));
        simpl; auto; discriminate.
    + eapply CPostBusy; eauto.
  - destruct HS as [(Hl&Hf&Hq)|(k&Hl&Hf)]; rewrite Hl in Hstep.
    + destruct i; discriminate.
    + destruct (nth_error [k] i) as [k'|] eqn:Hn; [|discriminate].
      apply nth_error_single in Hn as [-> ->].
      destruct k as [j due | j | due]; try discriminate;
        destruct (Z.leb_spec due (clock s)); try discriminate;
        inversion Hstep; subst; clear Hstep.
      * unfold call_sendMail, continue_with; simpl. rewrite ?Hl; simpl.
        eapply CRateTimer; eauto.
      * eapply CRetryTimer; eauto. eapply loop_test_Next; eauto.
  - destruct HS as [(Hl&Hf&Hq)|(k&Hl&Hf)]; rewrite Hl in Hstep.
    + destruct i; discriminate.
    + destruct (nth_error [k] i) as [k'|] eqn:Hn; [|discriminate].
      apply nth_error_single in Hn as [-> ->].
      destruct k as [j due | j | due]; try discriminate.
      destruct r as [mid | err]; inversion Hstep; subst; clear Hstep.
      * eapply CSent; eauto. unfold on_sent. eapply loop_test_Next. simpl; eauto.
      * unfold on_error. destruct (is_rate_limit_error err) eqn:Hr.
        -- unfold continue_with; simpl. rewrite ?Hl; simpl. eapply CRateLimited; eauto.
        -- eapply CFailed; eauto. eapply loop_test_Next. simpl; eauto.
Qed.

Lemma Next_Single cfg s s' :
  isProcessingQueue s = true -> Next cfg s s' -> Single s'.
Proof.
  intros Hf HN. destruct HN; simpl.
  - left; auto.
  - right; eexists; split; [reflexivity|auto].
  - right; eexists; split; [reflexivity|auto].
Qed.

Lemma Canon_Single cfg s e s' : Single s -> Canon cfg s e s' -> Single s'.
Proof.
  intros HS HC. destruct HC; simpl; auto;
    try (eapply Next_Single; [|eassumption]; simpl; auto; fail);
    try (right; eexists; split; simpl; eauto; fail).
Qed.

Lemma init_Single now : Single (init now).
Proof. left; simpl; auto. Qed.

Lemma reachable_Single cfg now s : reachable cfg now s -> Single s.
Proof.
  induction 1; [apply init_Single|].
  eapply Canon_Single; [eassumption|]. eapply step_Canon; eauto.
Qed.

(** *** Promise handles *)

Lemma Handles_same s s' :
  live s' = live s -> settled s' = settled s -> nextHandle s' = nextHandle s ->
  Handles s -> Handles s'.
Proof.
  intros Hl Hs Hn [H1 H2 H3 H4 H5].
  constructor; unfold settled_handles in *; rewrite ?Hl, ?Hs, ?Hn; auto.
Qed.

Lemma Next_live cfg s s' :
  Next cfg s s' ->
  live s' = map handle (emailQueue s) /\ settled s' = settled s
  /\ nextHandle s' = nextHandle s.
Proof.
  intros HN; destruct HN as [Hq | j rest Hq _ | j rest Hq _];
    unfold live; simpl; rewrite Hq; auto.
Qed.

(** A job leaves the server when its handle is settled. *)
Lemma Handles_settle s s' h o q :
  Handles s ->
  live s = h :: map handle q ->
  live s' = map handle q ->
  settled s' = (h, o) :: settled s ->
  nextHandle s' = nextHandle s ->
  Handles s'.
Proof.
  intros [H1 H2 H3 H4 H5] Hl Hl' Hs Hn.
  rewrite Hl in *. inversion H1; subst.
  constructor; unfold settled_handles in *; rewrite ?Hl', ?Hs, ?Hn; simpl.
  - assumption.
  - intros h' Hin. apply H2. now right.
  - intros h' [<-|Hin]; [apply H2; now left | now apply H3].
  - constructor; [apply H5; now left | assumption].
  - intros h' Hin [<-|Hin']; [contradiction|].
    apply (H5 h'); [now right | assumption].
Qed.

(** A new job takes the next handle. *)
Lemma Handles_push s s' :
  Handles s ->
  live s' = live s ++ [nextHandle s] ->
  settled s' = settled s ->
  nextHandle s' = S (nextHandle s) ->
  Handles s'.
Proof.
  intros [H1 H2 H3 H4 H5] Hl Hs Hn.
  constructor; unfold settled_handles in *; rewrite ?Hl, ?Hs, ?Hn.
  - apply NoDup_app; [assumption | repeat constructor; intros [] | ].
    intros h Hin [<-|[]]. apply H2 in Hin. lia.
  - intros h Hin. apply in_app_or in Hin as [Hin|[<-|[]]]; [apply H2 in Hin|]; lia.
  - intros h Hin. apply H3 in Hin. lia.
  - assumption.
  - intros h Hin Hin'. apply in_app_or in Hin as [Hin|[<-|[]]].
    + now apply (H5 h).
    + apply H3 in Hin'. lia.
Qed.

Lemma Canon_Handles cfg s e s' :
  Single s -> Handles s -> Canon cfg s e s' -> Handles s'.
Proof.
  intros HS HH HC.
  destruct HC as [dt | body rnd Hm | body rnd k Hm Hl Hf
                 | body rnd s' Hm Hl Hf Hq HN | j due Hl Hf Hdue
                 | due s' Hl Hf Hdue HN | j mid s' Hl Hf HN
                 | j err Hl Hf Hr | j err s' Hl Hf Hr HN].
  - now apply (Handles_same s).
  - assumption.
  - apply (Handles_push s); auto. unfold live; simpl.
    rewrite app_assoc, map_app. reflexivity.
  - apply Next_live in HN as (Hl' & Hs' & Hn'); simpl in *.
    apply (Handles_push s); auto.
    unfold live at 2. rewrite Hl, Hq. simpl. assumption.
  - apply (Handles_same s); auto. unfold live; simpl. now rewrite Hl.
  - apply Next_live in HN as (Hl' & Hs' & Hn').
    apply (Handles_same s); auto. rewrite Hl'. unfold live. now rewrite Hl.
  - apply Next_live in HN as (Hl' & Hs' & Hn'); simpl in *.
    eapply (Handles_settle s); eauto. unfold live. now rewrite Hl.
  - apply (Handles_same s); auto. unfold live; simpl. now rewrite Hl.
  - apply Next_live in HN as (Hl' & Hs' & Hn'); simpl in *.
    eapply (Handles_settle s); eauto. unfold live. now rewrite Hl.
Qed.

Lemma init_Handles now : Handles (init now).
Proof.
  constructor; unfold live, settled_handles; simpl; try constructor;
    intros h [].
Qed.

Lemma reachable_Handles cfg now s : reachable cfg now s -> Handles s.
Proof.
  induction 1 as [|s e s' Hr IH Hstep]; [apply init_Handles|].
  pose proof (reachable_Single _ _ _ Hr) as HS.
  eapply Canon_Handles; eauto using step_Canon.
Qed.

(** *** Send times *)

Lemma Timing0_same cfg s s' :
  trace s' = trace s -> lastEmailTime s' = lastEmailTime s ->
  clock s <= clock s' -> Timing0 cfg s -> Timing0 cfg s'.
Proof.
  intros Ht Hl Hc [H1 H2 H3 H4]. constructor; rewrite ?Ht, ?Hl; auto.
  intros e Hin. apply H1 in Hin. lia.
Qed.

(** The transport is called now, the gate being open. *)
Lemma Timing0_invoke cfg s s' emailJob :
  trace s' = Invoked emailJob (clock s) :: trace s ->
  lastEmailTime s' = lastEmailTime s -> clock s' = clock s ->
  lastEmailTime s + SMTP_RATE_LIMIT cfg <= clock s ->
  Timing0 cfg s -> Timing0 cfg s'.
Proof.
  intros Ht Hl Hc Hgate [H1 H2 H3 H4].
  constructor; rewrite ?Ht, ?Hl, ?Hc; simpl; auto.
  - intros e [<-|Hin]; simpl; [lia | auto].
  - split; [|assumption]. rewrite <- H3. assumption.
Qed.

(** The transport answers now. *)
Lemma Timing0_return cfg s s' emailJob r :
  trace s' = Returned emailJob (clock s) r :: trace s ->
  lastEmailTime s' =
    match r with SendOk _ => clock s | SendErr _ => lastEmailTime s end ->
  clock s' = clock s ->
  Timing0 cfg s -> Timing0 cfg s'.
Proof.
  intros Ht Hl Hc [H1 H2 H3 H4].
  constructor; rewrite ?Ht, ?Hl, ?Hc; simpl; auto.
  - intros e [<-|Hin]; simpl; [lia | auto].
  - destruct r; auto.
Qed.

Lemma Next_Timing cfg s s' : Timing0 cfg s -> Next cfg s s' -> Timing cfg s'.
Proof.
  intros HT HN. destruct HN as [Hq | j rest Hq Hlt | j rest Hq Hge].
  - split; [now apply (Timing0_same cfg s); simpl; auto; lia|].
    simpl. intros ? ? [].
  - split; [now apply (Timing0_same cfg s); simpl; auto; lia|].
    simpl. intros ? ? [Heq|[]]. inversion Heq; subst. lia.
  - split; [apply (Timing0_invoke cfg s _ j); simpl; auto; lia|].
    simpl. intros ? ? [Heq|[]]. discriminate.
Qed.

Lemma Canon_Timing cfg s e s' :
  Timing cfg s -> Canon cfg s e s' -> Timing cfg s'.
Proof.
  intros [HT HW] HC.
  destruct HC as [dt | body rnd Hm | body rnd k Hm Hl Hf
                 | body rnd s' Hm Hl Hf Hq HN | j due Hl Hf Hdue
                 | due s' Hl Hf Hdue HN | j mid s' Hl Hf HN
                 | j err Hl Hf Hr | j err s' Hl Hf Hr HN].
  - split; [apply (Timing0_same cfg s); simpl; auto; lia | exact HW].
  - split; assumption.
  - split; [apply (Timing0_same cfg s); simpl; auto; lia | exact HW].
  - eapply Next_Timing; [|eassumption].
    apply (Timing0_same cfg s); simpl; auto; lia.
  - split.
    + apply (Timing0_invoke cfg s _ j); simpl; auto.
      specialize (HW j due). rewrite Hl in HW. specialize (HW (or_introl eq_refl)). lia.
    + simpl. intros ? ? [Heq|[]]. discriminate.
  - eapply Next_Timing; eassumption.
  - eapply Next_Timing; [|eassumption].
    apply (Timing0_return cfg s _ j (SendOk mid)); simpl; auto.
  - split.
    + apply (Timing0_return cfg s _ j (SendErr err)); simpl; auto.
    + simpl. intros ? ? [Heq|[]]. discriminate.
  - eapply Next_Timing; [|eassumption].
    apply (Timing0_return cfg s _ j (SendErr err)); simpl; auto.
Qed.

Lemma init_Timing cfg now : Timing cfg (init now).
Proof.
  split; [constructor; simpl; auto; intros ? [] | simpl; intros ? ? []].
Qed.

Lemma reachable_Timing cfg now s : reachable cfg now s -> Timing cfg s.
Proof.
  induction 1 as [|s e s' Hr IH Hstep]; [apply init_Timing|].
  pose proof (reachable_Single _ _ _ Hr) as HS.
  eapply Canon_Timing; eauto using step_Canon.
Qed.




(** *** Runs *)

Lemma run_reachable cfg now es : forall s,
  reachable cfg now s -> reachable cfg now (run cfg s es).
Proof.
  induction es as [|e es IH]; simpl; intros s Hr; [assumption|].
  apply IH. destruct (step cfg s e) eqn:Hstep; [|assumption].
  eapply reach_step; eassumption.
Qed.

(** C4. At most one drain loop runs at any time: in every reachable state
    there is at most one suspended [processEmailQueue], and there is one
    exactly when [isProcessingQueue] is set; a request that arrives while the
    flag is set adds no loop; [processEmailQueue] called with the flag set
    returns at once, changing nothing; and a loop that finds the queue empty
    clears the flag and ends. *)
Theorem single_drain_loop cfg now s :
  reachable cfg now s ->
  (List.length (loops s) <= 1)%nat
  /\ (isProcessingQueue s = true <-> List.length (loops s) = 1%nat)
  /\ (isProcessingQueue s = true ->
      (forall body rnd, loops (snd (post_send_email cfg body rnd s)) = loops s)
      /\ (forall mailOptions rnd,
             loops (snd (queueEmail cfg mailOptions rnd s)) = loops s)
      /\ processEmailQueue cfg s = s)
  /\ (emailQueue s = [] ->
      loop_test cfg s = (None, set_isProcessingQueue false s)).
Proof.
  intros Hr. pose proof (reachable_Single _ _ _ Hr) as HS.
  repeat split.
  - destruct HS as [(Hl&_&_)|(k&Hl&_)]; rewrite Hl; simpl; lia.
  - destruct HS as [(Hl&Hf&_)|(k&Hl&_)]; rewrite Hl; simpl; congruence.
  - destruct HS as [(Hl&Hf&_)|(k&Hl&Hf)]; rewrite Hl; simpl; auto. discriminate.
  - intros body rnd. unfold post_send_email.
    destruct (missing_fields body); simpl; [reflexivity|]. now rewrite H.
  - intros mo rnd. unfold queueEmail; simpl. now rewrite H.
  - unfold processEmailQueue. now rewrite H.
  - intros Hq. unfold loop_test. now rewrite Hq.
Qed.

Lemma single_drain_loop_witness :
  let s := run cfg1 (init 5000) [PostSendEmail body1 0; PostSendEmail body1 0] in
  isProcessingQueue s = true /\ List.length (emailQueue s) = 1%nat
  /\ List.length (loops s) = 1%nat
  /\ processEmailQueue cfg1 s = s.
Proof.
  pose proof (single_drain_loop cfg1 5000
                (run cfg1 (init 5000) [PostSendEmail body1 0; PostSendEmail body1 0])
                (run_reachable cfg1 5000 _ _ (reach_init cfg1 5000))) as (_ & Hiff & Hbusy & _).
  assert (Hf : isProcessingQueue
                 (run cfg1 (init 5000) [PostSendEmail body1 0; PostSendEmail body1 0]) = true)
    by reflexivity.
  cbv zeta. split; [exact Hf|]. split; [reflexivity|].
  split; [apply Hiff, Hf | apply (Hbusy Hf)].
Defined.

(** The transport answers a send with a rate-limit error: what the catch
    block leaves behind. *)
Lemma rate_limited_step cfg s emailJob error :
  loops s = [AwaitSendMail emailJob] ->
  is_rate_limit_error error = true ->
  step cfg s (SendMailReturns 0 (SendErr error)) =
  Some (set_loops [AwaitRetryDelay (clock s + RETRY_DELAY cfg)]
          (set_emailQueue (emailJob :: emailQueue s)
             (record (Returned emailJob (clock s) (SendErr error)) s))).
Proof.
  intros Hl Hr. simpl. rewrite Hl. simpl. unfold on_error. rewrite Hr.
  unfold continue_with. simpl. rewrite Hl. reflexivity.
Qed.

Lemma is_rate_limit_error_iff error :
  is_rate_limit_error error = true <->
  responseCode error = Some 421
  \/ includes (message error) "421" = true
  \/ includes (message error) "rate" = true.
Proof.
  unfold is_rate_limit_error. rewrite !orb_true_iff.
  destruct (responseCode error) as [c|].
  - rewrite Z.eqb_eq. split.
    + intros [[->|H]|H]; auto.
    + intros [H|[H|H]]; auto. inversion H; auto.
  - split.
    + intros [[H|H]|H]; auto. discriminate.
    + intros [H|[H|H]]; auto. discriminate.
Qed.

(** C3. A send that fails with a rate-limit error (response code 421, or a
    message containing 421 or rate): the same job goes back to the front of
    the queue, its handle stays unsettled, the loop waits for [RETRY_DELAY]
    (its timer cannot fire earlier) and then goes on with that same job.
    The job record is put back as it was: nothing in it counts retries. *)
Theorem rate_limited_job_requeued_at_front cfg now s i emailJob error :
  reachable cfg now s ->
  nth_error (loops s) i = Some (AwaitSendMail emailJob) ->
  responseCode error = Some 421
  \/ includes (message error) "421" = true
  \/ includes (message error) "rate" = true ->
  exists s',
    step cfg s (SendMailReturns i (SendErr error)) = Some s'
    /\ emailQueue s' = emailJob :: emailQueue s
    /\ loops s' = [AwaitRetryDelay (clock s + RETRY_DELAY cfg)]
    /\ settled s' = settled s
    /\ isProcessingQueue s' = true
    /\ (forall dt,
           clock s + Z.of_N dt < clock s + RETRY_DELAY cfg ->
           step cfg (set_clock (clock s + Z.of_N dt) s') (TimerFires 0) = None)
    /\ (forall dt,
           clock s + RETRY_DELAY cfg <= clock s + Z.of_N dt ->
           exists s'',
             step cfg (set_clock (clock s + Z.of_N dt) s') (TimerFires 0) = Some s''
             /\ flat_map held (loops s'') = [emailJob]
             /\ emailQueue s'' = emailQueue s).
Proof.
  intros Hr Hn Herr. apply is_rate_limit_error_iff in Herr.
  destruct (reachable_Single _ _ _ Hr) as [(Hl&_&_)|(k&Hl&Hf)];
    rewrite Hl in Hn; [destruct i; discriminate|].
  apply nth_error_single in Hn as [-> Hk]. subst k.
  rewrite (rate_limited_step cfg s emailJob error Hl Herr).
  eexists. split; [reflexivity|].
  simpl. repeat split; auto.
  - intros dt Hlt. destruct (Z.leb_spec (clock s + RETRY_DELAY cfg) (clock s + Z.of_N dt)); [lia|reflexivity].
  - intros dt Hge. destruct (Z.leb_spec (clock s + RETRY_DELAY cfg) (clock s + Z.of_N dt)); [|lia].
    unfold loop_test; simpl.
    destruct (_ <? _); simpl; eexists; split; try reflexivity; simpl; auto.
Qed.

Lemma rate_limited_job_requeued_at_front_witness :
  let s := run cfg1 (init 5000) [PostSendEmail body1 0; PostSendEmail body1 0] in
  exists s',
    step cfg1 s (SendMailReturns 0 (SendErr too_many)) = Some s'
    /\ map handle (emailQueue s') = [0%nat; 1%nat]
    /\ loops s' = [AwaitRetryDelay 35000]
    /\ settled s' = [].
Proof.
  destruct (rate_limited_job_requeued_at_front cfg1 5000
              (run cfg1 (init 5000) [PostSendEmail body1 0; PostSendEmail body1 0])
              0 (new_job (mail_of cfg1 body1) 0 (init 5000)) too_many
              (run_reachable cfg1 5000 _ _ (reach_init cfg1 5000))
              eq_refl (or_introl eq_refl))
    as (s' & Hstep & Hq & Hl & Hs & _).
  exists s'. cbv zeta. rewrite Hq, Hl, Hs. repeat split; try reflexivity. exact Hstep.
Defined.

Lemma Next_lastEmailTime cfg s s' :
  Next cfg s s' -> lastEmailTime s' = lastEmailTime s.
Proof. intros HN; destruct HN; reflexivity. Qed.

Lemma Canon_lastEmailTime cfg s e s' :
  Canon cfg s e s' ->
  lastEmailTime s' =
  match e with
  | SendMailReturns _ (SendOk _) => clock s
  | _ => lastEmailTime s
  end.
Proof.
  intros HC; destruct HC; simpl; auto;
    match goal with
    | HN : Next _ _ _ |- _ => apply Next_lastEmailTime in HN; simpl in HN; exact HN
    end.
Qed.

(** C8. [lastEmailTime] is written only when a send succeeds: a step sets it
    to the current time when the transport returns a result, and leaves it
    alone otherwise, in particular when a send fails, whether the failure is
    rate-limited or not.  So in every state it is the time at which the
    newest successful send returned ([0] before the first one), and the
    rate-limit gate measures the time since then. *)
Theorem lastEmailTime_written_on_success_only cfg now s e s' :
  reachable cfg now s ->
  step cfg s e = Some s' ->
  lastEmailTime s' =
    match e with
    | SendMailReturns _ (SendOk _) => clock s
    | _ => lastEmailTime s
    end
  /\ (forall i error, e = SendMailReturns i (SendErr error) ->
                      lastEmailTime s' = lastEmailTime s)
  /\ lastEmailTime s' = last_success_time (trace s').
Proof.
  intros Hr Hstep.
  pose proof (step_Canon _ _ _ _ (reachable_Single _ _ _ Hr) Hstep) as HC.
  pose proof (Canon_lastEmailTime _ _ _ _ HC) as Hlast.
  split; [exact Hlast|]. split.
  - intros i error ->. exact Hlast.
  - apply (reachable_Timing cfg now). eapply reach_step; eassumption.
Qed.

Lemma lastEmailTime_written_on_success_only_witness :
  exists s',
    step cfg1 (run cfg1 (init 5000) [PostSendEmail body1 0; Tick 7])
         (SendMailReturns 0 (SendErr mailbox_unavailable)) = Some s'
    /\ lastEmailTime s' = 0.
Proof.
  eexists. split; [reflexivity|].
  exact (proj1 (lastEmailTime_written_on_success_only cfg1 5000
                  (run cfg1 (init 5000) [PostSendEmail body1 0; Tick 7])
                  (SendMailReturns 0 (SendErr mailbox_unavailable)) _
                  (run_reachable cfg1 5000 _ _ (reach_init cfg1 5000)) eq_refl)).
Defined.

(** A job the server holds stays, or its handle is settled in that step. *)
Lemma Canon_live cfg s e s' :
  Canon cfg s e s' ->
  forall h, In h (live s) -> In h (live s') \/ In h (settled_handles s').
Proof.
  intros HC h.
  destruct HC as [dt | body rnd Hm | body rnd k Hm Hl Hf
                 | body rnd s' Hm Hl Hf Hq HN | j due Hl Hf Hdue
                 | due s' Hl Hf Hdue HN | j mid s' Hl Hf HN
                 | j err Hl Hf Hr | j err s' Hl Hf Hr HN];
    try (apply Next_live in HN as (Hl' & Hs' & Hn'); simpl in * );
    unfold live, settled_handles in *; rewrite ?Hl', ?Hs'; simpl;
    rewrite ?Hl; simpl; auto.
  - rewrite !map_app, !in_app_iff. simpl. intuition.
  - rewrite Hq. simpl. intros [].
  - intuition.
  - intuition.
Qed.

(** C9. A handle is settled at most once.  The log of [resolve] and [reject]
    calls of a reachable server never names a handle twice (so no promise is
    both resolved and rejected, or settled twice), and no job still held,
    queued or in flight, has a settled handle.  A job leaves the server only
    in a step that settles its handle: on success the step calls [resolve],
    on a failure that is not rate-limited it calls [reject], each once; a
    rate-limited failure calls neither and keeps the job. *)
Theorem handle_settled_at_most_once cfg now s :
  reachable cfg now s ->
  NoDup (settled_handles s)
  /\ (forall h, In h (live s) -> ~ In h (settled_handles s))
  /\ (forall e s' h,
         step cfg s e = Some s' -> In h (live s) ->
         In h (live s') \/ In h (settled_handles s'))
  /\ (forall i emailJob r s',
         nth_error (loops s) i = Some (AwaitSendMail emailJob) ->
         step cfg s (SendMailReturns i r) = Some s' ->
         match r with
         | SendOk messageId =>
             settled s' =
               (handle emailJob, Resolved messageId "Email sent successfully")
               :: settled s
             /\ ~ In (handle emailJob) (live s')
         | SendErr error =>
             if is_rate_limit_error error then
               settled s' = settled s /\ In (handle emailJob) (live s')
             else
               settled s' =
                 (handle emailJob,
                  Rejected "Failed to send email" (message error)
                           (responseCode error)) :: settled s
               /\ ~ In (handle emailJob) (live s')
         end).
Proof.
  intros Hr.
  pose proof (reachable_Single _ _ _ Hr) as HS.
  pose proof (reachable_Handles _ _ _ Hr) as HH.
  split; [apply (settled_nodup s HH)|].
  split; [apply (live_pending s HH)|].
  split.
  - intros e s' h Hstep. eapply Canon_live. eapply step_Canon; eassumption.
  - intros i j r s' Hn Hstep.
    assert (HH' : Handles s')
      by (apply (reachable_Handles cfg now); eapply reach_step; eassumption).
    pose proof (step_Canon _ _ _ _ HS Hstep) as HC.
    assert (Hgone : forall o, settled s' = (handle j, o) :: settled s ->
                              ~ In (handle j) (live s')).
    { intros o Hs Hin. apply (live_pending s' HH' _ Hin).
      unfold settled_handles. rewrite Hs. now left. }
    inversion HC as [ | | | | | | j' mid s0 Hl Hf HN | j' err Hl Hf Hrl
                    | j' err s0 Hl Hf Hrl HN ]; subst;
      rewrite Hl in Hn; inversion Hn; subst j'; clear Hn.
    + apply Next_live in HN as (_ & Hs' & _). simpl in Hs'. eauto.
    + rewrite Hrl. simpl. split; [reflexivity|]. unfold live. simpl. now left.
    + rewrite Hrl. apply Next_live in HN as (_ & Hs' & _). simpl in Hs'. eauto.
Qed.

Lemma handle_settled_at_most_once_witness :
  let s := run cfg1 (init 5000)
             [PostSendEmail body1 0; PostSendEmail body1 0;
              SendMailReturns 0 (SendErr mailbox_unavailable);
              SendMailReturns 0 (SendOk "<m1@example.org>")] in
  settled_handles s = [1%nat; 0%nat] /\ NoDup (settled_handles s).
Proof.
  split; [reflexivity|].
  exact (proj1 (handle_settled_at_most_once cfg1 5000 _
                  (run_reachable cfg1 5000 _ _ (reach_init cfg1 5000)))).
Defined.

Lemma NoDup_map_app_disjoint {A B} (f : A -> B) (l1 l2 : list A) x :
  NoDup (map f (l1 ++ l2)) -> In x l1 -> In x l2 -> False.
Proof.
  induction l1 as [|a l1 IH]; simpl; [intros _ []|].
  intros Hnd [->|Hin] Hin2; inversion Hnd; subst.
  - apply H1. apply in_map, in_or_app. now right.
  - now apply IH.
Qed.

(** C6. [GET /queue-status] reports [emailQueue.length], the flag,
    [lastEmailTime] and the configured interval.  The job the drain loop has
    taken off the queue and is sending, or holds while it waits for the rate
    limit, is not in [emailQueue], so it is not counted: the jobs the server
    still has are the [queueLength] queued ones and the one in flight. *)
Theorem queue_status_counts_pending_jobs cfg now s :
  reachable cfg now s ->
  queue_status cfg s =
    mkQueueStatus (List.length (emailQueue s)) (isProcessingQueue s)
                  (lastEmailTime s) (SMTP_RATE_LIMIT cfg)
  /\ (forall k emailJob,
         In k (loops s) -> In emailJob (held k) -> ~ In emailJob (emailQueue s))
  /\ List.length (live s) =
       (List.length (flat_map held (loops s)) + queueLength (queue_status cfg s))%nat
  /\ (List.length (flat_map held (loops s)) <= 1)%nat.
Proof.
  intros Hr. split; [reflexivity|].
  pose proof (live_nodup s (reachable_Handles _ _ _ Hr)) as Hnd.
  split; [|split].
  - intros k j Hk Hj Hq. unfold live in Hnd.
    eapply NoDup_map_app_disjoint; [exact Hnd | | exact Hq].
    apply in_flat_map. exists k. auto.
  - unfold live. now rewrite length_map, length_app.
  - destruct (reachable_Single _ _ _ Hr) as [(Hl&_&_)|(k&Hl&_)]; rewrite Hl; simpl.
    + lia.
    + destruct k; simpl; lia.
Qed.

Lemma queue_status_counts_pending_jobs_witness :
  let s := run cfg1 (init 5000)
             [PostSendEmail body1 0; PostSendEmail body1 0; PostSendEmail body1 0] in
  queue_status cfg1 s = mkQueueStatus 2 true 0 1000
  /\ List.length (live s) = 3%nat.
Proof.
  split; [reflexivity|].
  pose proof (queue_status_counts_pending_jobs cfg1 5000
                (run cfg1 (init 5000)
                   [PostSendEmail body1 0; PostSendEmail body1 0; PostSendEmail body1 0])
                (run_reachable cfg1 5000 _ _ (reach_init cfg1 5000)))
    as (_ & _ & Hlen & _).
  rewrite Hlen. reflexivity.
Defined.

(** *** A transport that keeps answering 421 *)

Lemma run_app cfg es1 es2 : forall s,
  run cfg s (es1 ++ es2) = run cfg (run cfg s es1) es2.
Proof. induction es1 as [|e es1 IH]; simpl; intros s; [reflexivity|apply IH]. Qed.

Lemma Retrying_round cfg emailJob error n s :
  is_rate_limit_error error = true ->
  Retrying cfg emailJob n s ->
  Retrying cfg emailJob (S n) (run cfg s (retry_round cfg error)).
Proof.
  intros Herr [Hl Hq Hf Hg Hs Hc].
  assert (Hdelay : RETRY_DELAY cfg <= Z.of_N (Z.to_N (RETRY_DELAY cfg)) /\
                   0 <= Z.of_N (Z.to_N (RETRY_DELAY cfg)))
    by (destruct (RETRY_DELAY cfg); simpl; lia).
  unfold retry_round, run.
  rewrite (rate_limited_step cfg s emailJob error Hl Herr).
  cbn [step]. cbn [step set_clock set_loops set_emailQueue record loops clock
                   emailQueue nth_error].
  destruct (Z.leb_spec (clock s + RETRY_DELAY cfg)
                       (clock s + Z.of_N (Z.to_N (RETRY_DELAY cfg)))) as [_|Hbad];
    [|lia].
  unfold loop_test. simpl.
  destruct (Z.ltb_spec (clock s + Z.of_N (Z.to_N (RETRY_DELAY cfg)) - lastEmailTime s)
                       (SMTP_RATE_LIMIT cfg)) as [Hbad|_]; [lia|].
  constructor; simpl; auto.
  - lia.
  - rewrite Nat.eqb_refl, Hc. reflexivity.
Qed.

Lemma Retrying_rounds cfg emailJob error n : forall m s,
  is_rate_limit_error error = true ->
  Retrying cfg emailJob m s ->
  Retrying cfg emailJob (n + m) (run cfg s (retry_rounds cfg error n)).
Proof.
  induction n as [|n IH]; intros m s Herr HR; [exact HR|].
  cbn [retry_rounds]. rewrite run_app.
  replace (S n + m)%nat with (n + S m)%nat by lia.
  apply IH; [assumption|]. now apply Retrying_round.
Qed.

(** C10. The drain loop need not end.  Against a transport that answers
    every send of a job with a rate-limit error, the loop puts the job back
    at the front and sends it again, round after round, with no bound: after
    [n] rounds the job has been sent [n + 1] times, the loop is still busy
    with it, and its handle is neither resolved nor rejected.  Nothing counts
    these attempts, so no retry bound ever stops them. *)
Theorem rate_limited_job_retried_without_bound cfg now body rnd error n :
  missing_fields body = false ->
  is_rate_limit_error error = true ->
  SMTP_RATE_LIMIT cfg <= now ->
  let emailJob := new_job (mail_of cfg body) rnd (init now) in
  let s := run cfg (init now)
             (PostSendEmail body rnd :: retry_rounds cfg error n) in
  isProcessingQueue s = true
  /\ loops s = [AwaitSendMail emailJob]
  /\ emailQueue s = []
  /\ settled s = []
  /\ invocations_of (handle emailJob) (trace s) = S n.
Proof.
  intros Hm Herr Hnow emailJob s.
  assert (HR : Retrying cfg emailJob (n + 1) s).
  { subst s. cbn [run]. apply Retrying_rounds; [assumption|].
    cbn [step]. unfold post_send_email. rewrite Hm.
    unfold queueEmail, processEmailQueue, loop_test, call_sendMail. simpl.
    destruct (Z.ltb_spec (now - 0) (SMTP_RATE_LIMIT cfg)) as [Hbad|_]; [lia|].
    constructor; simpl; auto. }
  destruct HR as [Hl Hq Hf Hg Hs Hc].
  repeat split; auto. rewrite Hc. lia.
Qed.

Lemma rate_limited_job_retried_without_bound_witness :
  let s := run cfg1 (init 5000)
             (PostSendEmail body1 0 :: retry_rounds cfg1 too_many 10) in
  isProcessingQueue s = true /\ settled s = []
  /\ invocations_of 0 (trace s) = 11%nat.
Proof.
  pose proof (rate_limited_job_retried_without_bound cfg1 5000 body1 0 too_many 10
                eq_refl eq_refl ltac:(vm_compute; discriminate))
    as (Hf & _ & _ & Hs & Hc).
  exact (conj Hf (conj Hs Hc)).
Defined.

(** A send that fails with an error that is not a rate-limit error: the
    handle is rejected in that step and the job is gone. *)
Lemma permanent_failure_rejects cfg now s i emailJob error :
  reachable cfg now s ->
  nth_error (loops s) i = Some (AwaitSendMail emailJob) ->
  is_rate_limit_error error = false ->
  exists s',
    step cfg s (SendMailReturns i (SendErr error)) = Some s'
    /\ settled s' =
         (handle emailJob,
          Rejected "Failed to send email" (message error) (responseCode error))
         :: settled s
    /\ ~ In (handle emailJob) (live s')
    /\ ~ In emailJob (emailQueue s').
Proof.
  intros Hr Hn Herr.
  pose proof (reachable_Single _ _ _ Hr) as HS.
  destruct HS as [(Hl&_&_)|(k&Hl&Hf)];
    rewrite Hl in Hn; [destruct i; discriminate|].
  apply nth_error_single in Hn as [-> Hk]. subst k.
  assert (Hstep : step cfg s (SendMailReturns 0 (SendErr error)) =
                  Some (continue_with 0
                          (on_error cfg emailJob error
                             (record (Returned emailJob (clock s) (SendErr error)) s)))).
  { simpl. rewrite Hl. reflexivity. }
  eexists. split; [exact Hstep|].
  assert (HH' : Handles
                  (continue_with 0
                     (on_error cfg emailJob error
                        (record (Returned emailJob (clock s) (SendErr error)) s))))
    by (apply (reachable_Handles cfg now); eapply reach_step; eassumption).
  assert (Hs : settled
                 (continue_with 0
                    (on_error cfg emailJob error
                       (record (Returned emailJob (clock s) (SendErr error)) s))) =
               (handle emailJob,
                Rejected "Failed to send email" (message error) (responseCode error))
               :: settled s).
  { unfold on_error. rewrite Herr. unfold loop_test, continue_with. simpl.
    destruct (emailQueue s); simpl; [reflexivity|].
    destruct (_ <? _); reflexivity. }
  assert (Hgone : ~ In (handle emailJob)
                    (live (continue_with 0
                             (on_error cfg emailJob error
                                (record (Returned emailJob (clock s) (SendErr error)) s))))).
  { intros Hin. apply (live_pending _ HH' _ Hin).
    unfold settled_handles. rewrite Hs. now left. }
  split; [exact Hs|]. split; [exact Hgone|].
  intros Hin. apply Hgone. unfold live. apply in_map, in_or_app. now right.
Qed.

(** A promise nobody has settled is pending; the first settlement stays. *)
Lemma settlement_of_pending h calls :
  ~ In h (map fst calls) -> settlement_of h calls = None.
Proof.
  induction calls as [|[h' o] older IH]; simpl; [reflexivity|].
  intros Hn. rewrite IH by tauto.
  destruct (Nat.eqb_spec h' h); [|reflexivity]. exfalso. apply Hn. now left.
Qed.

Lemma settlement_of_first h o calls :
  ~ In h (map fst calls) -> settlement_of h ((h, o) :: calls) = Some o.
Proof.
  intros Hn. simpl. rewrite (settlement_of_pending _ _ Hn).
  now rewrite Nat.eqb_refl.
Qed.

Lemma Next_held cfg s s' :
  Next cfg s s' ->
  flat_map held (loops s') ++ emailQueue s' = emailQueue s
  /\ settled s' = settled s /\ nextHandle s' = nextHandle s.
Proof.
  intros HN; destruct HN as [Hq | j rest Hq _ | j rest Hq _];
    simpl; rewrite Hq; auto.
Qed.

Lemma Next_running cfg s s' :
  Next cfg s s' -> emailQueue s <> [] -> isProcessingQueue s = true ->
  isProcessingQueue s' = true /\ exists k, loops s' = [k].
Proof.
  intros HN Hq Hf. destruct HN as [Hq0 | j rest Hq0 _ | j rest Hq0 _];
    [congruence| |]; simpl; eauto.
Qed.

(** A request with its fields present: the job made for it is the newest
    one the server holds, with the promise the handler awaits, and the
    drain loop is running. *)
Lemma post_queues_job cfg now s body rnd :
  reachable cfg now s ->
  missing_fields body = false ->
  fst (post_send_email cfg body rnd s) = inr (nextHandle s)
  /\ nextHandle (snd (post_send_email cfg body rnd s)) = S (nextHandle s)
  /\ flat_map held (loops (snd (post_send_email cfg body rnd s)))
       ++ emailQueue (snd (post_send_email cfg body rnd s))
     = flat_map held (loops s) ++ emailQueue s
       ++ [new_job (mail_of cfg body) rnd s]
  /\ settled (snd (post_send_email cfg body rnd s)) = settled s
  /\ awaited_reply (nextHandle s) (snd (post_send_email cfg body rnd s)) = None
  /\ isProcessingQueue (snd (post_send_email cfg body rnd s)) = true
  /\ exists k, loops (snd (post_send_email cfg body rnd s)) = [k].
Proof.
  intros Hr Hm.
  pose proof (reachable_Single _ _ _ Hr) as HS.
  pose proof (reachable_Handles _ _ _ Hr) as HH.
  assert (Hfst : fst (post_send_email cfg body rnd s) = inr (nextHandle s))
    by (unfold post_send_email; rewrite Hm; reflexivity).
  assert (HC : Canon cfg s (PostSendEmail body rnd)
                 (snd (post_send_email cfg body rnd s)))
    by (apply step_Canon; [exact HS | reflexivity]).
  assert (Hfresh : settlement_of (nextHandle s) (settled s) = None).
  { apply settlement_of_pending. intros Hin.
    apply (settled_fresh _ HH) in Hin. lia. }
  split; [exact Hfst|].
  remember (snd (post_send_email cfg body rnd s)) as s' eqn:Es'.
  remember (PostSendEmail body rnd) as e eqn:Ee.
  destruct HC as [dt | body0 rnd0 Hm0 | body0 rnd0 k Hm0 Hl Hf
                 | body0 rnd0 s' Hm0 Hl Hf Hq HN | j due Hl Hf Hdue
                 | due s' Hl Hf Hdue HN | j mid s' Hl Hf HN
                 | j err Hl Hf Hrl | j err s' Hl Hf Hrl HN];
    try discriminate; inversion Ee; subst body0 rnd0.
  - congruence.
  - simpl. repeat split; eauto.
    unfold awaited_reply. simpl. now rewrite Hfresh.
  - pose proof (Next_running _ _ _ HN ltac:(simpl; discriminate) eq_refl)
      as (Hflag & Hloop).
    apply Next_held in HN as (Hheld & Hs & Hn). simpl in *.
    rewrite Hheld, Hs, Hn, Hl, Hq. repeat split; auto.
    unfold awaited_reply. rewrite Hs. now rewrite Hfresh.
Qed.

(** A permanent failure answers the waiting handler with 500. *)
Lemma permanent_failure_replies cfg now s i emailJob error :
  reachable cfg now s ->
  nth_error (loops s) i = Some (AwaitSendMail emailJob) ->
  is_rate_limit_error error = false ->
  exists s',
    step cfg s (SendMailReturns i (SendErr error)) = Some s'
    /\ awaited_reply (handle emailJob) s = None
    /\ awaited_reply (handle emailJob) s'
       = Some (mkResponse 500
                 (PError "Failed to queue email" (Some (message error))
                         (responseCode error))).
Proof.
  intros Hr Hn Herr.
  destruct (permanent_failure_rejects cfg now s i emailJob error Hr Hn Herr)
    as (s' & Hstep & Hs & _).
  pose proof (reachable_Handles _ _ _ Hr) as HH.
  assert (Hpend : ~ In (handle emailJob) (map fst (settled s))).
  { apply (live_pending _ HH).
    destruct (reachable_Single _ _ _ Hr) as [(Hl&_&_)|(k&Hl&Hf)];
      rewrite Hl in Hn; [destruct i; discriminate|].
    apply nth_error_single in Hn as [_ Hk]. subst k.
    unfold live. rewrite Hl. simpl. now left. }
  exists s'. split; [exact Hstep|]. split.
  - unfold awaited_reply. now rewrite settlement_of_pending.
  - unfold awaited_reply. rewrite Hs, settlement_of_first by exact Hpend.
    reflexivity.
Qed.

End QueueServerFacts.

(** * Properties of the quick-setup server *)

Module RetryServerFacts.
Import RetryServer RetryServerInvariants.
Local Open Scope Z_scope.

Lemma Qlt_bool_true a b : Qlt_bool a b = true -> (a < b)%Q.
Proof.
  unfold Qlt_bool. intros H. apply Qnot_le_lt. intros Hle.
  apply Qle_bool_iff in Hle. rewrite Hle in H. discriminate.
Qed.

Lemma Qlt_bool_false a b : Qlt_bool a b = false -> (b <= a)%Q.
Proof.
  unfold Qlt_bool. intros H. apply Qle_bool_iff.
  destruct (Qle_bool b a); [reflexivity|discriminate].
Qed.

Lemma retry_loop_test_Next cfg s k0 :
  loops s = [k0] -> Next cfg s (continue_with 0 (loop_test cfg s)).
Proof.
  intros Hl. unfold loop_test.
  destruct (emailQueue s) as [|d rest] eqn:Hq.
  - simpl. rewrite Hl. simpl. now apply NextDone.
  - simpl.
    destruct (Qlt_bool (inject_Z (clock s - lastEmailTime s)) (minInterval cfg)) eqn:Hlt;
      simpl; rewrite Hl; simpl.
    + apply NextWait; [assumption | now apply Qlt_bool_true].
    + apply NextSend; [assumption | now apply Qlt_bool_false].
Qed.

Lemma retry_processEmailQueue_Next cfg s :
  loops s = [] -> isProcessing s = false -> emailQueue s <> [] ->
  Next cfg (set_isProcessing true s) (processEmailQueue cfg s).
Proof.
  intros Hl Hf Hq. unfold processEmailQueue, loop_test. rewrite Hf.
  destruct (emailQueue s) as [|d rest] eqn:Hq'; [congruence|]. simpl.
  rewrite Hq'.
  destruct (Qlt_bool (inject_Z (clock s - lastEmailTime s)) (minInterval cfg)) eqn:Hlt;
    simpl; rewrite Hl; simpl.
  - apply (NextWait cfg (set_isProcessing true s) d rest);
      [assumption | now apply Qlt_bool_true].
  - apply (NextSend cfg (set_isProcessing true s) d rest);
      [assumption | now apply Qlt_bool_false].
Qed.

Lemma retry_nth_error_single {A} (k : A) i x :
  nth_error [k] i = Some x -> i = 0%nat /\ x = k.
Proof.
  destruct i as [|[|i]]; simpl; intros H; try discriminate.
  inversion H; auto.
Qed.

Lemma step_RCanon cfg s e s' :
  RSingle s -> step cfg s e = Some s' -> RCanon cfg s e s'.
Proof.
  intros HS Hstep. destruct e as [dt | body rnd4 rnd9 | i | i r]; simpl in Hstep.
  - inversion Hstep; subst. constructor.
  - inversion Hstep; subst; clear Hstep. unfold post_send_email.
    destruct (missing_fields body) eqn:Hm; simpl; [now constructor|].
    fold (new_emailData cfg body rnd4 rnd9 s).
    destruct HS as [(Hl&Hf&Hq)|(k&Hl&Hf)].
    + apply RPostIdle; auto. rewrite Hq. simpl.
      apply (retry_processEmailQueue_Next cfg
               (set_emailQueue [new_emailData cfg body rnd4 rnd9 s] s));
        simpl; auto; discriminate.
    + unfold processEmailQueue. simpl. rewrite Hf. simpl.
      eapply RPostBusy; eauto.
  - destruct HS as [(Hl&Hf&Hq)|(k&Hl&Hf)]; rewrite Hl in Hstep.
    + destruct i; discriminate.
    + destruct (nth_error [k] i) as [k'|] eqn:Hn; [|discriminate].
      apply retry_nth_error_single in Hn as [-> ->].
      destruct k as [d due | d | due]; try discriminate.
      * destruct (Qle_bool due (inject_Z (clock s))) eqn:Hdue; [|discriminate].
        inversion Hstep; subst; clear Hstep.
        unfold continue_with; simpl. rewrite ?Hl; simpl.
        eapply RRateTimer; eauto. now apply Qle_bool_iff.
      * destruct (Z.leb_spec due (clock s)); [|discriminate].
        inversion Hstep; subst; clear Hstep.
        eapply RRetryTimer; eauto. eapply retry_loop_test_Next; eauto.
  - destruct HS as [(Hl&Hf&Hq)|(k&Hl&Hf)]; rewrite Hl in Hstep.
    + destruct i; discriminate.
    + destruct (nth_error [k] i) as [k'|] eqn:Hn; [|discriminate].
      apply retry_nth_error_single in Hn as [-> ->].
      destruct k as [d due | d | due]; try discriminate.
      destruct r as [mid | err]; inversion Hstep; subst; clear Hstep;
        unfold continue_with, on_sent, on_error; simpl.
      * rewrite ?Hl; simpl. eapply RSent; eauto.
      * destruct (Z.ltb_spec (retries d) 3); simpl; rewrite ?Hl; simpl.
        -- eapply RFailedRetry; eauto.
        -- eapply RFailedDrop; eauto.
Qed.

Lemma Next_RSingle cfg s s' :
  isProcessing s = true -> Next cfg s s' -> RSingle s'.
Proof.
  intros Hf HN. destruct HN; simpl.
  - left; auto.
  - right; eexists; split; [reflexivity|auto].
  - right; eexists; split; [reflexivity|auto].
Qed.

Lemma RCanon_RSingle cfg s e s' : RSingle s -> RCanon cfg s e s' -> RSingle s'.
Proof.
  intros HS HC. destruct HC; simpl; auto;
    try (eapply Next_RSingle; [|eassumption]; simpl; auto; fail);
    try (right; eexists; split; simpl; eauto; fail).
Qed.

Lemma reachable_RSingle cfg now s : reachable cfg now s -> RSingle s.
Proof.
  induction 1; [left; simpl; auto|].
  eapply RCanon_RSingle; [eassumption|]. eapply step_RCanon; eauto.
Qed.

Lemma retry_run_reachable cfg now es : forall s,
  reachable cfg now s -> reachable cfg now (run cfg s es).
Proof.
  induction es as [|e es IH]; simpl; intros s Hr; [assumption|].
  apply IH. destruct (step cfg s e) eqn:Hstep; [|assumption].
  eapply reach_step; eassumption.
Qed.

(** *** Send times *)





(** *** The retry counter *)

Lemma Next_jobs cfg s s' : Next cfg s s' -> jobs s' = emailQueue s.
Proof.
  intros HN; destruct HN as [Hq | d rest Hq _ | d rest Hq _];
    unfold jobs; simpl; rewrite Hq; reflexivity.
Qed.

Lemma RCanon_Bounded cfg s e s' :
  Bounded s -> RCanon cfg s e s' -> Bounded s'.
Proof.
  unfold Bounded. intros HB HC d.
  destruct HC as [dt | body r4 r9 Hm | body r4 r9 k Hm Hl Hf
                 | body r4 r9 s' Hm Hl Hf Hq HN | d0 due Hl Hf Hdue
                 | due s' Hl Hf Hdue HN | d0 mid Hl Hf
                 | d0 err Hl Hf Hr | d0 err Hl Hf Hr];
    try (apply Next_jobs in HN; rewrite HN; simpl);
    unfold jobs in *; simpl; rewrite ?Hl in *; simpl in *; auto.
  - rewrite app_assoc, in_app_iff. simpl.
    intros [Hin|[<-|[]]]; [auto | simpl; lia].
  - intros [<-|[]]. simpl. lia.
  - rewrite in_app_iff. simpl. intros [Hin|[<-|[]]]; [auto|].
    specialize (HB d0 (or_introl eq_refl)). simpl. lia.
Qed.

Lemma reachable_Bounded cfg now s : reachable cfg now s -> Bounded s.
Proof.
  induction 1 as [|s e s' Hr IH Hstep]; [intros d []|].
  eapply RCanon_Bounded; [exact IH|].
  eapply step_RCanon; [eapply reachable_RSingle|]; eassumption.
Qed.

(** A failed send in the quick-setup server. *)
Lemma failed_send_retry cfg now s i emailData error :
  reachable cfg now s ->
  nth_error (loops s) i = Some (AwaitSendMail emailData) ->
  exists s',
    step cfg s (SendMailReturns i (SendErr error)) = Some s'
    /\ emailQueue s' =
         (if retries emailData <? 3
          then emailQueue s ++ [incr_retries emailData]
          else emailQueue s)
    /\ loops s' = [AwaitRetryDelay (clock s + RETRY_DELAY cfg)]
    /\ 0 <= retries emailData <= 3
    /\ Bounded s'.
Proof.
  intros Hr Hn.
  destruct (reachable_RSingle _ _ _ Hr) as [(Hl&_&_)|(k&Hl&Hf)];
    rewrite Hl in Hn; [destruct i; discriminate|].
  apply retry_nth_error_single in Hn as [-> Hk]. subst k.
  assert (Hb : 0 <= retries emailData <= 3).
  { apply (reachable_Bounded _ _ _ Hr). unfold jobs. rewrite Hl. simpl. now left. }
  assert (Hstep : step cfg s (SendMailReturns 0 (SendErr error)) =
                  Some (continue_with 0
                          (on_error cfg emailData
                             (record (Returned emailData (clock s) (SendErr error)) s)))).
  { simpl. rewrite Hl. reflexivity. }
  eexists. split; [exact Hstep|].
  split; [|split; [|split; [exact Hb|]]].
  - unfold on_error, continue_with. simpl.
    destruct (retries emailData <? 3); reflexivity.
  - unfold on_error, continue_with. simpl.
    destruct (retries emailData <? 3); simpl; rewrite Hl; reflexivity.
  - apply (reachable_Bounded cfg now). eapply reach_step; eassumption.
Qed.

(** An accepted request puts its job behind every job the server has. *)
Lemma retry_post_queues_job cfg now s body rnd4 rnd9 :
  reachable cfg now s ->
  missing_fields body = false ->
  jobs (snd (post_send_email cfg body rnd4 rnd9 s))
  = jobs s ++ [new_emailData cfg body rnd4 rnd9 s].
Proof.
  intros Hr Hm.
  pose proof (reachable_RSingle _ _ _ Hr) as HS.
  assert (HC : RCanon cfg s (PostSendEmail body rnd4 rnd9)
                 (snd (post_send_email cfg body rnd4 rnd9 s)))
    by (apply step_RCanon; [exact HS | reflexivity]).
  remember (snd (post_send_email cfg body rnd4 rnd9 s)) as s' eqn:Es'.
  remember (PostSendEmail body rnd4 rnd9) as e eqn:Ee.
  destruct HC as [dt | body0 r4 r9 Hm0 | body0 r4 r9 k Hm0 Hl Hf
                 | body0 r4 r9 s' Hm0 Hl Hf Hq HN | d due Hl Hf Hdue
                 | due s' Hl Hf Hdue HN | d mid Hl Hf
                 | d err Hl Hf Hrt | d err Hl Hf Hrt];
    try discriminate; inversion Ee; subst body0 r4 r9.
  - congruence.
  - unfold jobs. simpl. now rewrite app_assoc.
  - apply Next_jobs in HN. rewrite HN. unfold jobs. simpl.
    rewrite Hl, Hq. reflexivity.
Qed.

End RetryServerFacts.

(** * The two queues side by side *)

(** C1 (as the code has it).  The two servers treat a failed send differently.
    The quick-setup server counts: whatever the error, a job whose [retries]
    is under 3 has it incremented and is pushed to the back of the queue,
    and a job whose [retries] is 3 is not queued again; [retries] stays
    between 0 and 3.  It has no handle to reject.  The promise-returning
    queue does not count: a send that fails with an error that is not a
    rate-limit error rejects the job's handle at once, with the failure
    detail, and the job is not queued again. *)
Theorem failed_send_retried_or_rejected :
  (forall cfg now s i emailData error,
      RetryServer.reachable cfg now s ->
      nth_error (RetryServer.loops s) i = Some (RetryServer.AwaitSendMail emailData) ->
      exists s',
        RetryServer.step cfg s (RetryServer.SendMailReturns i (SendErr error)) = Some s'
        /\ RetryServer.emailQueue s' =
             (if RetryServer.retries emailData <? 3
              then RetryServer.emailQueue s ++ [RetryServer.incr_retries emailData]
              else RetryServer.emailQueue s)
        /\ RetryServer.retries (RetryServer.incr_retries emailData) =
             RetryServer.retries emailData + 1
        /\ 0 <= RetryServer.retries emailData <= 3)
  /\ (forall cfg now s i emailJob error,
         QueueServer.reachable cfg now s ->
         nth_error (QueueServer.loops s) i = Some (QueueServer.AwaitSendMail emailJob) ->
         QueueServer.is_rate_limit_error error = false ->
         exists s',
           QueueServer.step cfg s (QueueServer.SendMailReturns i (SendErr error)) = Some s'
           /\ QueueServer.settled s' =
                (QueueServer.handle emailJob,
                 QueueServer.Rejected "Failed to send email" (message error)
                                      (responseCode error))
                :: QueueServer.settled s
           /\ ~ In emailJob (QueueServer.emailQueue s')).
Proof.
  split.
  - intros cfg now s i d error Hr Hn.
    destruct (RetryServerFacts.failed_send_retry cfg now s i d error Hr Hn)
      as (s' & Hstep & Hq & _ & Hb & _).
    exists s'. repeat split; auto; apply Hb.
  - intros cfg now s i j error Hr Hn Herr.
    destruct (QueueServerFacts.permanent_failure_rejects cfg now s i j error Hr Hn Herr)
      as (s' & Hstep & Hs & _ & Hq).
    exists s'. auto.
Qed.

Lemma failed_send_retried_or_rejected_witness :
  (exists s',
      RetryServer.step RetryServerInvariants.rcfg1 retry_state_two_failures
        (RetryServer.SendMailReturns 0 (SendErr RetryServerInvariants.rejected_550)) = Some s'
      /\ map RetryServer.retries (RetryServer.emailQueue s') = [3])
  /\ (exists s',
         QueueServer.step QueueServerInvariants.cfg1 queue_state_first_send
           (QueueServer.SendMailReturns 0 (SendErr QueueServerInvariants.mailbox_unavailable))
         = Some s'
         /\ QueueServer.settled s' =
              [(0%nat, QueueServer.Rejected "Failed to send email"
                         "mailbox unavailable" (Some 550))]).
Proof.
  destruct failed_send_retried_or_rejected as [HR HQ]. split.
  - destruct (HR RetryServerInvariants.rcfg1 100000 retry_state_two_failures 0%nat
                (RetryServer.incr_retries
                   (RetryServer.incr_retries
                      (RetryServerInvariants.new_emailData RetryServerInvariants.rcfg1
                         RetryServerInvariants.rbody1 "ab12" "abcdefghi"
                         (RetryServer.init 100000))))
                RetryServerInvariants.rejected_550
                (RetryServerFacts.retry_run_reachable _ _ _ _
                   (RetryServer.reach_init _ _))
                eq_refl)
      as (s' & Hstep & Hq & _).
    exists s'. split; [exact Hstep|]. rewrite Hq. reflexivity.
  - destruct (HQ QueueServerInvariants.cfg1 5000 queue_state_first_send 0%nat
                (QueueServerInvariants.new_job
                   (QueueServerInvariants.mail_of QueueServerInvariants.cfg1 QueueServerInvariants.body1)
                   0 (QueueServer.init 5000))
                QueueServerInvariants.mailbox_unavailable
                (QueueServerFacts.run_reachable _ _ _ _ (QueueServer.reach_init _ _))
                eq_refl eq_refl)
      as (s' & Hstep & Hs & _).
    exists s'. split; [exact Hstep|]. rewrite Hs. reflexivity.
Defined.

(** C1 as stated fails on the promise-returning queue: the first failure of
    a fresh job, with the permanent error 550, rejects its handle at once;
    the job is not pushed to the back of the queue and no retry is counted. *)
Lemma first_permanent_failure_rejects_at_once :
  QueueServer.is_rate_limit_error QueueServerInvariants.mailbox_unavailable = false
  /\ QueueServerInvariants.invocations_of 0 (QueueServer.trace queue_state_first_send) = 1%nat
  /\ exists s',
       QueueServer.step QueueServerInvariants.cfg1 queue_state_first_send
         (QueueServer.SendMailReturns 0 (SendErr QueueServerInvariants.mailbox_unavailable))
       = Some s'
       /\ QueueServer.settled s' =
            [(0%nat, QueueServer.Rejected "Failed to send email"
                       "mailbox unavailable" (Some 550))]
       /\ QueueServer.emailQueue s' = []
       /\ QueueServer.loops s' = [].
Proof.
  split; [reflexivity|]. split; [reflexivity|].
  eexists. split; [reflexivity|]. repeat split; reflexivity.
Qed.


(** * The HTTP handlers *)

Lemma missing_fields_iff body :
  missing_fields body = true <->
  truthy (b_to body) = false \/ truthy (b_subject body) = false
  \/ (truthy (b_text body) = false /\ truthy (b_html body) = false).
Proof.
  unfold missing_fields.
  rewrite !orb_true_iff, andb_true_iff, !negb_true_iff. tauto.
Qed.

(** C5. [POST /send-email], in [src/server.js] and in the self-hosted
    server.  A body without [to], without [subject], or with neither [text]
    nor [html] is answered with 400 and the error message, and nothing is
    sent or queued.  With the fields present, [src/server.js] answers 500
    when [sendMail] throws; the self-hosted server makes a job with the
    request's mail and a new promise, which becomes the newest job the
    server holds (behind the one in flight and the ones queued), the drain
    loop is running, and the handler awaits that promise; when the send of
    a job fails with an error that is not a rate-limit error its promise,
    pending until then, is rejected, and the handler that awaits it answers
    500 with the failure detail. *)
Theorem send_email_400_and_500 body :
  (b_to body = JUndefined \/ b_subject body = JUndefined
   \/ (b_text body = JUndefined /\ b_html body = JUndefined) ->
   missing_fields body = true)
  /\ (missing_fields body = true ->
      (forall cfg sendMail,
          DirectServer.post_send_email cfg sendMail body
          = (bad_request_send_email, []))
      /\ (forall cfg rnd s,
             QueueServer.post_send_email cfg body rnd s
             = (inl bad_request_send_email, s)))
  /\ (missing_fields body = false ->
      (forall cfg sendMail error,
          sendMail (mkMailOptions (js_or (b_from body) (DirectServer.GMAIL_USER cfg))
                                  (to_field (b_to body)) (b_subject body)
                                  (b_text body) (b_html body)) = SendErr error ->
          DirectServer.post_send_email cfg sendMail body
          = (mkResponse 500
               (PError "Failed to send email" (Some (message error)) None),
             [mkMailOptions (js_or (b_from body) (DirectServer.GMAIL_USER cfg))
                            (to_field (b_to body)) (b_subject body)
                            (b_text body) (b_html body)]))
      /\ (forall cfg rnd s,
             fst (QueueServer.post_send_email cfg body rnd s)
             = inr (QueueServer.nextHandle s))
      /\ (forall cfg now s rnd,
             QueueServer.reachable cfg now s ->
             let s' := snd (QueueServer.post_send_email cfg body rnd s) in
             let emailJob :=
               QueueServer.mkJob (inject_Z (QueueServer.clock s) + rnd)%Q
                 (mkMailOptions
                    (js_or (b_from body)
                           (js_or (QueueServer.SMTP_FROM cfg) (QueueServer.SMTP_USER cfg)))
                    (to_field (b_to body)) (b_subject body)
                    (b_text body) (b_html body))
                 (QueueServer.nextHandle s) (QueueServer.clock s) in
             flat_map QueueServerInvariants.held (QueueServer.loops s')
               ++ QueueServer.emailQueue s'
             = flat_map QueueServerInvariants.held (QueueServer.loops s)
               ++ QueueServer.emailQueue s ++ [emailJob]
             /\ QueueServer.nextHandle s' = S (QueueServer.nextHandle s)
             /\ QueueServer.settled s' = QueueServer.settled s
             /\ QueueServer.awaited_reply (QueueServer.nextHandle s) s' = None
             /\ QueueServer.isProcessingQueue s' = true
             /\ exists k, QueueServer.loops s' = [k])
      /\ (forall cfg now s i emailJob error,
             QueueServer.reachable cfg now s ->
             nth_error (QueueServer.loops s) i
             = Some (QueueServer.AwaitSendMail emailJob) ->
             QueueServer.is_rate_limit_error error = false ->
             exists s' o,
               QueueServer.step cfg s
                 (QueueServer.SendMailReturns i (SendErr error)) = Some s'
               /\ QueueServer.settled s'
                  = (QueueServer.handle emailJob, o) :: QueueServer.settled s
               /\ QueueServer.send_email_reply o
                  = mkResponse 500
                      (PError "Failed to queue email" (Some (message error))
                              (responseCode error))
               /\ QueueServer.awaited_reply (QueueServer.handle emailJob) s = None
               /\ QueueServer.awaited_reply (QueueServer.handle emailJob) s'
                  = Some (mkResponse 500
                            (PError "Failed to queue email" (Some (message error))
                                    (responseCode error))))).
Proof.
  split; [|split].
  - intros H. apply missing_fields_iff.
    destruct H as [->|[->|[-> ->]]]; simpl; auto.
  - intros Hm. split.
    + intros cfg sendMail. unfold DirectServer.post_send_email. now rewrite Hm.
    + intros cfg rnd s. unfold QueueServer.post_send_email. now rewrite Hm.
  - intros Hm. split; [|split; [|split]].
    + intros cfg sendMail error Herr.
      unfold DirectServer.post_send_email. rewrite Hm, Herr. reflexivity.
    + intros cfg rnd s. unfold QueueServer.post_send_email. rewrite Hm.
      reflexivity.
    + intros cfg now s rnd Hr.
      destruct (QueueServerFacts.post_queues_job cfg now s body rnd Hr Hm)
        as (_ & Hn & Hheld & Hs & Hpend & Hflag & Hloop).
      cbv zeta. repeat split; assumption.
    + intros cfg now s i j error Hr Hn Herr.
      destruct (QueueServerFacts.permanent_failure_rejects cfg now s i j error Hr Hn Herr)
        as (s' & Hstep & Hs & _).
      destruct (QueueServerFacts.permanent_failure_replies cfg now s i j error Hr Hn Herr)
        as (s'' & Hstep' & Hbefore & Hafter).
      assert (s'' = s') by congruence. subst s''.
      exists s'. eexists. split; [exact Hstep|]. split; [exact Hs|].
      split; [reflexivity|]. split; assumption.
Qed.

Lemma send_email_400_and_500_witness :
  DirectServer.post_send_email (DirectServer.mkConfig (JStr "me@gmail.com"))
    (fun _ => SendOk "<never@sent>")
    (mkBody (JStr "ann@example.org") JUndefined (JStr "text") JUndefined JUndefined)
  = (bad_request_send_email, [])
  /\ status (fst (DirectServer.post_send_email
                    (DirectServer.mkConfig (JStr "me@gmail.com"))
                    (fun _ => SendErr QueueServerInvariants.mailbox_unavailable)
                    QueueServerInvariants.body1)) = 500
  /\ flat_map QueueServerInvariants.held (QueueServer.loops queue_state_first_send)
       ++ QueueServer.emailQueue queue_state_first_send
     = [QueueServer.mkJob (inject_Z 5000 + 0)%Q
          (mkMailOptions (JStr "noreply@example.org") (JStr "ann@example.org")
                         (JStr "hello") (JStr "text") JUndefined)
          0 5000]
  /\ QueueServer.awaited_reply 0 queue_state_first_send = None
  /\ exists s',
       QueueServer.step QueueServerInvariants.cfg1 queue_state_first_send
         (QueueServer.SendMailReturns 0
            (SendErr QueueServerInvariants.mailbox_unavailable)) = Some s'
       /\ QueueServer.awaited_reply 0 s'
          = Some (mkResponse 500
                    (PError "Failed to queue email" (Some "mailbox unavailable")
                            (Some 550))).
Proof.
  split; [|split; [|split; [|split]]].
  - destruct (send_email_400_and_500
                (mkBody (JStr "ann@example.org") JUndefined (JStr "text")
                        JUndefined JUndefined)) as (Hmiss & H400 & _).
    apply (H400 (Hmiss (or_intror (or_introl eq_refl)))).
  - destruct (send_email_400_and_500 QueueServerInvariants.body1) as (_ & _ & H500).
    destruct (H500 eq_refl) as (Hdirect & _).
    rewrite (Hdirect (DirectServer.mkConfig (JStr "me@gmail.com"))
               (fun _ => SendErr QueueServerInvariants.mailbox_unavailable)
               QueueServerInvariants.mailbox_unavailable eq_refl).
    reflexivity.
  - destruct (send_email_400_and_500 QueueServerInvariants.body1) as (_ & _ & H500).
    destruct (H500 eq_refl) as (_ & _ & Hqueued & _).
    pose proof (Hqueued QueueServerInvariants.cfg1 5000 (QueueServer.init 5000) 0%Q
                  (QueueServer.reach_init _ _)) as H.
    cbv zeta in H. destruct H as (Hheld & _). exact Hheld.
  - destruct (send_email_400_and_500 QueueServerInvariants.body1) as (_ & _ & H500).
    destruct (H500 eq_refl) as (_ & _ & Hqueued & _).
    pose proof (Hqueued QueueServerInvariants.cfg1 5000 (QueueServer.init 5000) 0%Q
                  (QueueServer.reach_init _ _)) as H.
    cbv zeta in H. destruct H as (_ & _ & _ & Hpend & _). exact Hpend.
  - destruct (send_email_400_and_500 QueueServerInvariants.body1) as (_ & _ & H500).
    destruct (H500 eq_refl) as (_ & _ & _ & Hfail).
    destruct (Hfail QueueServerInvariants.cfg1 5000 queue_state_first_send 0%nat
                (QueueServerInvariants.new_job
                   (QueueServerInvariants.mail_of QueueServerInvariants.cfg1
                      QueueServerInvariants.body1)
                   0 (QueueServer.init 5000))
                QueueServerInvariants.mailbox_unavailable
                (QueueServerFacts.run_reachable _ _ _ _ (QueueServer.reach_init _ _))
                eq_refl eq_refl)
      as (s' & o & Hstep & _ & _ & _ & Hreply).
    exists s'. split; [exact Hstep | exact Hreply].
Defined.

(** *** [POST /send-bulk-email] *)

Lemma collect_filter recipients : forall emailResults index results errors,
  collect recipients emailResults index results errors =
  (results ++ filter be_success
                (map_indexed (entry_of recipients) emailResults index),
   errors ++ filter (fun e => negb (be_success e))
               (map_indexed (entry_of recipients) emailResults index)).
Proof.
  induction emailResults as [|r tl IH]; intros index results errors; simpl.
  - now rewrite !app_nil_r.
  - destruct r as [v|m]; simpl.
    + destruct (be_success v); simpl; rewrite IH, <- app_assoc; reflexivity.
    + rewrite IH, <- app_assoc. reflexivity.
Qed.

Lemma filter_split_Permutation {A} (p : A -> bool) (l : list A) :
  Permutation (filter p l ++ filter (fun x => negb (p x)) l) l.
Proof.
  induction l as [|x l IH]; simpl; [constructor|].
  destruct (p x); simpl.
  - now constructor.
  - apply Permutation_sym, Permutation_cons_app, Permutation_sym, IH.
Qed.

Lemma map_indexed_map_indexed {A B C} (f : A -> nat -> B) (g : B -> nat -> C) l :
  forall index,
    map_indexed g (map_indexed f l index) index
    = map_indexed (fun x i => g (f x i) i) l index.
Proof.
  induction l as [|x l IH]; intros index; simpl; [reflexivity|]. now rewrite IH.
Qed.

Lemma map_indexed_index {A B} (f : A -> nat -> B) (idx : B -> nat) l :
  (forall x i, idx (f x i) = i) ->
  forall index, map idx (map_indexed f l index) = seq index (List.length l).
Proof.
  intros Hf. induction l as [|x l IH]; intros index; simpl; [reflexivity|].
  now rewrite Hf, IH.
Qed.

Lemma map_indexed_In {A B} (f : A -> nat -> B) l y : forall index,
  In y (map_indexed f l index) ->
  exists i x, nth_error l i = Some x /\ y = f x (index + i)%nat.
Proof.
  induction l as [|x l IH]; intros index; simpl; [intros []|].
  intros [<-|Hin].
  - exists 0%nat, x. split; [reflexivity|]. now rewrite Nat.add_0_r.
  - destruct (IH _ Hin) as (i & x' & Hn & ->).
    exists (S i), x'. split; [exact Hn|]. f_equal. lia.
Qed.

Lemma map_indexed_length {A B} (f : A -> nat -> B) l : forall index,
  List.length (map_indexed f l index) = List.length l.
Proof. induction l; intros; simpl; auto. Qed.

Lemma send_bulk_email_valid default_from sendMail body recipients :
  bb_recipients body = JArr recipients ->
  recipients <> [] ->
  truthy (bb_subject body) = true ->
  truthy (bb_text body) || truthy (bb_html body) = true ->
  send_bulk_email default_from sendMail body =
  (let entries := bulk_entries default_from sendMail body recipients in
   let results := filter be_success entries in
   let errors := filter (fun e => negb (be_success e)) entries in
   mkResponse 200 (PBulk (List.length results) (List.length errors) results errors),
   map (bulk_mailOptions default_from body) recipients).
Proof.
  intros Hr Hne Hs Htb. unfold send_bulk_email. rewrite Hr.
  destruct recipients as [|r0 rs]; [congruence|].
  cbn [List.length Nat.eqb]. rewrite Hs.
  apply orb_true_iff in Htb.
  replace (negb (truthy (bb_text body)) && negb (truthy (bb_html body)))
    with false by (destruct Htb as [-> | ->]; simpl; auto using andb_false_r).
  cbn [negb orb].
  rewrite collect_filter. cbn [app].
  rewrite map_indexed_map_indexed. reflexivity.
Qed.

Lemma bulk_entry_shape default_from sendMail body recipients e :
  In e (bulk_entries default_from sendMail body recipients) ->
  nth_error recipients (be_index e) = Some (be_recipient e)
  /\ match sendMail (be_index e)
             (bulk_mailOptions default_from body (be_recipient e)) with
     | SendOk messageId =>
         be_success e = true /\ be_messageId e = Some messageId
     | SendErr error =>
         be_success e = false /\ be_error e = Some (message error)
     end.
Proof.
  unfold bulk_entries. intros Hin.
  apply map_indexed_In in Hin as (i & x & Hn & ->). simpl.
  unfold bulk_task.
  destruct (sendMail i (bulk_mailOptions default_from body x)) eqn:Hsend;
    simpl; rewrite Hsend; auto.
Qed.

(** C7. A valid [POST /send-bulk-email] with a non-empty [recipients] array.
    The handler calls the transport once per recipient, all calls made before
    any result is looked at, and never touches the queue.  The call for
    position [index] carries the mail to that recipient alone: [to] is
    [recipients[index]], [subject], [text] and [html] are the body's, [from]
    is the body's or the default sender.  In the reply every
    position of [recipients] appears exactly once across [results] and
    [errors], with its recipient; it is in [results] when its send succeeded
    and in [errors] when it failed; [totalSent] and [totalErrors] are the
    lengths of the two lists and add up to the number of recipients. *)
Theorem bulk_reply_lists_every_recipient_once default_from sendMail body recipients :
  bb_recipients body = JArr recipients ->
  recipients <> [] ->
  truthy (bb_subject body) = true ->
  truthy (bb_text body) || truthy (bb_html body) = true ->
  exists results errors,
    send_bulk_email default_from sendMail body
    = (mkResponse 200
         (PBulk (List.length results) (List.length errors) results errors),
       map (bulk_mailOptions default_from body) recipients)
    /\ (forall index recipient,
           nth_error recipients index = Some recipient ->
           nth_error (snd (send_bulk_email default_from sendMail body)) index
           = Some (mkMailOptions (js_or (bb_from body) default_from) recipient
                                 (bb_subject body) (bb_text body) (bb_html body)))
    /\ List.length (snd (send_bulk_email default_from sendMail body))
       = List.length recipients
    /\ (List.length results + List.length errors = List.length recipients)%nat
    /\ Permutation (map be_index (results ++ errors))
                   (seq 0 (List.length recipients))
    /\ (forall e, In e (results ++ errors) ->
                  nth_error recipients (be_index e) = Some (be_recipient e))
    /\ (forall e, In e results ->
                  be_success e = true
                  /\ exists messageId,
                       sendMail (be_index e)
                         (mkMailOptions (js_or (bb_from body) default_from)
                                        (be_recipient e) (bb_subject body)
                                        (bb_text body) (bb_html body))
                       = SendOk messageId
                       /\ be_messageId e = Some messageId)
    /\ (forall e, In e errors ->
                  be_success e = false
                  /\ exists error,
                       sendMail (be_index e)
                         (mkMailOptions (js_or (bb_from body) default_from)
                                        (be_recipient e) (bb_subject body)
                                        (bb_text body) (bb_html body))
                       = SendErr error
                       /\ be_error e = Some (message error))
    /\ (forall cfg, DirectServer.post_send_bulk_email cfg sendMail body
                    = send_bulk_email (DirectServer.GMAIL_USER cfg) sendMail body)
    /\ (forall cfg s,
           QueueServer.post_send_bulk_email cfg sendMail body s
           = (send_bulk_email
                (js_or (QueueServer.SMTP_FROM cfg) (QueueServer.SMTP_USER cfg))
                sendMail body, s)).
Proof.
  intros Hr Hne Hs Htb.
  set (entries := bulk_entries default_from sendMail body recipients).
  exists (filter be_success entries),
         (filter (fun e => negb (be_success e)) entries).
  assert (Hperm : Permutation
                    (filter be_success entries
                       ++ filter (fun e => negb (be_success e)) entries) entries)
    by apply filter_split_Permutation.
  assert (Hlen : List.length entries = List.length recipients)
    by apply map_indexed_length.
  assert (Hidx : map be_index entries = seq 0 (List.length recipients)).
  { unfold entries, bulk_entries. apply map_indexed_index.
    intros x i. unfold bulk_task. destruct (sendMail i _); reflexivity. }
  pose proof (send_bulk_email_valid default_from sendMail body recipients
                Hr Hne Hs Htb) as Hvalid.
  split; [exact Hvalid|].
  split.
  { intros index recipient Hn. rewrite Hvalid. cbn [snd].
    rewrite nth_error_map, Hn. reflexivity. }
  split; [rewrite Hvalid; cbn [snd]; apply length_map|].
  split; [rewrite <- length_app, (Permutation_length Hperm); exact Hlen|].
  split; [rewrite <- Hidx; now apply Permutation_map|].
  split.
  { intros e Hin. apply (Permutation_in _ Hperm) in Hin.
    now apply (bulk_entry_shape default_from sendMail body recipients). }
  split.
  { intros e Hin. apply filter_In in Hin as [Hin Hok].
    split; [exact Hok|].
    apply bulk_entry_shape in Hin as [_ Hshape].
    unfold bulk_mailOptions in Hshape.
    destruct (sendMail (be_index e) _) as [m|err].
    - exists m. split; [reflexivity | apply Hshape].
    - destruct Hshape as [Hf _]. congruence. }
  split.
  { intros e Hin. apply filter_In in Hin as [Hin Hok].
    apply negb_true_iff in Hok. split; [exact Hok|].
    apply bulk_entry_shape in Hin as [_ Hshape].
    unfold bulk_mailOptions in Hshape.
    destruct (sendMail (be_index e) _) as [m|err].
    - destruct Hshape as [Hf _]. congruence.
    - exists err. split; [reflexivity | apply Hshape]. }
  split; reflexivity.
Qed.

Lemma bulk_reply_lists_every_recipient_once_witness :
  exists results errors,
    send_bulk_email (JStr "me@gmail.com") sendMail1 bulk_body1
    = (mkResponse 200 (PBulk 2 1 results errors),
       map (bulk_mailOptions (JStr "me@gmail.com") bulk_body1)
           [JStr "ann@example.org"; JStr "bob@example.org"; JStr "cy@example.org"])
    /\ map be_index results = [0; 2]%nat /\ map be_index errors = [1%nat]
    /\ nth_error (snd (send_bulk_email (JStr "me@gmail.com") sendMail1 bulk_body1)) 1
       = Some (mkMailOptions (JStr "me@gmail.com") (JStr "bob@example.org")
                             (JStr "hello") (JStr "text") JUndefined).
Proof.
  destruct (bulk_reply_lists_every_recipient_once (JStr "me@gmail.com") sendMail1
              bulk_body1
              [JStr "ann@example.org"; JStr "bob@example.org"; JStr "cy@example.org"]
              eq_refl ltac:(discriminate) eq_refl eq_refl)
    as (results & errors & Hreply & Hmail & _).
  exists results, errors.
  pose proof (Hmail 1%nat (JStr "bob@example.org") eq_refl) as Hbob.
  assert (Hcomp : send_bulk_email (JStr "me@gmail.com") sendMail1 bulk_body1
                  = (mkResponse 200
                       (PBulk 2 1
                          [mkBulkEntry 0 (JStr "ann@example.org") true
                                       (Some "<ok@example.org>") None;
                           mkBulkEntry 2 (JStr "cy@example.org") true
                                       (Some "<ok@example.org>") None]
                          [mkBulkEntry 1 (JStr "bob@example.org") false None
                                       (Some "mailbox unavailable")]),
                     map (bulk_mailOptions (JStr "me@gmail.com") bulk_body1)
                         [JStr "ann@example.org"; JStr "bob@example.org";
                          JStr "cy@example.org"]))
    by reflexivity.
  rewrite Hcomp in Hreply. inversion Hreply; subst.
  repeat split; try exact Hbob; reflexivity.
Defined.

(** * More of the promise-returning queue *)

Module QueueServerOrder.
Import QueueServer QueueServerInvariants QueueServerTrace.

Lemma prefix_iff sub : forall s,
  String.prefix sub s = true <-> exists post, s = (sub ++ post)%string.
Proof.
  induction sub as [|a sub IH]; intros s.
  - destruct s; simpl; (split; [intros _; eexists; reflexivity | reflexivity]).
  - destruct s as [|b s]; simpl.
    + split; [discriminate | intros [post H]; discriminate].
    + destruct (Ascii.ascii_dec a b) as [->|Hne].
      * rewrite IH. split; intros [post H]; exists post.
        -- now rewrite H.
        -- now inversion H.
      * split; [discriminate | intros [post H]; inversion H; subst; now contradiction Hne].
Qed.

(** [includes] is [String.prototype.includes]: [sub] occurs somewhere in [s]. *)
Lemma includes_iff sub : forall s,
  includes s sub = true <-> exists pre post, s = (pre ++ sub ++ post)%string.
Proof.
  induction s as [|c s IH].
  - cbn [includes]. destruct (String.prefix sub "") eqn:Hp.
    + split; [intros _|reflexivity].
      apply prefix_iff in Hp as [post H]. now exists "", post.
    + split; [discriminate|]. intros (pre & post & H).
      assert (String.prefix sub "" = true); [|congruence].
      apply prefix_iff. destruct pre; [now exists post | discriminate].
  - cbn [includes]. destruct (String.prefix sub (String c s)) eqn:Hp.
    + split; [intros _|reflexivity].
      apply prefix_iff in Hp as [post H]. now exists "", post.
    + rewrite IH. split.
      * intros (pre & post & ->). now exists (String c pre), post.
      * intros (pre & post & H). destruct pre as [|c' pre].
        -- assert (String.prefix sub (String c s) = true); [|congruence].
           apply prefix_iff. now exists post.
        -- inversion H. now exists pre, post.
Qed.


(** X1. How the drain loop sorts a failed send.  The answer of the transport
    is always taken.  When the error has response code 421, or has "421" or
    "rate" anywhere in its message, whatever its code (a permanent 550
    whose text has the word "separate" in it, say), the job goes back to the
    front of the queue, its promise stays pending and the loop waits for
    [RETRY_DELAY].  When it has none of the three, the promise is rejected in
    that step with the error's message and code, and the job is gone. *)
Theorem failed_send_sorted_by_code_and_text cfg now s i emailJob error :
  reachable cfg now s ->
  nth_error (loops s) i = Some (AwaitSendMail emailJob) ->
  exists s',
    step cfg s (SendMailReturns i (SendErr error)) = Some s'
    /\ (responseCode error = Some 421
        \/ (exists pre post, message error = (pre ++ "421" ++ post)%string)
        \/ (exists pre post, message error = (pre ++ "rate" ++ post)%string) ->
        emailQueue s' = emailJob :: emailQueue s
        /\ settled s' = settled s
        /\ loops s' = [AwaitRetryDelay (clock s + RETRY_DELAY cfg)])
    /\ (responseCode error <> Some 421 ->
        (forall pre post, message error <> (pre ++ "421" ++ post)%string) ->
        (forall pre post, message error <> (pre ++ "rate" ++ post)%string) ->
        settled s' =
          (handle emailJob,
           Rejected "Failed to send email" (message error) (responseCode error))
          :: settled s
        /\ ~ In emailJob (emailQueue s')
        /\ ~ In (handle emailJob) (live s')).
Proof.
  intros Hr Hn.
  destruct (is_rate_limit_error error) eqn:Herr.
  - destruct (QueueServerFacts.reachable_Single _ _ _ Hr) as [(Hl&_&_)|(k&Hl&Hf)];
      rewrite Hl in Hn; [destruct i; discriminate|].
    apply QueueServerFacts.nth_error_single in Hn as [-> Hk]. subst k.
    rewrite (QueueServerFacts.rate_limited_step cfg s emailJob error Hl Herr).
    eexists. split; [reflexivity|]. split.
    + intros _. simpl. auto.
    + intros Hc H421 Hrate. exfalso.
      apply QueueServerFacts.is_rate_limit_error_iff in Herr.
      rewrite !includes_iff in Herr.
      destruct Herr as [H|[(pre & post & H)|(pre & post & H)]].
      * contradiction.
      * exact (H421 _ _ H).
      * exact (Hrate _ _ H).
  - destruct (QueueServerFacts.permanent_failure_rejects cfg now s i emailJob error
                Hr Hn Herr) as (s' & Hstep & Hs & Hlive & Hq).
    exists s'. split; [exact Hstep|]. split.
    + intros H. exfalso.
      assert (Ht : is_rate_limit_error error = true).
      { apply QueueServerFacts.is_rate_limit_error_iff.
        rewrite !includes_iff. exact H. }
      congruence.
    + intros _ _ _. auto.
Qed.

Lemma failed_send_sorted_by_code_and_text_witness :
  exists s',
    step cfg1 (run cfg1 (init 5000) [PostSendEmail body1 0])
      (SendMailReturns 0
         (SendErr (mkSmtpError (Some 550) "use a separate mailbox"))) = Some s'
    /\ map handle (emailQueue s') = [0%nat]
    /\ settled s' = []
    /\ loops s' = [AwaitRetryDelay 35000].
Proof.
  destruct (failed_send_sorted_by_code_and_text cfg1 5000
              (run cfg1 (init 5000) [PostSendEmail body1 0]) 0%nat
              (new_job (mail_of cfg1 body1) 0 (init 5000))
              (mkSmtpError (Some 550) "use a separate mailbox")
              (QueueServerFacts.run_reachable cfg1 5000 _ _ (reach_init cfg1 5000))
              eq_refl)
    as (s' & Hstep & Hrequeue & _).
  exists s'. split; [exact Hstep|].
  destruct (Hrequeue (or_intror (or_intror
              (ex_intro _ "use a sepa"
                 (ex_intro _ " mailbox" eq_refl)))))
    as (Hq & Hs & Hl).
  rewrite Hq, Hs, Hl. repeat split; reflexivity.
Defined.

Lemma ledger_same s s' :
  live s' = live s -> settled s' = settled s -> nextHandle s' = nextHandle s ->
  ledger s = seq 0 (nextHandle s) -> ledger s' = seq 0 (nextHandle s').
Proof.
  unfold ledger, settled_handles. intros -> -> ->. auto.
Qed.

Lemma ledger_settle s s' h o q :
  live s = h :: map handle q -> live s' = map handle q ->
  settled s' = (h, o) :: settled s -> nextHandle s' = nextHandle s ->
  ledger s = seq 0 (nextHandle s) -> ledger s' = seq 0 (nextHandle s').
Proof.
  unfold ledger, settled_handles. intros Hl -> -> ->. rewrite Hl. simpl.
  now rewrite <- app_assoc.
Qed.

Lemma ledger_push s s' :
  live s' = live s ++ [nextHandle s] -> settled s' = settled s ->
  nextHandle s' = S (nextHandle s) ->
  ledger s = seq 0 (nextHandle s) -> ledger s' = seq 0 (nextHandle s').
Proof.
  unfold ledger, settled_handles. intros -> -> -> H.
  rewrite app_assoc, H, seq_S. reflexivity.
Qed.

Lemma Canon_ledger cfg s e s' :
  Canon cfg s e s' ->
  ledger s = seq 0 (nextHandle s) -> ledger s' = seq 0 (nextHandle s').
Proof.
  intros HC.
  destruct HC as [dt | body rnd Hm | body rnd k Hm Hl Hf
                 | body rnd s' Hm Hl Hf Hq HN | j due Hl Hf Hdue
                 | due s' Hl Hf Hdue HN | j mid s' Hl Hf HN
                 | j err Hl Hf Hr | j err s' Hl Hf Hr HN].
  - now apply ledger_same.
  - auto.
  - apply ledger_push; auto. unfold live; simpl.
    rewrite app_assoc, map_app. reflexivity.
  - apply QueueServerFacts.Next_live in HN as (Hl' & Hs' & Hn'); simpl in *.
    apply ledger_push; auto.
    unfold live at 2. rewrite Hl, Hq. simpl. assumption.
  - apply ledger_same; auto. unfold live; simpl. now rewrite Hl.
  - apply QueueServerFacts.Next_live in HN as (Hl' & Hs' & Hn').
    apply ledger_same; auto. rewrite Hl'. unfold live. now rewrite Hl.
  - apply QueueServerFacts.Next_live in HN as (Hl' & Hs' & Hn'); simpl in *.
    eapply ledger_settle; eauto. unfold live. now rewrite Hl.
  - apply ledger_same; auto. unfold live; simpl. now rewrite Hl.
  - apply QueueServerFacts.Next_live in HN as (Hl' & Hs' & Hn'); simpl in *.
    eapply ledger_settle; eauto. unfold live. now rewrite Hl.
Qed.

Lemma reachable_ledger cfg now s :
  reachable cfg now s -> ledger s = seq 0 (nextHandle s).
Proof.
  induction 1 as [|s e s' Hr IH Hstep]; [reflexivity|].
  apply (Canon_ledger cfg s e s'); [|exact IH].
  apply QueueServerFacts.step_Canon; [|exact Hstep].
  eapply QueueServerFacts.reachable_Single; eassumption.
Qed.

(** X2. Promises are settled in the order the requests came.  In every
    reachable state the handles settled so far, in the order they were
    settled, followed by the handle in flight and the queued ones from
    front to back, are exactly 0, 1, ..., [nextHandle - 1]: no promise is
    lost, none is settled before an older one, and the queue holds the
    waiting jobs oldest first. *)
Theorem promises_settled_in_request_order cfg now s :
  reachable cfg now s ->
  rev (settled_handles s) ++ live s = seq 0 (nextHandle s).
Proof.
  induction 1 as [|s e s' Hr IH Hstep]; [reflexivity|].
  apply (Canon_ledger cfg s e s'); [|exact IH].
  apply QueueServerFacts.step_Canon; [|exact Hstep].
  eapply QueueServerFacts.reachable_Single; eassumption.
Qed.

Lemma promises_settled_in_request_order_witness :
  let s := run cfg1 (init 5000)
             [PostSendEmail body1 0; PostSendEmail body1 0; PostSendEmail body1 0;
              SendMailReturns 0 (SendErr too_many); Tick 30000; TimerFires 0;
              SendMailReturns 0 (SendOk "<m0@example.org>")] in
  settled_handles s = [0%nat] /\ live s = [1%nat; 2%nat]
  /\ rev (settled_handles s) ++ live s = [0%nat; 1%nat; 2%nat].
Proof.
  split; [reflexivity|]. split; [reflexivity|].
  exact (promises_settled_in_request_order cfg1 5000 _
           (QueueServerFacts.run_reachable cfg1 5000 _ _ (reach_init cfg1 5000))).
Defined.

(** X3. An idle server owes nothing: when [isProcessingQueue] is clear the
    queue is empty, no loop is suspended, and every promise made so far has
    been resolved or rejected. *)
Theorem idle_server_has_settled_every_promise cfg now s :
  reachable cfg now s ->
  isProcessingQueue s = false ->
  emailQueue s = [] /\ loops s = []
  /\ rev (settled_handles s) = seq 0 (nextHandle s)
  /\ List.length (settled s) = nextHandle s.
Proof.
  intros Hr Hf.
  pose proof (reachable_ledger cfg now s Hr) as HL. unfold ledger in HL.
  destruct (QueueServerFacts.reachable_Single _ _ _ Hr) as [(Hl&_&Hq)|(k&_&Hf')];
    [|congruence].
  unfold live in HL. rewrite Hl, Hq, app_nil_r in HL. simpl in HL.
  assert (Hlen : List.length (rev (settled_handles s)) = nextHandle s)
    by (rewrite HL; apply length_seq).
  rewrite length_rev in Hlen. unfold settled_handles in Hlen.
  rewrite length_map in Hlen.
  repeat split; auto.
Qed.


Lemma idle_server_has_settled_every_promise_witness :
  let s := run cfg1 (init 5000)
             [PostSendEmail body1 0; PostSendEmail body1 0;
              SendMailReturns 0 (SendErr mailbox_unavailable);
              SendMailReturns 0 (SendOk "<m1@example.org>")] in
  emailQueue s = [] /\ List.length (settled s) = 2%nat.
Proof.
  destruct (idle_server_has_settled_every_promise cfg1 5000
              (run cfg1 (init 5000)
                 [PostSendEmail body1 0; PostSendEmail body1 0;
                  SendMailReturns 0 (SendErr mailbox_unavailable);
                  SendMailReturns 0 (SendOk "<m1@example.org>")])
              (QueueServerFacts.run_reachable cfg1 5000 _ _ (reach_init cfg1 5000))
              eq_refl) as (Hq & _ & _ & Hlen).
  exact (conj Hq Hlen).
Defined.

(** *** One send at a time *)

Lemma Next_Serialized cfg s s' :
  Completed (trace s) -> Next cfg s s' -> Serialized s'.
Proof.
  intros HC HN. destruct HN as [Hq | j rest Hq Hlt | j rest Hq Hge];
    unfold Serialized; simpl; auto.
  exists (clock s), (trace s). repeat split; auto. lia.
Qed.

Lemma Canon_Serialized cfg s e s' :
  Serialized s -> Canon cfg s e s' -> Serialized s'.
Proof.
  intros HS HC.
  destruct HC as [dt | body rnd Hm | body rnd k Hm Hl Hf
                 | body rnd s' Hm Hl Hf Hq HN | j due Hl Hf Hdue
                 | due s' Hl Hf Hdue HN | j mid s' Hl Hf HN
                 | j err Hl Hf Hr | j err s' Hl Hf Hr HN];
    unfold Serialized in HS; try rewrite Hl in HS.
  - unfold Serialized. simpl.
    destruct (loops s) as [|[j d|j|d] [|]]; auto.
    destruct HS as (c & older & Ht & Hc & Hcomp).
    exists c, older. repeat split; auto. lia.
  - exact HS.
  - unfold Serialized. simpl. rewrite Hl. exact HS.
  - eapply Next_Serialized; [|eassumption]. exact HS.
  - unfold Serialized. simpl.
    exists (clock s), (trace s). repeat split; auto. lia.
  - eapply Next_Serialized; [|eassumption]. exact HS.
  - destruct HS as (c & older & Ht & Hc & Hcomp).
    eapply Next_Serialized; [|eassumption]. simpl. rewrite Ht.
    now constructor.
  - destruct HS as (c & older & Ht & Hc & Hcomp).
    unfold Serialized. simpl. rewrite Ht. now constructor.
  - destruct HS as (c & older & Ht & Hc & Hcomp).
    eapply Next_Serialized; [|eassumption]. simpl. rewrite Ht.
    now constructor.
Qed.

Lemma reachable_Serialized cfg now s : reachable cfg now s -> Serialized s.
Proof.
  induction 1 as [|s e s' Hr IH Hstep]; [constructor|].
  eapply Canon_Serialized; [exact IH|].
  apply QueueServerFacts.step_Canon; [|exact Hstep].
  eapply QueueServerFacts.reachable_Single; eassumption.
Qed.

Lemma Completed_returned tr :
  Completed tr ->
  forall newer emailJob t r rest,
    tr = newer ++ Returned emailJob t r :: rest ->
    exists called older,
      rest = Invoked emailJob called :: older /\ called <= t /\ Completed older.
Proof.
  induction 1 as [|j c t2 r2 older Hle Hcomp IH]; intros newer j' t r rest Heq.
  - destruct newer; discriminate.
  - destruct newer as [|a [|b newer]]; simpl in Heq; inversion Heq; subst.
    + eauto.
    + eapply IH; eauto.
Qed.

Lemma Completed_invoked tr :
  Completed tr ->
  forall newer emailJob t rest,
    tr = newer ++ Invoked emailJob t :: rest ->
    Completed rest
    /\ exists returned r newer',
         newer = newer' ++ [Returned emailJob returned r] /\ t <= returned.
Proof.
  induction 1 as [|j c t2 r2 older Hle Hcomp IH]; intros newer j' t rest Heq.
  - destruct newer; discriminate.
  - destruct newer as [|a [|b newer]]; simpl in Heq; inversion Heq; subst.
    + split; [assumption|]. exists t2, r2, []. auto.
    + destruct (IH _ _ _ _ eq_refl) as (Hc & t' & r' & newer' & -> & Hle').
      split; [assumption|].
      exists t', r', (Returned j t2 r2 :: Invoked j c :: newer'). auto.
Qed.

(** X4. Sends are strictly one at a time.  In the transport trace of a
    reachable state every return answers the call made just before it, for
    the same job and no earlier than that call; what precedes a call is a
    return (or nothing), never another call; and a call is unanswered
    exactly when the loop is suspended in [await sendMail], for that job. *)
Theorem sends_are_serialized cfg now s :
  reachable cfg now s ->
  (forall newer emailJob t r rest,
      trace s = newer ++ Returned emailJob t r :: rest ->
      exists called older, rest = Invoked emailJob called :: older /\ called <= t)
  /\ (forall newer emailJob t e rest,
         trace s = newer ++ Invoked emailJob t :: e :: rest ->
         exists j' t' r, e = Returned j' t' r)
  /\ (forall emailJob,
         loops s = [AwaitSendMail emailJob] ->
         exists t older, trace s = Invoked emailJob t :: older /\ t <= clock s)
  /\ (forall emailJob t older,
         trace s = Invoked emailJob t :: older ->
         loops s = [AwaitSendMail emailJob]).
Proof.
  intros Hr. pose proof (reachable_Serialized _ _ _ Hr) as HS.
  unfold Serialized in HS.
  assert (Hshape :
            (exists j c older, loops s = [AwaitSendMail j]
                               /\ trace s = Invoked j c :: older
                               /\ c <= clock s /\ Completed older)
            \/ ((forall j, loops s <> [AwaitSendMail j]) /\ Completed (trace s))).
  { destruct (loops s) as [|[j d|j|d] [|]];
      try (right; split; [intros j0 H0; discriminate | exact HS]).
    destruct HS as (c & older & Ht & Hle & Hc). left. exists j, c, older. auto. }
  clear HS. split; [|split; [|split]].
  - intros newer j t r rest Ht.
    destruct Hshape as [(j0 & c & older & Hl & Ht0 & _ & Hc)|[_ Hc]].
    + rewrite Ht0 in Ht. destruct newer as [|a newer]; [discriminate|].
      inversion Ht; subst.
      destruct (Completed_returned _ Hc _ _ _ _ _ eq_refl) as (c' & o' & -> & Hle & _).
      eauto.
    + destruct (Completed_returned _ Hc _ _ _ _ _ Ht) as (c' & o' & -> & Hle & _).
      eauto.
  - intros newer j t e rest Ht.
    assert (Hrest : Completed (e :: rest)).
    { destruct Hshape as [(j0 & c & older & Hl & Ht0 & _ & Hc)|[_ Hc]].
      - rewrite Ht0 in Ht. destruct newer as [|a newer]; inversion Ht; subst.
        + assumption.
        + apply (Completed_invoked _ Hc _ _ _ _ eq_refl).
      - apply (Completed_invoked _ Hc _ _ _ _ Ht). }
    inversion Hrest; subst. eauto.
  - intros j Hl.
    destruct Hshape as [(j0 & c & older & Hl0 & Ht0 & Hle & _)|[Hno _]].
    + rewrite Hl0 in Hl. inversion Hl; subst. eauto.
    + now apply Hno in Hl.
  - intros j t older Ht.
    destruct Hshape as [(j0 & c & older0 & Hl & Ht0 & _ & Hc)|[_ Hc]].
    + rewrite Ht0 in Ht. now inversion Ht; subst.
    + rewrite Ht in Hc. inversion Hc.
Qed.

Lemma sends_are_serialized_witness :
  let s := run cfg1 (init 5000)
             [PostSendEmail body1 0; PostSendEmail body1 0; Tick 10;
              SendMailReturns 0 (SendOk "<m0@example.org>")] in
  map time_of (trace s) = [5010; 5000]
  /\ exists emailJob t r rest called older,
       trace s = [] ++ Returned emailJob t r :: rest
       /\ rest = Invoked emailJob called :: older /\ called <= t.
Proof.
  split; [reflexivity|].
  destruct (sends_are_serialized cfg1 5000
              (run cfg1 (init 5000)
                 [PostSendEmail body1 0; PostSendEmail body1 0; Tick 10;
                  SendMailReturns 0 (SendOk "<m0@example.org>")])
              (QueueServerFacts.run_reachable cfg1 5000 _ _ (reach_init cfg1 5000)))
    as (Hret & _).
  destruct (Hret [] _ _ _ _ eq_refl) as (called & older & Hrest & Hle).
  do 4 eexists. exists called, older.
  split; [reflexivity|]. split; [exact Hrest | exact Hle].
Defined.

(** *** Deliveries *)





End QueueServerOrder.

(** * The loops on Node's timers *)

Module NodeTimerFacts.
Import NodeTimers.

Lemma node_delay_whole (z : Z) :
  1 <= z <= TIMEOUT_MAX -> node_delay (inject_Z z) = z.
Proof.
  intros [H1 H2]. unfold node_delay.
  assert (Ha : Qle_bool 1 (inject_Z z) = true)
    by (apply Qle_bool_iff; change 1%Q with (inject_Z 1); now rewrite <- Zle_Qle).
  assert (Hb : Qle_bool (inject_Z z) (inject_Z TIMEOUT_MAX) = true)
    by (apply Qle_bool_iff; now rewrite <- Zle_Qle).
  rewrite Ha, Hb. apply Qfloor_Z.
Qed.

Lemma node_delay_positive (after : Q) : 1 <= node_delay after.
Proof.
  unfold node_delay.
  destruct (Qle_bool 1 after) eqn:Ha; simpl; [|lia].
  destruct (Qle_bool after (inject_Z TIMEOUT_MAX)); [|lia].
  apply Qle_bool_iff in Ha. apply Qfloor_resp_le in Ha.
  exact Ha.
Qed.

Lemma node_delay_out_of_range (z : Z) :
  z < 1 \/ TIMEOUT_MAX < z -> node_delay (inject_Z z) = 1.
Proof.
  intros H. unfold node_delay.
  destruct (Qle_bool 1 (inject_Z z)) eqn:Ha; cbn [andb]; [|reflexivity].
  destruct (Qle_bool (inject_Z z) (inject_Z TIMEOUT_MAX)) eqn:Hb; [|reflexivity].
  apply Qle_bool_iff in Ha, Hb.
  change 1%Q with (inject_Z 1) in Ha. rewrite <- Zle_Qle in Ha, Hb. lia.
Qed.

End NodeTimerFacts.

Module QueueServerNodeFacts.
Import QueueServer QueueServerInvariants QueueServerTrace.
Import NodeTimers QueueServerNode QueueServerNodeInvariants.

(** Every step on Node's timers: the step of [QueueServer] in closed form
    when no timer is involved, and the two timer callbacks. *)
Lemma node_step_cases cfg early ns e ns' :
  Single (server ns) ->
  step cfg early ns e = Some ns' ->
  (Canon cfg (server ns) e (server ns')
   /\ (forall i, e <> TimerFires i)
   /\ timer ns' =
        match e with
        | Tick _ => timer ns
        | PostSendEmail _ _ =>
            if isProcessingQueue (server ns) then timer ns
            else timer_of cfg (server ns')
        | _ => timer_of cfg (server ns')
        end)
  \/ (exists t,
         timer ns = Some t
         /\ may_run early t (clock (server ns)) = true
         /\ e = TimerFires 0
         /\ isProcessingQueue (server ns) = true
         /\ timer ns' = timer_of cfg (server ns')
         /\ ((exists emailJob due,
                 loops (server ns) = [AwaitRateLimit emailJob due]
                 /\ server ns' =
                      set_loops [AwaitSendMail emailJob]
                        (record (Invoked emailJob (clock (server ns))) (server ns)))
             \/ (exists due,
                    loops (server ns) = [AwaitRetryDelay due]
                    /\ Next cfg (server ns) (server ns')))).
Proof.
  intros HS Hstep.
  destruct e as [dt | body rnd | i | i r]; cbn [step] in Hstep.
  - left. destruct (QueueServer.step cfg (server ns) (Tick dt)) as [s'|] eqn:Hs;
      [|discriminate]. inversion Hstep; subst; clear Hstep. cbn [server timer].
    split; [now apply QueueServerFacts.step_Canon|]. split; [discriminate|reflexivity].
  - left.
    destruct (QueueServer.step cfg (server ns) (PostSendEmail body rnd)) as [s'|] eqn:Hs;
      [|discriminate]. inversion Hstep; subst; clear Hstep. cbn [server timer].
    split; [now apply QueueServerFacts.step_Canon|]. split; [discriminate|reflexivity].
  - right. destruct (timer ns) as [t|]; [|discriminate].
    destruct (may_run early t (clock (server ns))) eqn:Hrun; [|discriminate].
    exists t. split; [reflexivity|]. split; [exact Hrun|].
    destruct HS as [(Hl&Hf&Hq)|(k&Hl&Hf)]; rewrite Hl in Hstep.
    + destruct i; discriminate.
    + destruct (nth_error [k] i) as [k'|] eqn:Hn; [|discriminate].
      apply QueueServerFacts.nth_error_single in Hn as [-> ->].
      destruct k as [j due | j | due]; try discriminate;
        inversion Hstep; subst; clear Hstep; cbn [server timer].
      * split; [reflexivity|]. split; [exact Hf|]. split; [reflexivity|].
        left. exists j, due. split; [exact Hl|].
        unfold call_sendMail, continue_with; simpl. rewrite Hl. reflexivity.
      * split; [reflexivity|]. split; [exact Hf|]. split; [reflexivity|].
        right. exists due. split; [exact Hl|].
        eapply QueueServerFacts.loop_test_Next; eassumption.
  - left.
    destruct (QueueServer.step cfg (server ns) (SendMailReturns i r)) as [s'|] eqn:Hs;
      [|discriminate]. inversion Hstep; subst; clear Hstep. cbn [server timer].
    split; [now apply QueueServerFacts.step_Canon|]. split; [discriminate|reflexivity].
Qed.

(** *** Send times *)






(** *** The timer at the gate *)








Lemma node_run_reachable cfg early now es : forall ns,
  reachable cfg early now ns -> reachable cfg early now (run cfg early ns es).
Proof.
  induction es as [|e es IH]; simpl; intros ns Hr; [assumption|].
  apply IH. destruct (step cfg early ns e) eqn:Hstep; [|assumption].
  eapply reach_step; eassumption.
Qed.




(** *** The wait after a rate-limit error *)

Lemma node_reachable_Single cfg early now ns :
  reachable cfg early now ns -> Single (server ns).
Proof.
  induction 1 as [|ns e ns' Hr IH Hstep]; [apply QueueServerFacts.init_Single|].
  destruct (node_step_cases _ _ _ _ _ IH Hstep)
    as [(HC & _ & _) | (t & _ & _ & _ & Hf & _ & Hcase)].
  - eapply QueueServerFacts.Canon_Single; eassumption.
  - destruct Hcase as [(j & due & Hl & ->) | (due & Hl & HN)].
    + right. eexists. split; [reflexivity|exact Hf].
    + eapply QueueServerFacts.Next_Single; eassumption.
Qed.

(** X17. The wait after a rate-limit error, on Node's timers.  The job
    goes back to the front of the queue and the loop awaits
    [setTimeout(resolve, RETRY_DELAY)], set when the error came.  Node
    gives it the delay [RETRY_DELAY] when that is between 1 and
    [TIMEOUT_MAX], and 1 ms otherwise.  The loop cannot go on before that
    delay, less [early], has passed; from then on the callback can run,
    and the loop takes the same job again. *)
Theorem rate_limited_retry_waits_on_node_timer cfg early now ns i emailJob error :
  reachable cfg early now ns ->
  nth_error (loops (server ns)) i = Some (AwaitSendMail emailJob) ->
  is_rate_limit_error error = true ->
  exists ns',
    step cfg early ns (SendMailReturns i (SendErr error)) = Some ns'
    /\ emailQueue (server ns') = emailJob :: emailQueue (server ns)
    /\ settled (server ns') = settled (server ns)
    /\ timer ns'
       = Some (mkTimer (clock (server ns)) (inject_Z (RETRY_DELAY cfg)))
    /\ (1 <= RETRY_DELAY cfg <= TIMEOUT_MAX ->
        node_delay (inject_Z (RETRY_DELAY cfg)) = RETRY_DELAY cfg)
    /\ (RETRY_DELAY cfg < 1 \/ TIMEOUT_MAX < RETRY_DELAY cfg ->
        node_delay (inject_Z (RETRY_DELAY cfg)) = 1)
    /\ (forall dt,
           clock (server ns) + Z.of_N dt
           < clock (server ns) + node_delay (inject_Z (RETRY_DELAY cfg)) - early ->
           step cfg early
             (mkNodeState (set_clock (clock (server ns) + Z.of_N dt) (server ns'))
                          (timer ns'))
             (TimerFires 0) = None)
    /\ (forall dt,
           clock (server ns) + node_delay (inject_Z (RETRY_DELAY cfg)) - early
           <= clock (server ns) + Z.of_N dt ->
           exists ns'',
             step cfg early
               (mkNodeState (set_clock (clock (server ns) + Z.of_N dt) (server ns'))
                            (timer ns'))
               (TimerFires 0) = Some ns''
             /\ flat_map held (loops (server ns'')) = [emailJob]
             /\ emailQueue (server ns'') = emailQueue (server ns)).
Proof.
  intros Hr Hn Herr.
  destruct (node_reachable_Single _ _ _ _ Hr) as [(Hl&_&_)|(k&Hl&Hf)];
    rewrite Hl in Hn; [destruct i; discriminate|].
  apply QueueServerFacts.nth_error_single in Hn as [-> Hk]. subst k.
  cbn [step].
  rewrite (QueueServerFacts.rate_limited_step cfg (server ns) emailJob error Hl Herr).
  eexists. split; [reflexivity|]. cbn [option_map server timer].
  split; [reflexivity|]. split; [reflexivity|]. split; [reflexivity|].
  split; [apply NodeTimerFacts.node_delay_whole|].
  split; [apply NodeTimerFacts.node_delay_out_of_range|].
  split.
  - intros dt Hlt. cbn [step server timer timer_of]. simpl.
    unfold may_run. cbn [set_at after].
    destruct (Z.leb_spec
                (clock (server ns) + node_delay (inject_Z (RETRY_DELAY cfg)) - early)
                (clock (server ns) + Z.of_N dt)); [lia|reflexivity].
  - intros dt Hge. cbn [step server timer timer_of]. simpl.
    unfold may_run. cbn [set_at after].
    destruct (Z.leb_spec
                (clock (server ns) + node_delay (inject_Z (RETRY_DELAY cfg)) - early)
                (clock (server ns) + Z.of_N dt)); [|lia].
    unfold loop_test; simpl.
    destruct (_ <? _); simpl; eexists; split; try reflexivity; simpl; auto.
Qed.

Lemma rate_limited_retry_waits_on_node_timer_witness :
  exists ns',
    step cfg1 1 (run cfg1 1 (init 5000) [PostSendEmail body1 0])
      (SendMailReturns 0 (SendErr too_many)) = Some ns'
    /\ timer ns' = Some (mkTimer 5000 (inject_Z 30000))
    /\ step cfg1 1 (mkNodeState (set_clock (5000 + Z.of_N 29998) (server ns'))
                                (timer ns'))
         (TimerFires 0) = None
    /\ exists ns'',
         step cfg1 1 (mkNodeState (set_clock (5000 + Z.of_N 29999) (server ns'))
                                  (timer ns'))
           (TimerFires 0) = Some ns''
         /\ map handle (flat_map held (loops (server ns''))) = [0%nat].
Proof.
  destruct (rate_limited_retry_waits_on_node_timer cfg1 1 5000
              (run cfg1 1 (init 5000) [PostSendEmail body1 0]) 0%nat
              (new_job (mail_of cfg1 body1) 0 (QueueServer.init 5000)) too_many
              (node_run_reachable cfg1 1 5000 _ _ (reach_init cfg1 1 5000))
              eq_refl eq_refl)
    as (ns' & Hstep & _ & _ & Htimer & Hwhole & _ & Hearly & Hlate).
  exists ns'. split; [exact Hstep|]. split; [exact Htimer|].
  specialize (Hwhole ltac:(vm_compute; split; discriminate)).
  split.
  - apply Hearly. rewrite Hwhole. vm_compute. reflexivity.
  - destruct (Hlate 29999%N) as (ns'' & Hfire & Hheld & _).
    { rewrite Hwhole. vm_compute. discriminate. }
    exists ns''. split; [exact Hfire|]. rewrite Hheld. reflexivity.
Defined.

(** *** An interval Node's timers cannot hold *)

(** A request that finds the server idle and the gate open is sent at once. *)
Lemma idle_request_sent_at_once cfg early ns body rnd :
  missing_fields body = false ->
  loops (server ns) = [] -> isProcessingQueue (server ns) = false ->
  emailQueue (server ns) = [] ->
  SMTP_RATE_LIMIT cfg <= clock (server ns) - lastEmailTime (server ns) ->
  step cfg early ns (PostSendEmail body rnd)
  = Some (mkNodeState
            (mkState [] true (lastEmailTime (server ns)) (clock (server ns))
               [AwaitSendMail (new_job (mail_of cfg body) rnd (server ns))]
               (S (nextHandle (server ns))) (settled (server ns))
               (Invoked (new_job (mail_of cfg body) rnd (server ns))
                        (clock (server ns)) :: trace (server ns)))
            None).
Proof.
  intros Hm Hl Hf Hq Hgate.
  cbn [step QueueServer.step]. rewrite Hf.
  unfold post_send_email. rewrite Hm.
  unfold queueEmail, processEmailQueue, loop_test, timer_of. simpl.
  rewrite Hf, Hq. simpl.
  destruct (Z.ltb_spec (clock (server ns) - lastEmailTime (server ns))
                       (SMTP_RATE_LIMIT cfg)); [lia|].
  simpl. rewrite Hl. reflexivity.
Qed.

(** A request that finds the loop busy is queued. *)
Lemma busy_request_queued cfg early ns body rnd :
  missing_fields body = false ->
  isProcessingQueue (server ns) = true ->
  step cfg early ns (PostSendEmail body rnd)
  = Some (mkNodeState
            (set_emailQueue
               (emailQueue (server ns) ++ [new_job (mail_of cfg body) rnd (server ns)])
               (set_nextHandle (S (nextHandle (server ns))) (server ns)))
            (timer ns)).
Proof.
  intros Hm Hf. cbn [step QueueServer.step]. rewrite Hf.
  unfold post_send_email. rewrite Hm. unfold queueEmail. simpl. rewrite Hf.
  reflexivity.
Qed.

(** After a successful send the next job waits at the gate, on a timer
    asked for the whole interval. *)
Lemma success_then_gate cfg early ns emailJob messageId next rest :
  loops (server ns) = [AwaitSendMail emailJob] ->
  emailQueue (server ns) = next :: rest ->
  0 < SMTP_RATE_LIMIT cfg ->
  step cfg early ns (SendMailReturns 0 (SendOk messageId))
  = Some (mkNodeState
            (mkState rest (isProcessingQueue (server ns)) (clock (server ns))
               (clock (server ns))
               [AwaitRateLimit next (clock (server ns) + SMTP_RATE_LIMIT cfg)]
               (nextHandle (server ns))
               ((handle emailJob, Resolved messageId "Email sent successfully")
                  :: settled (server ns))
               (Returned emailJob (clock (server ns)) (SendOk messageId)
                  :: trace (server ns)))
            (Some (mkTimer (clock (server ns)) (inject_Z (SMTP_RATE_LIMIT cfg))))).
Proof.
  intros Hl Hq Hpos. cbn [step QueueServer.step]. rewrite Hl. cbn [nth_error].
  unfold on_sent, loop_test, continue_with, timer_of. simpl. rewrite Hq. simpl.
  rewrite Z.sub_diag.
  destruct (Z.ltb_spec 0 (SMTP_RATE_LIMIT cfg)); [|lia].
  simpl. rewrite Hl. simpl. rewrite Z.sub_diag, !Z.sub_0_r.
  reflexivity.
Qed.

(** X18. An interval above [TIMEOUT_MAX] is not kept.  When
    [SMTP_RATE_LIMIT] is more than 2^31 - 1 ms, the delay the gate asks
    for after a successful send is out of Node's range and becomes 1 ms:
    with every timer exactly on time, the next job is sent 1 ms after the
    successful send returned. *)
Theorem interval_above_timeout_max_not_kept cfg now body rnd1 rnd2 messageId :
  missing_fields body = false ->
  TIMEOUT_MAX < SMTP_RATE_LIMIT cfg ->
  SMTP_RATE_LIMIT cfg <= now ->
  let ns := run cfg 0 (init now)
              [PostSendEmail body rnd1; PostSendEmail body rnd2;
               SendMailReturns 0 (SendOk messageId); Tick 1; TimerFires 0] in
  map time_of (trace (server ns)) = [now + 1; now; now]
  /\ map handle (flat_map held (loops (server ns))) = [1%nat]
  /\ lastEmailTime (server ns) = now
  /\ now + 1 < lastEmailTime (server ns) + SMTP_RATE_LIMIT cfg.
Proof.
  intros Hm Hmax Hnow ns. subst ns.
  assert (Hpos : 0 < SMTP_RATE_LIMIT cfg) by (unfold TIMEOUT_MAX in Hmax; lia).
  cbn [run].
  rewrite (idle_request_sent_at_once cfg 0 (init now) body rnd1 Hm
             eq_refl eq_refl eq_refl)
    by (cbn [init server clock lastEmailTime QueueServer.init]; lia).
  rewrite busy_request_queued by (exact Hm || reflexivity).
  erewrite (success_then_gate cfg 0 _ _ messageId); [|reflexivity|reflexivity|exact Hpos].
  cbn [step server timer QueueServer.step option_map].
  cbn [set_clock clock emailQueue isProcessingQueue lastEmailTime loops nextHandle
       settled trace set_emailQueue set_nextHandle init QueueServer.init].
  unfold may_run. cbn [set_at after].
  rewrite NodeTimerFacts.node_delay_out_of_range by (right; exact Hmax).
  change (Z.of_N 1) with 1. rewrite Z.sub_0_r, Z.leb_refl.
  cbn [nth_error call_sendMail continue_with record set_loops resume
       clock emailQueue isProcessingQueue lastEmailTime loops nextHandle
       settled trace server timer map time_of flat_map held handle new_job app].
  simpl. repeat split; try reflexivity. unfold TIMEOUT_MAX in Hmax. lia.
Qed.

Lemma interval_above_timeout_max_not_kept_witness :
  map time_of
    (trace (server
       (run (mkConfig 3000000000 30000 (JStr "noreply@example.org") JUndefined) 0
          (init 1700000000000)
          [PostSendEmail body1 0; PostSendEmail body1 0;
           SendMailReturns 0 (SendOk "<m0@example.org>"); Tick 1; TimerFires 0])))
  = [1700000000001; 1700000000000; 1700000000000].
Proof.
  destruct (interval_above_timeout_max_not_kept
              (mkConfig 3000000000 30000 (JStr "noreply@example.org") JUndefined)
              1700000000000 body1 0 0 "<m0@example.org>"
              eq_refl ltac:(vm_compute; reflexivity) ltac:(vm_compute; discriminate))
    as (Htrace & _).
  exact Htrace.
Defined.

End QueueServerNodeFacts.

Module RetryServerNodeFacts.
Import RetryServer RetryServerInvariants.
Import NodeTimers RetryServerNode RetryServerNodeInvariants.
Local Open Scope Z_scope.

Lemma retry_node_step_cases cfg early ns e ns' :
  RSingle (server ns) ->
  step cfg early ns e = Some ns' ->
  (RCanon cfg (server ns) e (server ns')
   /\ (forall i, e <> TimerFires i)
   /\ timer ns' =
        match e with
        | Tick _ => timer ns
        | PostSendEmail _ _ _ =>
            if isProcessing (server ns) then timer ns
            else timer_of cfg (server ns')
        | _ => timer_of cfg (server ns')
        end)
  \/ (exists t,
         timer ns = Some t
         /\ may_run early t (clock (server ns)) = true
         /\ e = TimerFires 0
         /\ isProcessing (server ns) = true
         /\ timer ns' = timer_of cfg (server ns')
         /\ ((exists emailData due,
                 loops (server ns) = [AwaitRateLimit emailData due]
                 /\ server ns' =
                      set_loops [AwaitSendMail emailData]
                        (record (Invoked emailData (clock (server ns))) (server ns)))
             \/ (exists due,
                    loops (server ns) = [AwaitRetryDelay due]
                    /\ Next cfg (server ns) (server ns')))).
Proof.
  intros HS Hstep.
  destruct e as [dt | body rnd4 rnd9 | i | i r]; cbn [step] in Hstep.
  - left. destruct (RetryServer.step cfg (server ns) (Tick dt)) as [s'|] eqn:Hs;
      [|discriminate]. inversion Hstep; subst; clear Hstep. cbn [server timer].
    split; [now apply RetryServerFacts.step_RCanon|].
    split; [discriminate|reflexivity].
  - left.
    destruct (RetryServer.step cfg (server ns) (PostSendEmail body rnd4 rnd9))
      as [s'|] eqn:Hs; [|discriminate].
    inversion Hstep; subst; clear Hstep. cbn [server timer].
    split; [now apply RetryServerFacts.step_RCanon|].
    split; [discriminate|reflexivity].
  - right. destruct (timer ns) as [t|]; [|discriminate].
    destruct (may_run early t (clock (server ns))) eqn:Hrun; [|discriminate].
    exists t. split; [reflexivity|]. split; [exact Hrun|].
    destruct HS as [(Hl&Hf&Hq)|(k&Hl&Hf)]; rewrite Hl in Hstep.
    + destruct i; discriminate.
    + destruct (nth_error [k] i) as [k'|] eqn:Hn; [|discriminate].
      apply RetryServerFacts.retry_nth_error_single in Hn as [-> ->].
      destruct k as [d due | d | due]; try discriminate;
        inversion Hstep; subst; clear Hstep; cbn [server timer].
      * split; [reflexivity|]. split; [exact Hf|]. split; [reflexivity|].
        left. exists d, due. split; [exact Hl|].
        unfold call_sendMail, continue_with; simpl. rewrite Hl. reflexivity.
      * split; [reflexivity|]. split; [exact Hf|]. split; [reflexivity|].
        right. exists due. split; [exact Hl|].
        eapply RetryServerFacts.retry_loop_test_Next; eassumption.
  - left.
    destruct (RetryServer.step cfg (server ns) (SendMailReturns i r)) as [s'|] eqn:Hs;
      [|discriminate]. inversion Hstep; subst; clear Hstep. cbn [server timer].
    split; [now apply RetryServerFacts.step_RCanon|].
    split; [discriminate|reflexivity].
Qed.

(** *** Send times *)






(** *** The timer at the gate *)










End RetryServerNodeFacts.



(** * What does not depend on the timers *)

Module NodeInvariantFacts.

Lemma node_queue_Handles cfg early now ns :
  QueueServerNode.reachable cfg early now ns ->
  QueueServerInvariants.Handles (QueueServerNode.server ns)
  /\ QueueServerTrace.ledger (QueueServerNode.server ns)
     = seq 0 (QueueServer.nextHandle (QueueServerNode.server ns))
  /\ QueueServerTrace.Serialized (QueueServerNode.server ns).
Proof.
  induction 1 as [|ns e ns' Hr IH Hstep].
  - split; [apply QueueServerFacts.init_Handles|]. split; [reflexivity|constructor].
  - destruct IH as (HH & HL & HZ).
    pose proof (QueueServerNodeFacts.node_reachable_Single _ _ _ _ Hr) as HS.
    destruct (QueueServerNodeFacts.node_step_cases _ _ _ _ _ HS Hstep)
      as [(HC & _ & _) | (t & _ & _ & _ & Hf & _ & Hcase)].
    + split; [eapply QueueServerFacts.Canon_Handles; eassumption|].
      split; [eapply QueueServerOrder.Canon_ledger; eassumption|].
      eapply QueueServerOrder.Canon_Serialized; eassumption.
    + destruct Hcase as [(j & due & Hl & ->) | (due & Hl & HN)].
      * split; [|split].
        -- apply (QueueServerFacts.Handles_same (QueueServerNode.server ns)); auto.
           unfold QueueServerInvariants.live; simpl. now rewrite Hl.
        -- apply (QueueServerOrder.ledger_same (QueueServerNode.server ns)); auto.
           unfold QueueServerInvariants.live; simpl. now rewrite Hl.
        -- unfold QueueServerTrace.Serialized in *. rewrite Hl in HZ. simpl.
           exists (QueueServer.clock (QueueServerNode.server ns)),
                  (QueueServer.trace (QueueServerNode.server ns)).
           repeat split; auto. lia.
      * pose proof (QueueServerFacts.Next_live _ _ _ HN) as (Hl' & Hs' & Hn').
        assert (Hlive : QueueServerInvariants.live (QueueServerNode.server ns')
                        = QueueServerInvariants.live (QueueServerNode.server ns))
          by (rewrite Hl'; unfold QueueServerInvariants.live; now rewrite Hl).
        split; [|split].
        -- now apply (QueueServerFacts.Handles_same (QueueServerNode.server ns)).
        -- now apply (QueueServerOrder.ledger_same (QueueServerNode.server ns)).
        -- unfold QueueServerTrace.Serialized in HZ. rewrite Hl in HZ.
           eapply QueueServerOrder.Next_Serialized; eassumption.
Qed.

Lemma node_retry_Bounded cfg early now ns :
  RetryServerNode.reachable cfg early now ns ->
  RetryServerInvariants.RSingle (RetryServerNode.server ns)
  /\ RetryServerInvariants.Bounded (RetryServerNode.server ns).
Proof.
  induction 1 as [|ns e ns' Hr IH Hstep].
  - split; [left; simpl; auto | intros d []].
  - destruct IH as (HS & HB).
    destruct (RetryServerNodeFacts.retry_node_step_cases _ _ _ _ _ HS Hstep)
      as [(HC & _ & _) | (t & _ & _ & _ & Hf & _ & Hcase)].
    + split; [eapply RetryServerFacts.RCanon_RSingle; eassumption|].
      eapply RetryServerFacts.RCanon_Bounded; eassumption.
    + destruct Hcase as [(d & due & Hl & ->) | (due & Hl & HN)].
      * split; [right; eexists; split; [reflexivity|exact Hf]|].
        intros d' Hin. apply HB. unfold RetryServerInvariants.jobs in *.
        simpl in Hin. rewrite Hl. exact Hin.
      * split; [eapply RetryServerFacts.Next_RSingle; eassumption|].
        intros d' Hin. apply HB.
        rewrite (RetryServerFacts.Next_jobs _ _ _ HN) in Hin.
        unfold RetryServerInvariants.jobs. rewrite Hl. exact Hin.
Qed.

(** X19. What the timers cannot break.  Run on Node's timers, whenever the
    callbacks come, the promise-returning queue has at most one drain loop,
    which runs exactly when the flag is set; no promise is settled twice,
    and none that a held or queued job carries has been settled; the
    promises settled, then the one in flight, then the queued ones are 0, 1,
    .. in the order of the requests; and the transport has at most one
    call unanswered, that of the loop awaiting [sendMail].  The quick-setup
    server has at most one loop, and no job of it has more than 3 retries. *)
Theorem invariants_hold_on_node_timers :
  (forall cfg early now ns,
      QueueServerNode.reachable cfg early now ns ->
      let s := QueueServerNode.server ns in
      ((QueueServer.loops s = [] /\ QueueServer.isProcessingQueue s = false
        /\ QueueServer.emailQueue s = [])
       \/ (exists k, QueueServer.loops s = [k]
                     /\ QueueServer.isProcessingQueue s = true))
      /\ NoDup (map fst (QueueServer.settled s))
      /\ NoDup (QueueServerInvariants.live s)
      /\ (forall h, In h (QueueServerInvariants.live s) ->
                    ~ In h (map fst (QueueServer.settled s)))
      /\ rev (map fst (QueueServer.settled s)) ++ QueueServerInvariants.live s
         = seq 0 (QueueServer.nextHandle s)
      /\ (forall emailJob,
             QueueServer.loops s = [QueueServer.AwaitSendMail emailJob] ->
             exists t older,
               QueueServer.trace s = QueueServer.Invoked emailJob t :: older
               /\ QueueServerTrace.Completed older)
      /\ ((forall emailJob,
              QueueServer.loops s <> [QueueServer.AwaitSendMail emailJob]) ->
          QueueServerTrace.Completed (QueueServer.trace s)))
  /\ (forall cfg early now ns,
         RetryServerNode.reachable cfg early now ns ->
         let s := RetryServerNode.server ns in
         ((RetryServer.loops s = [] /\ RetryServer.isProcessing s = false
           /\ RetryServer.emailQueue s = [])
          \/ (exists k, RetryServer.loops s = [k]
                        /\ RetryServer.isProcessing s = true))
         /\ forall emailData,
              In emailData (RetryServerInvariants.jobs s) ->
              0 <= RetryServer.retries emailData <= 3).
Proof.
  split.
  - intros cfg early now ns Hr s.
    pose proof (QueueServerNodeFacts.node_reachable_Single _ _ _ _ Hr) as HS.
    destruct (node_queue_Handles _ _ _ _ Hr) as ([H1 H2 H3 H4 H5] & HL & HZ).
    split; [exact HS|]. split; [exact H4|]. split; [exact H1|].
    split; [exact H5|]. split; [exact HL|]. fold s in HZ.
    unfold QueueServerTrace.Serialized in HZ. split.
    + intros j Hl. rewrite Hl in HZ. destruct HZ as (c & older & Ht & _ & Hc).
      eauto.
    + intros Hno.
      destruct (QueueServer.loops s) as [|[j d|j|d] [|]]; auto.
      now contradiction (Hno j).
  - intros cfg early now ns Hr s.
    exact (node_retry_Bounded _ _ _ _ Hr).
Qed.

Lemma invariants_hold_on_node_timers_witness :
  let s := QueueServerNode.server QueueServerNodeInvariants.node_state_second_send in
  QueueServerInvariants.live s = [1%nat]
  /\ map fst (QueueServer.settled s) = [0%nat]
  /\ rev (map fst (QueueServer.settled s)) ++ QueueServerInvariants.live s
     = [0%nat; 1%nat].
Proof.
  cbv zeta. split; [reflexivity|]. split; [reflexivity|].
  destruct invariants_hold_on_node_timers as [HQ _].
  destruct (HQ QueueServerInvariants.cfg1 1 5000
              QueueServerNodeInvariants.node_state_second_send
              (QueueServerNodeFacts.node_run_reachable _ _ _ _ _
                 (QueueServerNode.reach_init _ _ _)))
    as (_ & _ & _ & _ & Hledger & _).
  exact Hledger.
Defined.

End NodeInvariantFacts.

(** * The queue drains when the transport works *)

Module QueueServerDrain.
Import QueueServer QueueServerInvariants QueueServerTrace.

Lemma Next_work cfg s s' :
  Next cfg s s' -> (work s' <= 2 * List.length (emailQueue s))%nat.
Proof.
  intros HN; destruct HN as [Hq | j rest Hq _ | j rest Hq _];
    unfold work; simpl; rewrite Hq; simpl; lia.
Qed.

Lemma timer_due (due now : Z) : due <= now + Z.of_N (Z.to_N (due - now)).
Proof. destruct (due - now) eqn:H; simpl; lia. Qed.

Lemma rate_timer_fires cfg s emailJob due :
  loops s = [AwaitRateLimit emailJob due] ->
  exists s',
    run cfg s [Tick (Z.to_N (due - clock s)); TimerFires 0] = s'
    /\ loops s' = [AwaitSendMail emailJob]
    /\ emailQueue s' = emailQueue s.
Proof.
  intros Hl. eexists. split; [reflexivity|].
  cbn [run step]. cbn [loops set_clock clock]. rewrite Hl. cbn [nth_error].
  pose proof (timer_due due (clock s)) as Hdue.
  destruct (Z.leb_spec due (clock s + Z.of_N (Z.to_N (due - clock s)))); [|lia].
  unfold call_sendMail, continue_with. simpl. rewrite Hl. auto.
Qed.

Lemma retry_timer_fires cfg s due :
  loops s = [AwaitRetryDelay due] ->
  exists s0 s',
    run cfg s [Tick (Z.to_N (due - clock s)); TimerFires 0] = s'
    /\ Next cfg s0 s' /\ emailQueue s0 = emailQueue s.
Proof.
  intros Hl.
  exists (set_clock (clock s + Z.of_N (Z.to_N (due - clock s))) s). eexists.
  split; [reflexivity|].
  cbn [run step]. cbn [loops set_clock clock]. rewrite Hl. cbn [nth_error].
  pose proof (timer_due due (clock s)) as Hdue.
  destruct (Z.leb_spec due (clock s + Z.of_N (Z.to_N (due - clock s)))); [|lia].
  split; [|reflexivity].
  eapply QueueServerFacts.loop_test_Next. simpl. exact Hl.
Qed.

Lemma send_succeeds cfg s emailJob messageId :
  loops s = [AwaitSendMail emailJob] ->
  exists s0 s',
    run cfg s [SendMailReturns 0 (SendOk messageId)] = s'
    /\ Next cfg s0 s' /\ emailQueue s0 = emailQueue s.
Proof.
  intros Hl.
  exists (settle (handle emailJob) (Resolved messageId "Email sent successfully")
            (set_lastEmailTime (clock s)
               (record (Returned emailJob (clock s) (SendOk messageId)) s))).
  eexists. split; [reflexivity|].
  cbn [run step]. rewrite Hl. cbn [nth_error]. unfold on_sent.
  split; [|reflexivity].
  eapply QueueServerFacts.loop_test_Next. simpl. exact Hl.
Qed.

Lemma quiet_app es1 es2 : quiet es1 = true -> quiet es2 = true ->
  quiet (es1 ++ es2) = true.
Proof. unfold quiet. intros H1 H2. now rewrite forallb_app, H1, H2. Qed.

Lemma drains_within cfg now n : forall s,
  reachable cfg now s -> (work s <= n)%nat ->
  exists es, quiet es = true /\ isProcessingQueue (run cfg s es) = false.
Proof.
  induction n as [|n IH]; intros s Hr Hw;
    destruct (QueueServerFacts.reachable_Single _ _ _ Hr) as [(Hl&Hf&Hq)|(k&Hl&Hf)];
    try (exists []; split; [reflexivity|exact Hf]).
  - unfold work in Hw. rewrite Hl in Hw. destruct k; simpl in Hw; lia.
  - assert (Hgo : forall es1 s0 s',
               quiet es1 = true -> run cfg s es1 = s' -> Next cfg s0 s' ->
               emailQueue s0 = emailQueue s ->
               (2 * List.length (emailQueue s) <= n)%nat ->
               exists es, quiet es = true
                          /\ isProcessingQueue (run cfg s es) = false).
    { intros es1 s0 s' Hq1 Hrun HN Hq0 Hle.
      assert (Hr' : reachable cfg now s')
        by (rewrite <- Hrun; now apply QueueServerFacts.run_reachable).
      destruct (IH s' Hr') as (es2 & Hq2 & Hidle).
      { apply Next_work in HN. rewrite Hq0 in HN. lia. }
      exists (es1 ++ es2). split; [now apply quiet_app|].
      now rewrite QueueServerFacts.run_app, Hrun. }
    unfold work in Hw. rewrite Hl in Hw.
    destruct k as [j due | j | due]; simpl in Hw.
    + destruct (rate_timer_fires cfg s j due Hl) as (s' & Hrun & Hl' & Hq').
      assert (Hr' : reachable cfg now s')
        by (rewrite <- Hrun; now apply QueueServerFacts.run_reachable).
      destruct (IH s' Hr') as (es2 & Hq2 & Hidle).
      { unfold work. rewrite Hl', Hq'. simpl. lia. }
      exists ([Tick (Z.to_N (due - clock s)); TimerFires 0] ++ es2).
      split; [now apply quiet_app|].
      now rewrite QueueServerFacts.run_app, Hrun.
    + destruct (send_succeeds cfg s j "" Hl) as (s0 & s' & Hrun & HN & Hq0).
      eapply (Hgo [SendMailReturns 0 (SendOk "")]); eauto. lia.
    + destruct (retry_timer_fires cfg s due Hl) as (s0 & s' & Hrun & HN & Hq0).
      eapply (Hgo [Tick (Z.to_N (due - clock s)); TimerFires 0]); eauto. lia.
Qed.

(** X15. With a transport that works the queue always drains.  From every
    reachable state there is a schedule, with no new request and no failed
    send, only time passing, timers firing and sends succeeding, after
    which the server is idle: the flag is clear, the queue is empty and
    every promise made has been settled. *)
Theorem queue_drains_when_sends_succeed cfg now s :
  reachable cfg now s ->
  exists es,
    quiet es = true
    /\ isProcessingQueue (run cfg s es) = false
    /\ emailQueue (run cfg s es) = []
    /\ loops (run cfg s es) = []
    /\ List.length (settled (run cfg s es)) = nextHandle (run cfg s es).
Proof.
  intros Hr.
  destruct (drains_within cfg now (work s) s Hr (Nat.le_refl _))
    as (es & Hquiet & Hidle).
  exists es. split; [exact Hquiet|]. split; [exact Hidle|].
  assert (Hr' : reachable cfg now (run cfg s es))
    by now apply QueueServerFacts.run_reachable.
  pose proof (QueueServerOrder.reachable_ledger cfg now _ Hr') as HL.
  unfold ledger in HL.
  destruct (QueueServerFacts.reachable_Single _ _ _ Hr') as [(Hl&_&Hq)|(k&_&Hf')];
    [|congruence].
  unfold live in HL. rewrite Hl, Hq, app_nil_r in HL. simpl in HL.
  assert (Hlen : List.length (rev (settled_handles (run cfg s es)))
                 = nextHandle (run cfg s es))
    by (rewrite HL; apply length_seq).
  rewrite length_rev in Hlen. unfold settled_handles in Hlen.
  rewrite length_map in Hlen. auto.
Qed.

Lemma queue_drains_when_sends_succeed_witness :
  exists es,
    quiet es = true
    /\ isProcessingQueue
         (run cfg1 (run cfg1 (init 5000)
                      [PostSendEmail body1 0; PostSendEmail body1 0]) es) = false.
Proof.
  destruct (queue_drains_when_sends_succeed cfg1 5000
              (run cfg1 (init 5000) [PostSendEmail body1 0; PostSendEmail body1 0])
              (QueueServerFacts.run_reachable cfg1 5000 _ _ (reach_init cfg1 5000)))
    as (es & Hq & Hidle & _).
  exists es. split; assumption.
Defined.

End QueueServerDrain.

(** * The trigger of the drain loop *)

(** X6. Calling [processEmailQueue] twice in a row does what calling it
    once does, in both queueing servers, in any state: the first call either
    returns at once or sets the busy flag, and the second then returns at
    once. *)
Theorem processEmailQueue_idempotent :
  (forall cfg s,
      QueueServer.processEmailQueue cfg (QueueServer.processEmailQueue cfg s)
      = QueueServer.processEmailQueue cfg s)
  /\ (forall cfg s,
         RetryServer.processEmailQueue cfg (RetryServer.processEmailQueue cfg s)
         = RetryServer.processEmailQueue cfg s).
Proof.
  split; intros cfg s.
  - assert (Hbusy : forall s', QueueServer.isProcessingQueue s' = true ->
                               QueueServer.processEmailQueue cfg s' = s')
      by (intros s' H; unfold QueueServer.processEmailQueue; now rewrite H).
    destruct (QueueServer.isProcessingQueue s
              || (List.length (QueueServer.emailQueue s) =? 0)%nat) eqn:Hg.
    + unfold QueueServer.processEmailQueue. now rewrite !Hg.
    + apply Hbusy. unfold QueueServer.processEmailQueue. rewrite Hg.
      apply orb_false_iff in Hg as [Hf Hq].
      unfold QueueServer.loop_test. cbn.
      destruct (QueueServer.emailQueue s) as [|j rest]; [discriminate|].
      destruct (_ <? _); reflexivity.
  - assert (Hbusy : forall s', RetryServer.isProcessing s' = true ->
                               RetryServer.processEmailQueue cfg s' = s')
      by (intros s' H; unfold RetryServer.processEmailQueue; now rewrite H).
    destruct (RetryServer.isProcessing s
              || (List.length (RetryServer.emailQueue s) =? 0)%nat) eqn:Hg.
    + unfold RetryServer.processEmailQueue. now rewrite !Hg.
    + apply Hbusy. unfold RetryServer.processEmailQueue. rewrite Hg.
      apply orb_false_iff in Hg as [Hf Hq].
      unfold RetryServer.loop_test. cbn.
      destruct (RetryServer.emailQueue s) as [|j rest]; [discriminate|].
      destruct (RetryServer.Qlt_bool _ _); reflexivity.
Qed.

(** * More of the quick-setup server *)

Module RetryServerAttempts.
Import RetryServer RetryServerInvariants RetryServerBudget.
Local Open Scope Z_scope.
Local Arguments Z.add _ _ : simpl never.
Local Arguments Z.sub _ _ : simpl never.
Local Arguments Z.mul _ _ : simpl never.

Lemma budget_of_app l1 l2 : budget_of (l1 ++ l2) = budget_of l1 + budget_of l2.
Proof. induction l1 as [|d l1 IH]; simpl; [reflexivity|]. rewrite IH. lia. Qed.

Lemma Next_Accounted cfg spent s s' :
  loops s = [] \/ (exists due, loops s = [AwaitRetryDelay due]) ->
  Accounted spent s -> Next cfg s s' -> Accounted spent s'.
Proof.
  intros Hl [Hc Hb] HN.
  assert (Hout : outstanding s = 0)
    by (unfold outstanding; destruct Hl as [->|[due ->]]; reflexivity).
  assert (Hjobs : jobs s = emailQueue s)
    by (unfold jobs; destruct Hl as [->|[due ->]]; reflexivity).
  unfold budget in *. rewrite Hjobs in Hb. rewrite Hout in Hc.
  pose proof (RetryServerFacts.Next_jobs _ _ _ HN) as Hj.
  destruct HN as [Hq | d rest Hq Hlt | d rest Hq Hge];
    constructor; unfold budget, outstanding; rewrite ?Hj; simpl; auto; lia.
Qed.

Lemma RCanon_Accounted cfg spent s e s' :
  Bounded s -> Accounted spent s -> RCanon cfg s e s' ->
  Accounted (spent + 4 * accepted [e]) s'.
Proof.
  intros HB HA HC.
  destruct HC as [dt | body r4 r9 Hm | body r4 r9 k Hm Hl Hf
                 | body r4 r9 s' Hm Hl Hf Hq HN | d due Hl Hf Hdue
                 | due s' Hl Hf Hdue HN | d mid Hl Hf
                 | d err Hl Hf Hr | d err Hl Hf Hr]; simpl; rewrite ?Hm; simpl;
    try (eapply (Next_Accounted cfg); [| |eassumption]);
    try (assert (Hd : 0 <= retries d <= 3)
          by (apply HB; unfold jobs; rewrite Hl; simpl; now left));
    try (left; reflexivity); try (right; eexists; eassumption);
    destruct HA as [Hc Hb];
    constructor; unfold outstanding, budget, jobs, attempts_left in *; simpl;
    rewrite ?Hl, ?Hq in *; simpl in *;
    rewrite ?app_nil_r, ?app_assoc, ?budget_of_app in *; simpl;
    unfold attempts_left in *; simpl; try lia; reflexivity.
Qed.

Lemma run_Accounted cfg now es : forall spent s,
  reachable cfg now s -> Accounted spent s ->
  Accounted (spent + 4 * accepted es) (run cfg s es).
Proof.
  induction es as [|e es IH]; intros spent s Hr HA.
  - simpl. now replace (spent + 4 * 0) with spent by lia.
  - cbn [run].
    assert (Hacc : accepted (e :: es) = accepted [e] + accepted es)
      by (destruct e; simpl; lia).
    rewrite Hacc.
    replace (spent + 4 * (accepted [e] + accepted es))
      with (spent + 4 * accepted [e] + 4 * accepted es) by lia.
    destruct (step cfg s e) as [s'|] eqn:Hstep.
    + apply IH; [eapply reach_step; eassumption|].
      eapply RCanon_Accounted; [| exact HA |].
      * eapply RetryServerFacts.reachable_Bounded; eassumption.
      * eapply RetryServerFacts.step_RCanon; [|exact Hstep].
        eapply RetryServerFacts.reachable_RSingle; eassumption.
    + apply IH; [assumption|].
      destruct HA as [Hc Hb]. constructor; [assumption|].
      assert (0 <= accepted [e]) by (destruct e; simpl; try lia;
                                     destruct (missing_fields body); lia).
      lia.
Qed.

Lemma budget_of_bounded l :
  (forall d, In d l -> 0 <= retries d <= 3) ->
  Z.of_nat (List.length l) <= budget_of l.
Proof.
  induction l as [|d l IH]; intros Hb; [simpl; lia|].
  cbn [budget_of fold_right List.length]. fold (budget_of l).
  specialize (IH (fun d' H => Hb d' (or_intror H))).
  specialize (Hb d (or_introl eq_refl)). unfold attempts_left. lia.
Qed.

Lemma Qlt_bool_open (gap : Q) (now last dt : Z) :
  (gap <= inject_Z now)%Q -> last = 0 -> 0 <= dt ->
  Qlt_bool (inject_Z (now + dt - last)) gap = false.
Proof.
  intros Hg -> Hdt. unfold Qlt_bool. apply negb_false_iff, Qle_bool_iff.
  eapply Qle_trans; [exact Hg|]. rewrite <- Zle_Qle. lia.
Qed.

Lemma delay_passes (delay : Z) :
  delay <= Z.of_N (Z.to_N delay) /\ 0 <= Z.of_N (Z.to_N delay).
Proof. destruct delay; simpl; lia. Qed.

Lemma failed_attempt_retries cfg emailData error n s :
  retries emailData < 3 ->
  Attempting cfg emailData n s ->
  Attempting cfg (incr_retries emailData) (n + 1)
             (run cfg s (failed_attempt cfg error)).
Proof.
  intros Hlt [Hl Hq Hf Hlast Hg Hnone Hc].
  destruct (delay_passes (RETRY_DELAY cfg)) as [Hd1 Hd2].
  unfold failed_attempt, run.
  cbn [step]. rewrite Hl. cbn [nth_error].
  unfold on_error. destruct (Z.ltb_spec (retries emailData) 3) as [_|Hbad]; [|lia].
  unfold continue_with.
  cbn [step set_clock set_loops set_emailQueue record loops clock emailQueue
       lastEmailTime isProcessing trace resume nth_error].
  rewrite Hl, Hq. cbn [resume app nth_error].
  destruct (Z.leb_spec (clock s + RETRY_DELAY cfg)
                       (clock s + Z.of_N (Z.to_N (RETRY_DELAY cfg)))) as [_|Hbad];
    [|lia].
  unfold loop_test.
  cbn [set_clock set_loops set_emailQueue record loops clock emailQueue
       lastEmailTime isProcessing trace].
  rewrite (Qlt_bool_open _ _ _ _ Hg Hlast Hd2).
  unfold call_sendMail, continue_with.
  cbn [set_clock set_loops set_emailQueue record loops clock emailQueue
       lastEmailTime isProcessing trace resume].
  constructor; cbn; auto.
  - eapply Qle_trans; [exact Hg|]. rewrite <- Zle_Qle. lia.
  - rewrite Hc. reflexivity.
Qed.

Lemma failed_attempt_drops cfg emailData error n s :
  3 <= retries emailData ->
  Attempting cfg emailData n s ->
  let s' := run cfg s (failed_attempt cfg error) in
  emailQueue s' = [] /\ loops s' = [] /\ isProcessing s' = false
  /\ deliveries_of (trace s') = [] /\ calls (trace s') = n.
Proof.
  intros Hge [Hl Hq Hf Hlast Hg Hnone Hc].
  destruct (delay_passes (RETRY_DELAY cfg)) as [Hd1 Hd2].
  unfold failed_attempt, run.
  cbn [step]. rewrite Hl. cbn [nth_error].
  unfold on_error. destruct (Z.ltb_spec (retries emailData) 3) as [Hbad|_]; [lia|].
  unfold continue_with.
  cbn [step set_clock set_loops set_emailQueue record loops clock emailQueue
       lastEmailTime isProcessing trace resume nth_error].
  rewrite Hl. cbn [resume nth_error].
  destruct (Z.leb_spec (clock s + RETRY_DELAY cfg)
                       (clock s + Z.of_N (Z.to_N (RETRY_DELAY cfg)))) as [_|Hbad];
    [|lia].
  unfold loop_test.
  cbn [set_clock set_loops set_emailQueue record loops clock emailQueue
       lastEmailTime isProcessing trace].
  rewrite Hq. cbn. auto.
Qed.


Lemma retry_run_app cfg es1 es2 : forall s,
  run cfg s (es1 ++ es2) = run cfg (run cfg s es1) es2.
Proof. induction es1 as [|e es1 IH]; simpl; intros s; [reflexivity|apply IH]. Qed.

Lemma post_starts_attempt cfg now body rnd4 rnd9 :
  missing_fields body = false ->
  (minInterval cfg <= inject_Z now)%Q ->
  Attempting cfg (new_emailData cfg body rnd4 rnd9 (init now)) 1
             (run cfg (init now) [PostSendEmail body rnd4 rnd9]).
Proof.
  intros Hm Hg. cbn [run step].
  unfold post_send_email. rewrite Hm.
  unfold processEmailQueue, loop_test, call_sendMail.
  cbn [snd init set_emailQueue set_isProcessing set_loops record emailQueue
       isProcessing lastEmailTime clock loops trace app List.length
       Nat.eqb orb].
  replace (now - 0) with (now + 0 - 0) by lia.
  rewrite (Qlt_bool_open _ _ _ _ Hg eq_refl (Z.le_refl 0)).
  constructor; cbn; auto.
Qed.

Lemma four_failures_drop cfg emailData e1 e2 e3 e4 s :
  retries emailData = 0 ->
  Attempting cfg emailData 1 s ->
  let s' := run cfg s (failed_attempt cfg e1 ++ failed_attempt cfg e2
                       ++ failed_attempt cfg e3 ++ failed_attempt cfg e4) in
  emailQueue s' = [] /\ loops s' = [] /\ isProcessing s' = false
  /\ deliveries_of (trace s') = [] /\ calls (trace s') = 4.
Proof.
  intros H0 HA.
  assert (H1 : retries (incr_retries emailData) = 1) by (simpl; lia).
  assert (H2 : retries (incr_retries (incr_retries emailData)) = 2)
    by (simpl; lia).
  assert (H3 : retries (incr_retries (incr_retries (incr_retries emailData))) = 3)
    by (simpl; lia).
  rewrite !retry_run_app.
  apply (failed_attempt_retries cfg _ e1) in HA; [|lia].
  apply (failed_attempt_retries cfg _ e2) in HA; [|lia].
  apply (failed_attempt_retries cfg _ e3) in HA; [|lia].
  apply (failed_attempt_drops cfg _ e4) in HA; [|lia].
  exact HA.
Qed.

(** X8. A request answered with success can be lost.  [POST /send-email]
    answers 200 with a message id before anything is sent; if the transport
    then fails four times, the job is sent four times and dropped: the queue
    is empty, the loop has ended, nothing was delivered, and nothing tells
    the client. *)
Theorem accepted_mail_dropped_after_four_failures
  cfg now body rnd4 rnd9 e1 e2 e3 e4 :
  missing_fields body = false ->
  (minInterval cfg <= inject_Z now)%Q ->
  status (fst (post_send_email cfg body rnd4 rnd9 (init now))) = 200
  /\ let s := run cfg (init now)
                (PostSendEmail body rnd4 rnd9
                 :: failed_attempt cfg e1 ++ failed_attempt cfg e2
                 ++ failed_attempt cfg e3 ++ failed_attempt cfg e4) in
     emailQueue s = [] /\ loops s = [] /\ isProcessing s = false
     /\ deliveries_of (trace s) = [] /\ calls (trace s) = 4.
Proof.
  intros Hm Hg. split.
  - unfold post_send_email. now rewrite Hm.
  - pose proof (post_starts_attempt cfg now body rnd4 rnd9 Hm Hg) as HA.
    pose proof (retry_run_app cfg [PostSendEmail body rnd4 rnd9]
                  (failed_attempt cfg e1 ++ failed_attempt cfg e2
                   ++ failed_attempt cfg e3 ++ failed_attempt cfg e4)
                  (init now)) as Happ.
    cbn [app] in Happ. cbv zeta. rewrite Happ.
    apply (four_failures_drop cfg (new_emailData cfg body rnd4 rnd9 (init now))
             e1 e2 e3 e4 _ eq_refl HA).
Qed.

Lemma accepted_mail_dropped_after_four_failures_witness :
  let s := run rcfg1 (init 100000)
             (PostSendEmail rbody1 "ab12" "abcdefghi"
              :: failed_attempt rcfg1 rejected_550 ++ failed_attempt rcfg1 rejected_550
              ++ failed_attempt rcfg1 rejected_550 ++ failed_attempt rcfg1 rejected_550) in
  emailQueue s = [] /\ isProcessing s = false /\ calls (trace s) = 4.
Proof.
  destruct (accepted_mail_dropped_after_four_failures rcfg1 100000 rbody1
              "ab12" "abcdefghi" rejected_550 rejected_550 rejected_550 rejected_550
              eq_refl ltac:(vm_compute; discriminate))
    as (_ & Hq & _ & Hf & _ & Hc).
  exact (conj Hq (conj Hf Hc)).
Defined.

Lemma Next_remaining cfg s s' :
  Next cfg s s' -> 3 * budget_of (emailQueue s) <= remaining s' <= 3 * budget_of (emailQueue s) + 2.
Proof.
  intros HN. pose proof (RetryServerFacts.Next_jobs _ _ _ HN) as Hj.
  unfold remaining, budget. rewrite Hj.
  destruct HN as [Hq | d rest Hq _ | d rest Hq _]; simpl; lia.
Qed.

Lemma RCanon_remaining cfg s e s' :
  Bounded s -> RCanon cfg s e s' ->
  match e with
  | Tick _ => remaining s' = remaining s
  | PostSendEmail _ _ _ => remaining s <= remaining s'
  | _ => remaining s' < remaining s
  end.
Proof.
  intros HB HC.
  destruct HC as [dt | body r4 r9 Hm | body r4 r9 k Hm Hl Hf
                 | body r4 r9 s' Hm Hl Hf Hq HN | d due Hl Hf Hdue
                 | due s' Hl Hf Hdue HN | d mid Hl Hf
                 | d err Hl Hf Hr | d err Hl Hf Hr];
    try (apply Next_remaining in HN; simpl in HN);
    try (assert (Hd : 0 <= retries d <= 3)
          by (apply HB; unfold jobs; rewrite Hl; simpl; now left));
    unfold remaining, budget, jobs, attempts_left in *; simpl;
    rewrite ?Hl, ?Hq in *; simpl in *;
    rewrite ?app_nil_r, ?app_assoc, ?budget_of_app in *; simpl;
    unfold attempts_left in *; simpl in *; try lia.
Qed.

(** X16. The drain loop of the quick-setup server ends, whatever the
    transport answers.  A measure of the work left (three per send a job
    can still get, plus the stage of the current iteration) is never
    negative, is unchanged by the passing of time, and goes down strictly
    with every timer that fires and every answer of the transport, success
    or failure; it is zero exactly when no loop runs.  So once requests
    stop, only finitely many sends and timers can follow. *)
Theorem retry_loop_work_decreases cfg now s :
  reachable cfg now s ->
  0 <= remaining s
  /\ (remaining s = 0 <-> loops s = [])
  /\ forall e s',
       step cfg s e = Some s' ->
       match e with
       | Tick _ => remaining s' = remaining s
       | PostSendEmail _ _ _ => remaining s <= remaining s'
       | TimerFires _ | SendMailReturns _ _ => remaining s' < remaining s
       end.
Proof.
  intros Hr.
  pose proof (RetryServerFacts.reachable_Bounded _ _ _ Hr) as HB.
  pose proof (RetryServerFacts.reachable_RSingle _ _ _ Hr) as HS.
  pose proof (budget_of_bounded (jobs s) HB) as Hlen.
  split; [|split].
  - unfold remaining, budget. destruct (loops s) as [|[d q|d|q] tl]; lia.
  - unfold remaining, budget in *. split.
    + destruct (loops s) as [|[d q|d|q] tl]; [reflexivity|lia|lia|lia].
    + intros Hl. destruct HS as [(_&_&Hq)|(k&Hk&_)]; [|congruence].
      unfold jobs. rewrite Hl, Hq. reflexivity.
  - intros e s' Hstep.
    pose proof (RCanon_remaining cfg s e s' HB
                  (RetryServerFacts.step_RCanon _ _ _ _ HS Hstep)) as H.
    destruct e; exact H.
Qed.

Lemma retry_loop_work_decreases_witness :
  remaining (run rcfg1 (init 100000) [PostSendEmail rbody1 "ab12" "abcdefghi"]) = 13
  /\ exists s',
       step rcfg1 (run rcfg1 (init 100000) [PostSendEmail rbody1 "ab12" "abcdefghi"])
            (SendMailReturns 0 (SendErr rejected_550)) = Some s'
       /\ remaining s' < 13.
Proof.
  split; [reflexivity|].
  destruct (retry_loop_work_decreases rcfg1 100000
              (run rcfg1 (init 100000) [PostSendEmail rbody1 "ab12" "abcdefghi"])
              (RetryServerFacts.retry_run_reachable _ _ _ _ (reach_init _ _)))
    as (_ & _ & Hdec).
  eexists. split; [reflexivity|].
  exact (Hdec (SendMailReturns 0 (SendErr rejected_550)) _ eq_refl).
Defined.

End RetryServerAttempts.

Module RetryServerPerJobFacts.
Import RetryServer RetryServerInvariants RetryServerBudget RetryServerPerJob.
Local Open Scope Z_scope.
Local Arguments Z.add _ _ : simpl never.
Local Arguments Z.sub _ _ : simpl never.
Local Arguments Z.mul _ _ : simpl never.

Lemma budget_of_concat l1 l2 : budget_of (l1 ++ l2) = budget_of l1 + budget_of l2.
Proof. induction l1 as [|d l1 IH]; simpl; [reflexivity|]. rewrite IH. lia. Qed.

Lemma budget_of_cons d l : budget_of (d :: l) = budget_of l + attempts_left d.
Proof. reflexivity. Qed.

Lemma budget_of_nonneg l :
  (forall d, In d l -> 0 <= retries d <= 3) -> 0 <= budget_of l.
Proof.
  induction l as [|d l IH]; intros Hb; [simpl; lia|].
  rewrite budget_of_cons.
  specialize (IH (fun d' H => Hb d' (or_intror H))).
  specialize (Hb d (or_introl eq_refl)). unfold attempts_left. lia.
Qed.

Lemma Next_AccountedFor cfg x spent s s' :
  loops s = [] \/ (exists due, loops s = [AwaitRetryDelay due]) ->
  AccountedFor x spent s -> Next cfg s s' -> AccountedFor x spent s'.
Proof.
  intros Hl [Hc Hb] HN.
  assert (Hout : outstanding_for x s = 0)
    by (unfold outstanding_for; destruct Hl as [->|[due ->]]; reflexivity).
  assert (Hjobs : jobs s = emailQueue s)
    by (unfold jobs; destruct Hl as [->|[due ->]]; reflexivity).
  unfold budget_for in *. rewrite Hjobs in Hb. rewrite Hout in Hc.
  pose proof (RetryServerFacts.Next_jobs _ _ _ HN) as Hj.
  destruct HN as [Hq | d rest Hq Hlt | d rest Hq Hge];
    constructor; unfold budget_for, outstanding_for; rewrite ?Hj; simpl; auto;
    lia.
Qed.

Lemma RCanon_AccountedFor cfg x spent s e s' :
  Bounded s -> AccountedFor x spent s -> RCanon cfg s e s' ->
  AccountedFor x (spent + 4 * accepted_as cfg x s e) s'.
Proof.
  intros HB HA HC.
  destruct HC as [dt | body r4 r9 Hm | body r4 r9 k Hm Hl Hf
                 | body r4 r9 s' Hm Hl Hf Hq HN | d due Hl Hf Hdue
                 | due s' Hl Hf Hdue HN | d mid Hl Hf
                 | d err Hl Hf Hr | d err Hl Hf Hr];
    cbn [accepted_as]; rewrite ?Hm;
    try (assert (Hd : 0 <= retries d <= 3)
          by (apply HB; unfold jobs; rewrite Hl; simpl; now left)).
  - destruct HA as [Hc Hb]. constructor; simpl; auto.
    unfold budget_for, jobs in *. simpl. lia.
  - destruct HA as [Hc Hb]. constructor; auto. lia.
  - destruct HA as [Hc Hb]. constructor.
    + unfold outstanding_for in *. simpl. exact Hc.
    + unfold budget_for, jobs in *. simpl.
      rewrite app_assoc, filter_app, budget_of_concat. simpl.
      destruct (has_id x (new_emailData cfg body r4 r9 s)); simpl;
        unfold attempts_left; simpl; lia.
  - refine (Next_AccountedFor cfg x _ _ _ _ _ HN); [left; simpl; assumption|].
    destruct HA as [Hc Hb]. constructor.
    + unfold outstanding_for in *. simpl. rewrite Hl in *. exact Hc.
    + unfold budget_for, jobs in *. simpl. rewrite Hl, Hq in *. simpl in *.
      destruct (has_id x (new_emailData cfg body r4 r9 s)); simpl;
        unfold attempts_left; simpl; lia.
  - destruct HA as [Hc Hb]. constructor.
    + unfold outstanding_for in *. simpl. rewrite Hl in *.
      destruct (has_id x d); lia.
    + unfold budget_for, jobs in *. simpl. rewrite Hl in *. simpl in *. lia.
  - refine (Next_AccountedFor cfg x _ _ _ _ _ HN); [right; eexists; eassumption|].
    replace (spent + 4 * 0) with spent by lia. exact HA.
  - destruct HA as [Hc Hb]. constructor.
    + unfold outstanding_for in *. simpl. rewrite Hl in *. lia.
    + unfold budget_for, jobs in *. simpl. rewrite Hl in *. simpl in *.
      destruct (has_id x d); rewrite ?budget_of_cons in Hb;
        unfold attempts_left in *; lia.
  - destruct HA as [Hc Hb]. constructor.
    + unfold outstanding_for in *. simpl. rewrite Hl in *. lia.
    + unfold budget_for, jobs in *. simpl. rewrite Hl in *. simpl in *.
      rewrite filter_app, budget_of_concat. simpl.
      change (has_id x (incr_retries d)) with (has_id x d).
      destruct (has_id x d); rewrite ?budget_of_cons in *;
        unfold attempts_left in *; simpl in *; lia.
  - destruct HA as [Hc Hb]. constructor.
    + unfold outstanding_for in *. simpl. rewrite Hl in *. lia.
    + unfold budget_for, jobs in *. simpl. rewrite Hl in *. simpl in *.
      destruct (has_id x d); rewrite ?budget_of_cons in Hb;
        unfold attempts_left in *; lia.
Qed.

Lemma run_AccountedFor cfg now x es : forall spent s,
  reachable cfg now s -> AccountedFor x spent s ->
  AccountedFor x (spent + 4 * accepted_for cfg x s es) (run cfg s es).
Proof.
  induction es as [|e es IH]; intros spent s Hr HA.
  - simpl. now replace (spent + 4 * 0) with spent by lia.
  - cbn [run accepted_for].
    replace (spent
             + 4 * (accepted_for cfg x
                      (match step cfg s e with Some s' => s' | None => s end) es
                    + accepted_as cfg x s e))
      with (spent + 4 * accepted_as cfg x s e
            + 4 * accepted_for cfg x
                    (match step cfg s e with Some s' => s' | None => s end) es)
      by lia.
    destruct (step cfg s e) as [s'|] eqn:Hstep.
    + apply IH; [eapply reach_step; eassumption|].
      eapply RCanon_AccountedFor; [| exact HA |].
      * eapply RetryServerFacts.reachable_Bounded; eassumption.
      * eapply RetryServerFacts.step_RCanon; [|exact Hstep].
        eapply RetryServerFacts.reachable_RSingle; eassumption.
    + apply IH; [assumption|].
      assert (Hz : accepted_as cfg x s e = 0)
        by (destruct e; try reflexivity; discriminate).
      rewrite Hz. now replace (spent + 4 * 0) with spent by lia.
Qed.

Lemma outstanding_for_covered x s :
  Bounded s -> 0 <= outstanding_for x s <= budget_for x s.
Proof.
  intros HB.
  assert (Hall : 0 <= budget_of (filter (has_id x) (jobs s))).
  { apply budget_of_nonneg. intros d Hin.
    apply filter_In in Hin as [Hin _]. auto. }
  unfold outstanding_for, budget_for.
  destruct (loops s) as [|[d q|d|q] [|]] eqn:Hl; try lia.
  destruct (has_id x d) eqn:Hx; [|lia].
  assert (Hd : 0 <= retries d <= 3)
    by (apply HB; unfold jobs; rewrite Hl; simpl; now left).
  assert (Hrest : 0 <= budget_of (filter (has_id x) (emailQueue s))).
  { apply budget_of_nonneg. intros d' Hin. apply filter_In in Hin as [Hin _].
    apply HB. unfold jobs. rewrite Hl. simpl. now right. }
  unfold jobs. rewrite Hl. simpl. rewrite Hx, budget_of_cons.
  unfold attempts_left. lia.
Qed.

(** X7. The quick-setup server sends a job at most four times.  A job is
    known by its [id], which it keeps when it is queued again.  Over any
    schedule of requests, timers and transport answers, starting from the
    fresh server, and for every id: the transport is called for jobs with
    that id at most four times per accepted request that was given that
    id, so at most four times for a request whose id no other request
    got; every such call but the one in flight has been answered.  Over
    all jobs, the transport is called at most four times per accepted
    request. *)
Theorem at_most_four_sends_per_request cfg now es :
  let s := run cfg (init now) es in
  (forall x,
      calls_for x (trace s) <= 4 * accepted_for cfg x (init now) es
      /\ calls_for x (trace s) = answers_for x (trace s) + outstanding_for x s
      /\ 0 <= outstanding_for x s <= 1)
  /\ calls (trace s) <= 4 * accepted es
  /\ calls (trace s) = answers (trace s) + outstanding s
  /\ 0 <= outstanding s <= 1.
Proof.
  intros s.
  assert (Hr : reachable cfg now s)
    by (apply RetryServerFacts.retry_run_reachable; constructor).
  pose proof (RetryServerFacts.reachable_Bounded _ _ _ Hr) as HB.
  split.
  - intros x.
    assert (HA : AccountedFor x (0 + 4 * accepted_for cfg x (init now) es) s).
    { apply (run_AccountedFor cfg now); [constructor|].
      constructor; reflexivity. }
    destruct HA as [Hc Hb].
    pose proof (outstanding_for_covered x s HB) as Hout.
    assert (Hout1 : outstanding_for x s <= 1).
    { unfold outstanding_for.
      destruct (loops s) as [|[d q|d|q] [|]]; try lia.
      destruct (has_id x d); lia. }
    repeat split; lia.
  - assert (HA : Accounted (0 + 4 * accepted es) s).
    { apply (RetryServerAttempts.run_Accounted cfg now); [constructor|].
      constructor; reflexivity. }
    destruct HA as [Hc Hb].
    pose proof (RetryServerAttempts.budget_of_bounded (jobs s) HB) as Hlen.
    assert (Hout : 0 <= outstanding s <= Z.of_nat (List.length (jobs s))).
    { unfold outstanding, jobs.
      destruct (loops s) as [|[d q|d|q] [|]]; simpl; lia. }
    assert (Hout1 : 0 <= outstanding s <= 1).
    { unfold outstanding.
      destruct (loops s) as [|[d q|d|q] [|]]; simpl; lia. }
    unfold budget in Hb. repeat split; try lia.
Qed.

Lemma at_most_four_sends_per_request_witness :
  let es := [PostSendEmail rbody1 "ab12" "abcdefghi";
             PostSendEmail rbody1 "cd34" "jklmnopqr"]
            ++ failed_attempt rcfg1 rejected_550
            ++ failed_attempt rcfg1 rejected_550
            ++ failed_attempt rcfg1 rejected_550
            ++ failed_attempt rcfg1 rejected_550
            ++ failed_attempt rcfg1 rejected_550 in
  let s := run rcfg1 (init 100000) es in
  accepted_for rcfg1 "100000.ab12" (init 100000) es = 1
  /\ calls_for "100000.ab12" (trace s) = 3
  /\ calls_for "100000.cd34" (trace s) = 3
  /\ calls_for "100000.ab12" (trace s) <= 4 * 1.
Proof.
  cbv zeta. split; [reflexivity|]. split; [reflexivity|]. split; [reflexivity|].
  exact (proj1 (proj1 (at_most_four_sends_per_request rcfg1 100000
                         ([PostSendEmail rbody1 "ab12" "abcdefghi";
                           PostSendEmail rbody1 "cd34" "jklmnopqr"]
                            ++ failed_attempt rcfg1 rejected_550
                            ++ failed_attempt rcfg1 rejected_550
                            ++ failed_attempt rcfg1 rejected_550
                            ++ failed_attempt rcfg1 rejected_550
                            ++ failed_attempt rcfg1 rejected_550))
                      "100000.ab12")).
Defined.

End RetryServerPerJobFacts.

(** * More of the HTTP handlers *)

Module AttachmentFacts.
Import AttachmentHandler AttachmentShapes.

Lemma map_attachments_ok l :
  forallb (fun a => negb (nullish a)) l = true ->
  map_attachments l = inr (map mapped l).
Proof.
  induction l as [|a l IH]; simpl; [reflexivity|].
  intros H. apply andb_true_iff in H as [Ha Hl]. rewrite (IH Hl).
  destruct a; simpl in *; try discriminate; reflexivity.
Qed.

Lemma map_attachments_throws l :
  forallb (fun a => negb (nullish a)) l = false ->
  exists thrown, map_attachments l = inl thrown.
Proof.
  induction l as [|a l IH]; simpl; [discriminate|].
  intros H. apply andb_false_iff in H as [Ha|Hl].
  - destruct a; simpl in *; try discriminate; eauto.
  - destruct (IH Hl) as [thrown ->].
    destruct (map_attachment a); eauto.
Qed.

(** X9. A valid request with an array of attachment objects makes exactly
    one transport call, and the mail carries one attachment per element, in
    the same order, each with the element's [filename], [content] and
    [contentType] and with its [encoding], or "base64" when that is missing
    or empty.  The reply is 200 with the transport's message id, or 500 with
    the transport's error message. *)
Theorem attachments_are_passed_in_order default_from sendMail body l :
  missing_fields body = false ->
  forallb (fun a => negb (nullish a)) l = true ->
  let mail :=
    mkAttachmentMail
      (mkMailOptions (js_or (b_from body) default_from) (to_field (b_to body))
                     (b_subject body) (b_text body) (b_html body))
      (Some (map mapped l)) in
  snd (send_email_with_attachments default_from sendMail body (JArr l)) = [mail]
  /\ fst (send_email_with_attachments default_from sendMail body (JArr l))
     = match sendMail mail with
       | SendOk messageId =>
           mkResponse 200
             (PSent messageId "Email with attachments sent successfully")
       | SendErr error =>
           mkResponse 500
             (PError "Failed to send email with attachments"
                     (Some (message error)) None)
       end
  /\ List.length (map mapped l) = List.length l
  /\ (forall i fields,
         nth_error l i = Some (JObj fields) ->
         nth_error (map mapped l) i
         = Some (mkAttachment (lookup_field "filename" fields)
                              (lookup_field "content" fields)
                              (if truthy (lookup_field "encoding" fields)
                               then lookup_field "encoding" fields
                               else JStr "base64")
                              (lookup_field "contentType" fields))).
Proof.
  intros Hm Hok mail.
  unfold send_email_with_attachments. rewrite Hm, (map_attachments_ok l Hok).
  fold mail. split; [|split; [|split]].
  - destruct (sendMail mail); reflexivity.
  - destruct (sendMail mail); reflexivity.
  - apply length_map.
  - intros i fields Hn. rewrite nth_error_map, Hn. reflexivity.
Qed.

Lemma attachments_are_passed_in_order_witness :
  option_map (map encoding)
    (am_attachments
       (hd (mkAttachmentMail (mkMailOptions JNull JNull JNull JNull JNull) None)
           (snd (send_email_with_attachments (JStr "me@gmail.com")
                   (fun _ => SendOk "<m@example.org>") valid_body
                   (JArr [invoice])))))
  = Some [JStr "base64"].
Proof.
  destruct (attachments_are_passed_in_order (JStr "me@gmail.com")
              (fun _ => SendOk "<m@example.org>") valid_body [invoice]
              eq_refl eq_refl) as (Hcalls & _).
  rewrite Hcalls. reflexivity.
Defined.

(** X10. The edges of the attachments handler.  A body with missing fields
    is answered 400 and nothing is sent.  When [attachments] is not an array
    the mail is sent once without attachments.  When the array holds a
    [null] or [undefined] element the handler answers 500 and the transport
    is never called.  The self-hosted server's queue, flag and timestamp are
    untouched in every case. *)
Theorem attachments_handler_edges default_from sendMail body attachments :
  (missing_fields body = true ->
   send_email_with_attachments default_from sendMail body attachments
   = (mkResponse 400
        (PError "Missing required fields: to, subject, and either text or html"
                None None), []))
  /\ (missing_fields body = false ->
      (forall l, attachments <> JArr l) ->
      snd (send_email_with_attachments default_from sendMail body attachments)
      = [mkAttachmentMail
           (mkMailOptions (js_or (b_from body) default_from) (to_field (b_to body))
                          (b_subject body) (b_text body) (b_html body))
           None])
  /\ (missing_fields body = false ->
      forall l, attachments = JArr l ->
                forallb (fun a => negb (nullish a)) l = false ->
                status (fst (send_email_with_attachments default_from sendMail
                               body attachments)) = 500
                /\ snd (send_email_with_attachments default_from sendMail
                          body attachments) = [])
  /\ (forall cfg s,
         snd (queue_server_handler cfg sendMail body attachments s) = s).
Proof.
  split; [|split; [|split]].
  - intros Hm. unfold send_email_with_attachments. now rewrite Hm.
  - intros Hm Hna. unfold send_email_with_attachments. rewrite Hm.
    destruct attachments; try (destruct (sendMail _); reflexivity).
    now contradiction (Hna l).
  - intros Hm l -> Hbad. unfold send_email_with_attachments. rewrite Hm.
    destruct (map_attachments_throws l Hbad) as [thrown ->]. split; reflexivity.
  - reflexivity.
Qed.

Lemma attachments_handler_edges_witness :
  send_email_with_attachments (JStr "me@gmail.com")
    (fun _ => SendOk "<m@example.org>") valid_body (JArr [invoice; JNull])
  = (mkResponse 500
       (PError "Failed to send email with attachments"
               (Some "Cannot read properties of null (reading 'filename')") None),
     []).
Proof.
  destruct (attachments_handler_edges (JStr "me@gmail.com")
              (fun _ => SendOk "<m@example.org>") valid_body
              (JArr [invoice; JNull])) as (_ & _ & Hthrow & _).
  destruct (Hthrow eq_refl [invoice; JNull] eq_refl eq_refl) as [_ _].
  reflexivity.
Defined.

End AttachmentFacts.

Module AccessControlFacts.
Import AccessControl.

Lemma substring_all s : String.substring 0 (String.length s) s = s.
Proof. induction s as [|c s IH]; simpl; [reflexivity|now rewrite IH]. Qed.

Lemma strip_mapped_prefixed a : strip_mapped ("::ffff:" ++ a) = a.
Proof.
  unfold strip_mapped.
  replace (String.prefix "::ffff:" ("::ffff:" ++ a)) with true
    by (symmetry; apply QueueServerOrder.prefix_iff; now exists a).
  simpl. rewrite Nat.sub_0_r. apply substring_all.
Qed.

Lemma strip_mapped_plain ip :
  String.prefix "::ffff:" ip = false -> strip_mapped ip = ip.
Proof. unfold strip_mapped. now intros ->. Qed.

Lemma array_includes_In l x : array_includes l x = true <-> In x l.
Proof.
  unfold array_includes. rewrite existsb_exists. split.
  - intros (y & Hin & Heq). apply String.eqb_eq in Heq. now subst.
  - intros Hin. exists x. split; [assumption|apply String.eqb_refl].
Qed.

(** X11. Who [isIPAllowed] lets in.  The prefix "::ffff:" is taken off the
    address, once, before it is looked up.  So an address is allowed
    exactly when it is not empty and either it does not start with
    "::ffff:" and is on the list, or it is "::ffff:" followed by an address
    on the list.  An address that starts with "::ffff:" is not looked up as
    it stands: when the configured server address is itself of that form,
    and what follows the prefix is not on the list, that very address is
    refused although it is on the list.  [undefined] and the empty string
    are never allowed.  The two loopback addresses and the IPv4-mapped
    127.0.0.1 are allowed whatever the configuration. *)
Theorem isIPAllowed_spec cfg :
  (forall ip,
      isIPAllowed cfg (Some ip) = true <->
      ip <> ""
      /\ ((String.prefix "::ffff:" ip = false /\ In ip (allowedIPs cfg))
          \/ exists a, ip = ("::ffff:" ++ a)%string /\ In a (allowedIPs cfg)))
  /\ (forall a,
         SERVER_IP cfg = ("::ffff:" ++ a)%string ->
         ~ In a (allowedIPs cfg) ->
         In (SERVER_IP cfg) (allowedIPs cfg)
         /\ isIPAllowed cfg (Some (SERVER_IP cfg)) = false)
  /\ isIPAllowed cfg None = false
  /\ isIPAllowed cfg (Some "") = false
  /\ isIPAllowed cfg (Some "127.0.0.1") = true
  /\ isIPAllowed cfg (Some "::1") = true
  /\ isIPAllowed cfg (Some "::ffff:127.0.0.1") = true.
Proof.
  split; [|split; [|repeat split; reflexivity]].
  2:{ intros a Hs Hn. split; [simpl; auto|].
      rewrite Hs. unfold isIPAllowed. simpl String.eqb. cbv iota.
      rewrite strip_mapped_prefixed.
      destruct (array_includes (allowedIPs cfg) a) eqn:Hin; [|reflexivity].
      apply array_includes_In in Hin. contradiction. }
  intros ip. unfold isIPAllowed.
  destruct (String.eqb_spec ip "") as [->|Hne].
  - split; [discriminate | intros [H _]; congruence].
  - rewrite array_includes_In.
    destruct (String.prefix "::ffff:" ip) eqn:Hp.
    + apply QueueServerOrder.prefix_iff in Hp as [a ->].
      rewrite strip_mapped_prefixed. split.
      * intros Hin. split; [assumption|]. right. now exists a.
      * intros [_ [[Hf _]|(a' & Heq & Hin)]]; [discriminate|].
        apply (f_equal strip_mapped) in Heq.
        rewrite !strip_mapped_prefixed in Heq. now subst.
    + rewrite (strip_mapped_plain ip Hp). split.
      * intros Hin. split; [assumption|]. now left.
      * intros [_ [[_ Hin]|(a & -> & _)]]; [assumption|].
        assert (String.prefix "::ffff:" ("::ffff:" ++ a) = true)
          by (apply QueueServerOrder.prefix_iff; now exists a).
        congruence.
Qed.

(** X12. Which address the hook judges.  When [request.ip] is set and not
    empty, it alone decides: the [X-Forwarded-For] and [X-Real-IP] headers
    and the socket address are not looked at, so a header cannot let a
    request in or keep it out.  The hook answers 403 exactly when the
    address it picked is not allowed, reporting that address without the
    "::ffff:" prefix, or "unknown" when it found none.  Without a
    [request.ip], the part of [X-Forwarded-For] before its first comma is
    the address judged. *)
Theorem preHandler_trusts_request_ip_first cfg request :
  (forall ip, req_ip request = Some ip -> ip <> "" ->
              clientIP request = Some ip
              /\ preHandler cfg request
                 = if isIPAllowed cfg (Some ip) then Pass
                   else Denied 403 (strip_mapped ip))
  /\ (forall header,
         req_ip request = None \/ req_ip request = Some "" ->
         x_forwarded_for request = Some header ->
         first_segment header <> "" ->
         clientIP request = Some (first_segment header))
  /\ (preHandler cfg request = Pass <->
      isIPAllowed cfg (clientIP request) = true)
  /\ (isIPAllowed cfg (clientIP request) = false ->
      exists ip, preHandler cfg request = Denied 403 ip)
  /\ ((clientIP request = None \/ clientIP request = Some "") ->
      preHandler cfg request = Denied 403 "unknown").
Proof.
  split; [|split; [|split; [|split]]].
  - intros ip Hip Hne.
    assert (E : String.eqb ip "" = false) by now apply String.eqb_neq.
    assert (Hc : clientIP request = Some ip).
    { unfold clientIP. rewrite Hip. unfold or_string. now rewrite !E. }
    split; [exact Hc|]. unfold preHandler. rewrite Hc.
    destruct (isIPAllowed cfg (Some ip)); simpl; [reflexivity|].
    now rewrite E.
  - intros header Hip Hx Hne.
    assert (E : String.eqb (first_segment header) "" = false)
      by now apply String.eqb_neq.
    unfold clientIP, or_string. rewrite Hx. cbn [option_map].
    destruct Hip as [-> | ->]; [|change (String.eqb "" "") with true; cbv iota];
      now rewrite !E.
  - unfold preHandler. destruct (isIPAllowed cfg (clientIP request)); simpl;
      split; try reflexivity; discriminate.
  - intros H. unfold preHandler. rewrite H. simpl. eauto.
  - intros [H|H]; unfold preHandler; rewrite H; reflexivity.
Qed.

Lemma preHandler_trusts_request_ip_first_witness :
  preHandler (mkConfig "203.0.113.7" "198.51.100.9")
    (mkRequest (Some "::ffff:192.0.2.1") (Some "127.0.0.1, 10.0.0.1")
               (Some "127.0.0.1") (Some "127.0.0.1"))
  = Denied 403 "192.0.2.1".
Proof.
  destruct (preHandler_trusts_request_ip_first
              (mkConfig "203.0.113.7" "198.51.100.9")
              (mkRequest (Some "::ffff:192.0.2.1") (Some "127.0.0.1, 10.0.0.1")
                         (Some "127.0.0.1") (Some "127.0.0.1")))
    as (Hfirst & _).
  destruct (Hfirst "::ffff:192.0.2.1" eq_refl ltac:(discriminate)) as [_ Hpre].
  exact Hpre.
Defined.

End AccessControlFacts.

Module BulkFacts.

(** X13. What the bulk handler refuses.  The reply is 400, and the
    transport is not called, exactly when [recipients] is not a non-empty
    array, or [subject] is missing, or both [text] and [html] are; the
    recipients are checked first.  Otherwise the reply is 200 and one call
    is made per recipient, however many of the sends fail: the handler
    never answers 500. *)
Theorem bulk_handler_refuses_without_sending default_from sendMail body :
  let valid :=
    (exists l, bb_recipients body = JArr l /\ l <> [])
    /\ truthy (bb_subject body) = true
    /\ truthy (bb_text body) || truthy (bb_html body) = true in
  (valid ->
   status (fst (send_bulk_email default_from sendMail body)) = 200
   /\ forall l, bb_recipients body = JArr l ->
                List.length (snd (send_bulk_email default_from sendMail body))
                = List.length l)
  /\ (~ valid ->
      status (fst (send_bulk_email default_from sendMail body)) = 400
      /\ snd (send_bulk_email default_from sendMail body) = [])
  /\ (~ (exists l, bb_recipients body = JArr l /\ l <> []) ->
      send_bulk_email default_from sendMail body
      = (mkResponse 400
           (PError "Recipients array is required and cannot be empty" None None),
         [])).
Proof.
  intros valid. subst valid. split; [|split].
  - intros ((l & Hr & Hne) & Hs & Htb).
    rewrite (send_bulk_email_valid default_from sendMail body l Hr Hne Hs Htb).
    split; [reflexivity|].
    intros l' Hr'. rewrite Hr in Hr'. inversion Hr'; subst.
    simpl. apply length_map.
  - intros Hnv. unfold send_bulk_email.
    destruct (bb_recipients body) as [| | | | |l|] eqn:Hr; try (split; reflexivity).
    destruct l as [|r0 rs]; [split; reflexivity|]. cbn [List.length Nat.eqb].
    destruct (truthy (bb_subject body)) eqn:Hs; [|split; reflexivity].
    destruct (truthy (bb_text body)) eqn:Ht;
      destruct (truthy (bb_html body)) eqn:Hh; simpl;
      try (split; reflexivity);
      exfalso; apply Hnv;
      (split; [exists (r0 :: rs); split; [reflexivity|discriminate]|]);
      split; reflexivity.
  - intros Hno. unfold send_bulk_email.
    destruct (bb_recipients body) as [| | | | |l|] eqn:Hr; try reflexivity.
    destruct l as [|r0 rs]; [reflexivity|].
    exfalso. apply Hno. exists (r0 :: rs). split; [reflexivity|discriminate].
Qed.

Lemma bulk_handler_refuses_without_sending_witness :
  send_bulk_email (JStr "me@gmail.com") sendMail1
    (mkBulkBody (JStr "ann@example.org") (JStr "hello") (JStr "text")
                JUndefined JUndefined)
  = (mkResponse 400
       (PError "Recipients array is required and cannot be empty" None None),
     []).
Proof.
  destruct (bulk_handler_refuses_without_sending (JStr "me@gmail.com") sendMail1
              (mkBulkBody (JStr "ann@example.org") (JStr "hello") (JStr "text")
                          JUndefined JUndefined)) as (_ & _ & Hrec).
  apply Hrec. intros (l & Hr & _). discriminate.
Defined.

End BulkFacts.

(** * The recipients of [POST /send-email] *)

Module RecipientFacts.

(** X14. A request whose [to] is an array of address strings, with the
    other fields present (an empty array passes the check too).  The
    Gmail relay makes one call of the transport, and the self-hosted
    server queues one job, whose [to] is a single string: the addresses
    joined by a comma and a space.  The quick-setup server does not join:
    the job it queues has the array itself. *)
Theorem address_array_joined_before_sending body addresses :
  b_to body = JArr (map JStr addresses) ->
  truthy (b_subject body) = true ->
  truthy (b_text body) || truthy (b_html body) = true ->
  (forall cfg sendMail,
      snd (DirectServer.post_send_email cfg sendMail body)
      = [mkMailOptions (js_or (b_from body) (DirectServer.GMAIL_USER cfg))
                       (JStr (String.concat ", " addresses))
                       (b_subject body) (b_text body) (b_html body)])
  /\ (forall cfg now s rnd,
         QueueServer.reachable cfg now s ->
         exists emailJob,
           flat_map QueueServerInvariants.held
             (QueueServer.loops (snd (QueueServer.post_send_email cfg body rnd s)))
             ++ QueueServer.emailQueue (snd (QueueServer.post_send_email cfg body rnd s))
           = flat_map QueueServerInvariants.held (QueueServer.loops s)
             ++ QueueServer.emailQueue s ++ [emailJob]
           /\ QueueServer.handle emailJob = QueueServer.nextHandle s
           /\ mo_to (QueueServer.mailOptions emailJob)
              = JStr (String.concat ", " addresses))
  /\ (forall cfg now s rnd4 rnd9,
         RetryServer.reachable cfg now s ->
         exists emailData,
           RetryServerInvariants.jobs
             (snd (RetryServer.post_send_email cfg body rnd4 rnd9 s))
           = RetryServerInvariants.jobs s ++ [emailData]
           /\ RetryServer.to emailData = JArr (map JStr addresses)
           /\ RetryServer.retries emailData = 0).
Proof.
  intros Hto Hs Htb.
  assert (Hm : missing_fields body = false).
  { unfold missing_fields. rewrite Hto, Hs. simpl.
    apply orb_true_iff in Htb. destruct Htb as [-> | ->]; simpl;
      auto using andb_false_r. }
  assert (Hjoin : to_field (b_to body) = JStr (String.concat ", " addresses)).
  { rewrite Hto. unfold to_field, js_join. f_equal. f_equal.
    rewrite map_map. simpl. apply map_id. }
  split; [|split].
  - intros cfg sendMail. unfold DirectServer.post_send_email.
    rewrite Hm, Hjoin. destruct (sendMail _); reflexivity.
  - intros cfg now s rnd Hr.
    destruct (QueueServerFacts.post_queues_job cfg now s body rnd Hr Hm)
      as (_ & _ & Hheld & _).
    eexists. split; [exact Hheld|]. split; [reflexivity|]. exact Hjoin.
  - intros cfg now s rnd4 rnd9 Hr.
    exists (RetryServerInvariants.new_emailData cfg body rnd4 rnd9 s).
    split; [now apply (RetryServerFacts.retry_post_queues_job cfg now)|].
    split; [exact Hto | reflexivity].
Qed.

Lemma address_array_joined_before_sending_witness :
  snd (DirectServer.post_send_email (DirectServer.mkConfig (JStr "me@gmail.com"))
         (fun _ => SendOk "<m@example.org>")
         (mkBody (JArr [JStr "ann@example.org"; JStr "bob@example.org"])
                 (JStr "hello") (JStr "text") JUndefined JUndefined))
  = [mkMailOptions (JStr "me@gmail.com") (JStr "ann@example.org, bob@example.org")
                   (JStr "hello") (JStr "text") JUndefined].
Proof.
  destruct (address_array_joined_before_sending
              (mkBody (JArr [JStr "ann@example.org"; JStr "bob@example.org"])
                      (JStr "hello") (JStr "text") JUndefined JUndefined)
              ["ann@example.org"; "bob@example.org"] eq_refl eq_refl eq_refl)
    as (Hdirect & _).
  exact (Hdirect (DirectServer.mkConfig (JStr "me@gmail.com"))
                 (fun _ => SendOk "<m@example.org>")).
Defined.

End RecipientFacts.
